(** * Kelemvor's Scales: the combat-resolution and simulation engine

    A shallow embedding of [boss_balance_desktop_encounter_v3_resized.py]
    (damage expressions, d20 probability tables, recharge parsing, the
    single-target and encounter Monte-Carlo loops, the HP auto-tuner, the
    deterministic per-member and time-to-defeat estimates and the saved
    profiles), followed by the properties established about it.

    Conventions of the embedding.
    - Python [int] is [Z]; Python [float] is an exact rational [Q]
      (the quantities below are small multiples of 1/2, 1/6, 1/20 and
      1/400, sums of integer dice and dyadic HP brackets); the float
      infinity used for an unrecorded time-to-kill is [None].
    - Python [str] is [string]; character classes are the ASCII ones
      (non-ASCII digits and blanks that Python's [\d], [strip] and [int]
      also accept are outside the embedding).
    - The process-wide random generators are an explicit entropy tape
      threaded through a state-and-exception monad; only the support of
      each distribution is modelled, never its weights. *)

From Stdlib Require Import ZArith QArith Qminmax Qround Qabs Ascii String List Lia.
From stdpp Require Import base list strings gmap.

Open Scope Z_scope.

(** ** Python string primitives *)

Module PyStr.

Definition code (c : ascii) : N := N_of_ascii c.

(** [str.isspace] on the ASCII range. *)
Definition isspace (c : ascii) : bool :=
  let n := code c in
  (((9 <=? n) && (n <=? 13)) || ((28 <=? n) && (n <=? 32)))%N.

Definition isdigit (c : ascii) : bool :=
  let n := code c in ((48 <=? n) && (n <=? 57))%N.

Definition digit_val (c : ascii) : Z := Z.of_N (code c) - 48.

Definition lower_char (c : ascii) : ascii :=
  let n := code c in
  if ((65 <=? n) && (n <=? 90))%N then ascii_of_N (n + 32) else c.

Definition upper_char (c : ascii) : ascii :=
  let n := code c in
  if ((97 <=? n) && (n <=? 122))%N then ascii_of_N (n - 32) else c.

Fixpoint smap (f : ascii -> ascii) (s : string) : string :=
  match s with
  | EmptyString => EmptyString
  | String c s' => String (f c) (smap f s')
  end.

Definition lower : string -> string := smap lower_char.
Definition upper : string -> string := smap upper_char.

Fixpoint lstrip (s : string) : string :=
  match s with
  | String c s' => if isspace c then lstrip s' else s
  | EmptyString => EmptyString
  end.

Fixpoint rstrip (s : string) : string :=
  match s with
  | EmptyString => EmptyString
  | String c s' =>
      match rstrip s' with
      | EmptyString => if isspace c then EmptyString else String c EmptyString
      | r => String c r
      end
  end.

Definition strip (s : string) : string := rstrip (lstrip s).

(** [s.replace(c, empty)] for a one-character needle. *)
Fixpoint remove_char (x : ascii) (s : string) : string :=
  match s with
  | EmptyString => EmptyString
  | String c s' =>
      if Ascii.eqb c x then remove_char x s' else String c (remove_char x s')
  end.

Definition is_empty (s : string) : bool :=
  match s with EmptyString => true | _ => false end.

Definition starts_with_char (x : ascii) (s : string) : bool :=
  match s with String c _ => Ascii.eqb c x | EmptyString => false end.

Definition drop1 (s : string) : string :=
  match s with String _ s' => s' | EmptyString => EmptyString end.

Fixpoint contains_char (x : ascii) (s : string) : bool :=
  match s with
  | EmptyString => false
  | String c s' => Ascii.eqb c x || contains_char x s'
  end.

(** [s.split(x, 1)] when [x] occurs in [s]: the text before the first
    occurrence and the text after it. *)
Fixpoint split_first (x : ascii) (s : string) : string * string :=
  match s with
  | EmptyString => (EmptyString, EmptyString)
  | String c s' =>
      if Ascii.eqb c x then (EmptyString, s')
      else let '(a, b) := split_first x s' in (String c a, b)
  end.

(** A greedy optional sign. *)
Definition take_sign (s : string) : string * string :=
  match s with
  | String c s' =>
      if Ascii.eqb c "+" || Ascii.eqb c "-"
      then (String c EmptyString, s') else (EmptyString, s)
  | EmptyString => (EmptyString, EmptyString)
  end.

(** A greedy run of digits: the longest digit prefix and the rest. *)
Fixpoint span_digits (s : string) : string * string :=
  match s with
  | String c s' =>
      if isdigit c
      then let '(d, r) := span_digits s' in (String c d, r)
      else (EmptyString, s)
  | EmptyString => (EmptyString, EmptyString)
  end.

(** The digits of [int(str)]: one or more decimal digits, single
    underscores allowed between two digits. *)
Fixpoint int_digits (acc : Z) (after_digit : bool) (s : string) : option Z :=
  match s with
  | EmptyString => if after_digit then Some acc else None
  | String c s' =>
      if isdigit c then int_digits (10 * acc + digit_val c) true s'
      else if Ascii.eqb c "_" && after_digit then int_digits acc false s'
      else None
  end.

(** [int(s)] for a string argument; [None] stands for [ValueError]. *)
Definition int (s : string) : option Z :=
  let '(sg, body) := take_sign (strip s) in
  match int_digits 0 false body with
  | Some n => Some (if String.eqb sg "-" then - n else n)
  | None => None
  end.

(** [safe_int(x, default)] at a string. The source falls back to
    [int(float(x))] before giving up; that fallback only succeeds on
    texts with a fraction, an exponent or a special value, which none
    of the regex tokens handed to it below can be. *)
Definition safe_int (x : string) (default : Z) : Z :=
  match int x with Some n => n | None => default end.

End PyStr.

(** ** DiceExpression *)

Module Dice.
Import PyStr.

(** One match of the dice pattern (an optional sign and any number of
    digits as group 1, the letter d, one or more digits as group 2)
    anchored at the head of [s]: the two groups and the length of the
    match. Every atom is greedy and none of
    the backtracking alternatives can succeed where the greedy one
    fails, so the match is deterministic. *)
Definition match_dice_at (s : string) : option (string * string * nat) :=
  let '(sg, s1) := take_sign s in
  let '(ds, s2) := span_digits s1 in
  match s2 with
  | String "d"%char s3 =>
      let '(sd, _) := span_digits s3 in
      if is_empty sd then None
      else Some ((sg ++ ds)%string, sd,
                 (String.length sg + String.length ds + 1 + String.length sd)%nat)
  | _ => None
  end.

(** [re.findall] of the dice pattern: leftmost non-overlapping
    matches; [skip] counts the characters of the current match still to
    be passed over. *)
Fixpoint findall_dice_from (skip : nat) (s : string) : list (string * string) :=
  match s with
  | EmptyString => []
  | String _ s' =>
      match skip with
      | S k => findall_dice_from k s'
      | O =>
          match match_dice_at s with
          | Some (c, sd, n) => (c, sd) :: findall_dice_from (n - 1) s'
          | None => findall_dice_from 0 s'
          end
      end
  end.

Definition findall_dice : string -> list (string * string) :=
  findall_dice_from 0.

(** [re.sub] of the dice pattern by the empty text. *)
Fixpoint sub_dice_from (skip : nat) (s : string) : string :=
  match s with
  | EmptyString => EmptyString
  | String c s' =>
      match skip with
      | S k => sub_dice_from k s'
      | O =>
          match match_dice_at s with
          | Some (_, _, n) => sub_dice_from (n - 1) s'
          | None => String c (sub_dice_from 0 s')
          end
      end
  end.

Definition sub_dice : string -> string := sub_dice_from 0.

(** One match of the signed-integer pattern (an optional sign, one or
    more digits) anchored at the head of [s]. *)
Definition match_int_at (s : string) : option (string * nat) :=
  let '(sg, s1) := take_sign s in
  let '(ds, _) := span_digits s1 in
  if is_empty ds then None
  else Some ((sg ++ ds)%string, (String.length sg + String.length ds)%nat).

(** [re.findall] of the signed-integer pattern. *)
Fixpoint findall_int_from (skip : nat) (s : string) : list string :=
  match s with
  | EmptyString => []
  | String _ s' =>
      match skip with
      | S k => findall_int_from k s'
      | O =>
          match match_int_at s with
          | Some (t, n) => t :: findall_int_from (n - 1) s'
          | None => findall_int_from 0 s'
          end
      end
  end.

Definition findall_int : string -> list string := findall_int_from 0.

Definition DamageDice : Type := list (Z * Z).

Definition dice_count (c_str : string) : Z :=
  if is_empty c_str || String.eqb c_str "+" then 1
  else if String.eqb c_str "-" then -1
  else safe_int c_str 1.

Definition zsum (l : list Z) : Z := foldr Z.add 0 l.

Definition parse_damage_expression (expr : string) : Z * DamageDice * Z :=
  let s := remove_char " " (lower (strip expr)) in
  if is_empty s then (1, [], 0)
  else
    let sign := if starts_with_char "-" s then -1 else 1 in
    let s := if starts_with_char "-" s || starts_with_char "+" s
             then drop1 s else s in
    let dice_terms := findall_dice s in
    let dice :=
      map (fun '(c_str, sides_str) => (dice_count c_str, safe_int sides_str 0))
          dice_terms in
    let s_wo := sub_dice s in
    let tokens := findall_int s_wo in
    let mod_ := zsum (map (fun t => safe_int t 0) tokens) in
    (sign, dice, mod_).

Definition qsum (l : list Q) : Q := foldr Qplus 0%Q l.

Definition average_damage (expr : string) : Q :=
  let '(sign, dice, mod_) := parse_damage_expression expr in
  let avg :=
    (qsum (map (fun '(c, s) => inject_Z c * inject_Z (s + 1) / 2) dice)
     + inject_Z mod_)%Q in
  Qmax 0 (inject_Z sign * avg).

Definition average_crunchy_crit_damage (expr : string) : Q :=
  let '(sign, dice, mod_) := parse_damage_expression expr in
  let avg_dice :=
    qsum (map (fun '(c, s) =>
                 inject_Z c * (inject_Z s + inject_Z (s + 1) / 2))%Q dice) in
  Qmax 0 (inject_Z sign * (avg_dice + inject_Z mod_)).

End Dice.

(** ** ProbabilityModel *)

Module Prob.

(** [range(a, b)]. *)
Definition range (a b : Z) : list Z :=
  map (fun i => a + Z.of_nat i) (seq 0 (Z.to_nat (b - a))).

(** [sum(1 for x in l if p x)]. *)
Definition count_if {A : Type} (p : A -> bool) (l : list A) : Z :=
  Dice.zsum (map (fun _ => 1) (List.filter p l)).

Definition classify (ac attack_bonus r : Z) : bool * bool :=
  if r =? 1 then (false, false)
  else if r =? 20 then (true, true)
  else (ac <=? r + attack_bonus, false).

(** Returns [(p_noncrit, p_crit, p_any)]. Any mode other than
    ["normal"] and ["adv"] takes the branch of ["dis"]. *)
Definition hit_probs (ac attack_bonus : Z) (mode : string) : Q * Q * Q :=
  if String.eqb mode "normal" then
    let hits := map (classify ac attack_bonus) (range 1 21) in
    let p_crit := (inject_Z (count_if snd hits) / 20)%Q in
    let p_noncrit :=
      (inject_Z (count_if (fun h => fst h && negb (snd h)) hits) / 20)%Q in
    (p_noncrit, p_crit, (p_noncrit + p_crit)%Q)
  else
    let hits :=
      flat_map
        (fun r1 =>
           map (fun r2 =>
                  classify ac attack_bonus
                    (if String.eqb mode "adv" then Z.max r1 r2 else Z.min r1 r2))
               (range 1 21))
        (range 1 21) in
    let p_crit := (inject_Z (count_if snd hits) / 400)%Q in
    let p_noncrit :=
      (inject_Z (count_if (fun h => fst h && negb (snd h)) hits) / 400)%Q in
    (p_noncrit, p_crit, (p_noncrit + p_crit)%Q).

Definition expected_attack_damage
    (ac attack_bonus : Z) (dmg mode : string) : Q :=
  let '(p_noncrit, p_crit, _) := hit_probs ac attack_bonus mode in
  (p_noncrit * Dice.average_damage dmg
   + p_crit * Dice.average_crunchy_crit_damage dmg)%Q.

Definition p_save_fail (dc save_bonus : Z) : Q :=
  let target := dc - save_bonus in
  if target <=? 1 then (1 / 20)%Q
  else if 20 <? target then (19 / 20)%Q
  else (inject_Z (target - 1) / 20)%Q.

Definition expected_save_half_damage
    (dc save_bonus : Z) (dmg : string) : Q :=
  ((1 # 2) + (1 # 2) * p_save_fail dc save_bonus)%Q * Dice.average_damage dmg.

End Prob.

(** ** CadenceModel *)

Module Cadence.
Import PyStr.

(** Bytes 226, 128, 147 and 226, 128, 148 are the UTF-8 encodings of the
    en dash and the em dash; [dash_to_hyphen last] replaces every
    occurrence of the sequence ending in [last] by a hyphen. *)
Fixpoint dash_to_hyphen (last : N) (s : string) : string :=
  match s with
  | EmptyString => EmptyString
  | String a s1 =>
      match s1 with
      | String b (String c s3) =>
          if ((code a =? 226) && (code b =? 128) && (code c =? last))%N
          then String "-" (dash_to_hyphen last s3)
          else String a (dash_to_hyphen last s1)
      | _ => String a (dash_to_hyphen last s1)
      end
  end.

Definition parse_recharge (text : string) : Q :=
  let t := dash_to_hyphen 148 (dash_to_hyphen 147 (strip text)) in
  if is_empty t then 0%Q
  else if contains_char "-" t then
    let '(lo_s, hi_s) := split_first "-" t in
    match int lo_s, int hi_s with
    | Some lo, Some hi =>
        let '(lo, hi) := (Z.min lo hi, Z.max lo hi) in
        let lo := Z.max 1 (Z.min 6 lo) in
        let hi := Z.max 1 (Z.min 6 hi) in
        (inject_Z (hi - lo + 1) / 6)%Q
    | _, _ => 0%Q
    end
  else
    match int t with
    | Some k =>
        let k := Z.max 2 (Z.min 6 k) in
        (inject_Z (7 - k) / 6)%Q
    | None => 0%Q
    end.

End Cadence.

(** ** Randomness and exceptions *)

Module Rand.

(** The entropy consumed by [random] and [numpy.random]: an infinite tape
    of raw naturals and the position of the next unread cell. *)
Record rng : Type := { tape : nat -> N; cursor : nat }.

Inductive exn : Type := KeyError | ValueError | IndexError.

Definition M (A : Type) : Type := rng -> exn + (A * rng).

Definition ret {A : Type} (a : A) : M A := fun g => inr (a, g).

Definition bind {A B : Type} (m : M A) (k : A -> M B) : M B :=
  fun g => match m g with
           | inl e => inl e
           | inr (a, g') => k a g'
           end.

Definition raise {A : Type} (e : exn) : M A := fun _ => inl e.

Definition draw : M N :=
  fun g => inr (tape g (cursor g), {| tape := tape g; cursor := S (cursor g) |}).

End Rand.

Declare Scope rand_scope.
Delimit Scope rand_scope with rand.
Notation "x <- m ;; k" := (Rand.bind m (fun x => k))
  (at level 100, m at next level, right associativity) : rand_scope.
Open Scope rand_scope.

Module Sampling.
Import Rand.

(** [for x in l: st = body st x]. *)
Fixpoint foldM {S X : Type} (body : S -> X -> M S) (l : list X) (st : S) : M S :=
  match l with
  | [] => ret st
  | x :: l' => st' <- body st x ;; foldM body l' st'
  end.

(** [[m for _ in range(n)]]. *)
Fixpoint replicateM {A : Type} (n : nat) (m : M A) : M (list A) :=
  match n with
  | O => ret []
  | S n' => a <- m ;; l <- replicateM n' m ;; ret (a :: l)
  end.

(** A uniform integer of the closed interval [lo .. hi]
    ([random.randint(lo, hi)], [np.random.randint(lo, hi + 1)]); an empty
    interval raises [ValueError]. *)
Definition randint (lo hi : Z) : M Z :=
  if hi <? lo then raise ValueError
  else x <- draw ;; ret (lo + Z.of_N x mod (hi - lo + 1)).

(** [np.random.binomial(n, p)]: certain outcomes when [p] is 0 or 1, any
    count of [0 .. n] otherwise. *)
Definition binomial (n : Z) (p : Q) : M Z :=
  if (n <? 0) || negb (Qle_bool 0 p) || negb (Qle_bool p 1) then raise ValueError
  else if Qle_bool 1 p then ret n
  else if Qle_bool p 0 then ret 0
  else x <- draw ;; ret (Z.of_N x mod (n + 1)).

(** [random.random()] and one cell of [np.random.rand]: a fraction of
    the half-open unit interval. *)
Definition random_unit : M Q :=
  x <- draw ;; ret (inject_Z (Z.of_N x mod 2 ^ 53) / inject_Z (2 ^ 53))%Q.

(** [np.random.gamma(k, theta)]: a positive multiple of the scale; shape
    or scale below zero raise. *)
Definition gamma (k theta : Q) : M Q :=
  if negb (Qle_bool 0 k) || negb (Qle_bool 0 theta) then raise ValueError
  else a <- draw ;; b <- draw ;;
       ret (theta * (inject_Z (Z.of_N a + 1) / inject_Z (Z.of_N b + 1)))%Q.

(** [np.random.choice(l)]: one element; an empty population raises. *)
Definition choice {A : Type} (l : list A) : M A :=
  x <- draw ;;
  match l !! (N.to_nat x mod length l)%nat with
  | Some a => ret a
  | None => raise ValueError
  end.

(** [np.random.choice(l, size=k, replace=False)]: [k] elements drawn one
    after the other without putting any back. *)
Fixpoint choice_without_replacement {A : Type} (k : nat) (l : list A) : M (list A) :=
  match k with
  | O => ret []
  | S k' =>
      x <- draw ;;
      let i := (N.to_nat x mod length l)%nat in
      match l !! i with
      | Some a => r <- choice_without_replacement k' (delete i l) ;; ret (a :: r)
      | None => raise ValueError
      end
  end.

End Sampling.

(** ** Sampled damage *)

Module Roll.
Import Rand Sampling Dice.

(** [np.zeros(n)]. *)
Definition zeros (n : nat) : list Q := replicate n 0%Q.

(** Elementwise [a + b] of two arrays of one shape. *)
Definition vadd (a b : list Q) : list Q := zip_with Qplus a b.

(** [np.sum(rolls, axis=0)] for [rolls] of shape [(num_rolls, size)]. *)
Definition column_sums (size : nat) (rolls : list (list Z)) : list Z :=
  foldr (zip_with Z.add) (replicate size 0) rolls.

Definition roll_damage (expr : string) (size : nat) : M (list Q) :=
  let '(sign, dice, mod_) := parse_damage_expression expr in
  total_roll <-
    foldM (fun total_roll '(count, sides) =>
             if (count =? 0) || (sides <=? 0) then ret total_roll
             else
               let num_rolls := Z.abs count in
               rolls <- replicateM (Z.to_nat num_rolls)
                          (replicateM size (randint 1 sides)) ;;
               ret (vadd total_roll
                      (map (fun x => inject_Z (Z.sgn count * x))
                           (column_sums size rolls))))
          dice (zeros size) ;;
  let total_roll := map (fun x => x + inject_Z mod_)%Q total_roll in
  let total_roll := map (fun x => x * inject_Z sign)%Q total_roll in
  ret (map (Qmax 0) total_roll).

(** [math.copysign(x, count)] for a non-zero integer [count]. *)
Definition copysign (x count : Z) : Z :=
  if count <? 0 then - Z.abs x else Z.abs x.

Definition roll_damage_crunchy_crit (expr : string) : M Q :=
  let '(sign, dice, mod_) := parse_damage_expression expr in
  total <-
    foldM (fun total '(count, sides) =>
             if (sides <=? 0) || (count =? 0) then ret total
             else
               let n := Z.abs count in
               let max_part := n * sides in
               rolls <- replicateM (Z.to_nat n) (randint 1 sides) ;;
               let roll_part := zsum rolls in
               ret (total + inject_Z (copysign (max_part + roll_part) count))%Q)
          dice 0%Q ;;
  let total := (total + inject_Z mod_)%Q in
  let total := (total * inject_Z sign)%Q in
  ret (Qmax 0 total).

End Roll.

(** ** Configuration records *)

Module Config.

Record Attack : Type := {
  name : string;
  kind : string;
  attack_bonus : Z;
  dc : Z;
  save_stat : string;
  damage_expr : string;
  uses_per_round : Z;
  is_melee : bool;
  enabled : bool }.

(** One row of the party table: the Name column and the integer columns
    (AC, HP and the six saves) keyed by header. *)
Record PartyRow : Type := {
  Name : string;
  ints : gmap string Z }.

(** [safe_int(row.get(k, d))]. *)
Definition get_int (row : PartyRow) (k : string) (d : Z) : Z :=
  default d (ints row !! k).

Definition SAVE_KEYS : list string :=
  ["STR"; "DEX"; "CON"; "INT"; "WIS"; "CHA"]%string.

Record Options : Type := {
  mode_select : string;
  spread_targets : Z;
  thp_expr : string;
  lair_enabled : bool;
  lair_avg : Q;
  lair_targets : Z;
  lair_every_n : Z;
  rech_enabled : bool;
  recharge_text : string;
  rech_avg : Q;
  rech_targets : Z;
  rider_mode : string;
  rider_duration : Z;
  rider_melee_only : bool;
  boss_hp : Z;
  resist_factor : Q;
  boss_regen : Q;
  mc_rounds : Z;
  mc_trials : Z;
  enc_trials : Z;
  enc_max_rounds : Z;
  enc_use_nova : bool;
  dpr_cv : Q;
  initiative_mode : string;
  tune_target_median : Q;
  tune_tpk_cap : Q }.

Definition RIDER_AC : string := "-2 AC next round".
Definition RIDER_ADV : string := "grant advantage on melee next round".

End Config.

(** ** SingleTargetSimulator *)

Module SingleTarget.
Import PyStr Rand Sampling Dice Roll Config.

(** [l[i]] for [i] produced by [range(len(l))]. *)
Definition at_index {A : Type} (l : list A) (i : nat) : M A :=
  match l !! i with
  | Some a => ret a
  | None => raise IndexError
  end.

(** [a[mask] = f(a[mask])] for a boolean mask of the shape of [a]; the
    array keeps its shape. *)
Fixpoint masked_update {A : Type} (f : A -> A) (a : list A) (mask : list bool)
    : list A :=
  match a, mask with
  | x :: a', m :: mask' => (if m then f x else x) :: masked_update f a' mask'
  | _, _ => a
  end.

(** A value stored into a NumPy array of strings created by
    [np.full(n, fill)] is cut to the width of [fill] (at least one
    character). *)
Definition store_in_str_array (fill v : string) : string :=
  substring 0 (Nat.max 1 (String.length fill)) v.

(** [(roll + bonus) >= atk.dc], the whole of the save test here. *)
Definition mc_save_succeeds (dc bonus roll : Z) : bool := dc <=? roll + bonus.

(** The [kind == "save"] branch for one trial: [h] uses resolved at once. *)
Definition save_uses (save_bonuses : gmap string Z) (atk : Attack) (h : nat)
    : M Q :=
  let bonus := default 0 (save_bonuses !! upper (save_stat atk)) in
  rolls <- replicateM h (randint 1 20) ;;
  let successes := map (mc_save_succeeds (dc atk) bonus) rolls in
  dmg_rolls <- roll_damage (damage_expr atk) h ;;
  ret (qsum (zip_with (fun (s : bool) d => if s then (1 # 2) * d else d)%Q
                      successes dmg_rolls)).

(** The attack-roll branch for one trial: one use. The state is the
    pair of the trial's round damage and its rider trigger. *)
Definition attack_use (opts : Options) (atk : Attack)
    (mode : string) (ac : Z) (st : Q * bool) : M (Q * bool) :=
  let '(round_damage_i, triggered_i) := st in
  r1 <- randint 1 20 ;;
  r2 <- randint 1 20 ;;
  let roll := r1 in
  let roll := if String.eqb mode "adv" then Z.max r1 r2 else roll in
  let roll := if String.eqb mode "dis" then Z.min r1 r2 else roll in
  let is_crit := roll =? 20 in
  let is_hit := is_crit || (negb (roll =? 1) && (ac <=? roll + attack_bonus atk)) in
  if is_hit then
    dmg <- (if is_crit then roll_damage_crunchy_crit (damage_expr atk)
            else l <- roll_damage (damage_expr atk) 1 ;; at_index l 0) ;;
    ret ((round_damage_i + dmg)%Q,
         if is_melee atk || negb (rider_melee_only opts) then true
         else triggered_i)
  else ret st.

(** The body of [for i in range(trials)] for one attack. *)
Definition trial_step (opts : Options) (save_bonuses : gmap string Z)
    (atk : Attack) (current_ac : list Z) (current_mode : list string)
    (hits_on_target : list Z)
    (st : list Q * list bool) (i : nat) : M (list Q * list bool) :=
  let '(round_damage, triggered_rider) := st in
  h <- at_index hits_on_target i ;;
  if h =? 0 then ret st
  else if String.eqb (kind atk) "save" then
    d <- save_uses save_bonuses atk (Z.to_nat h) ;;
    ret (alter (fun x => x + d)%Q i round_damage, triggered_rider)
  else
    mode <- at_index current_mode i ;;
    ac <- at_index current_ac i ;;
    rd <- at_index round_damage i ;;
    tr <- at_index triggered_rider i ;;
    r <- foldM (fun st (_ : nat) => attack_use opts atk mode ac st)
           (seq 0 (Z.to_nat h)) (rd, tr) ;;
    ret (<[i := fst r]> round_damage, <[i := snd r]> triggered_rider).

(** The body of [for atk in attacks]. *)
Definition attack_step (opts : Options) (trials : nat)
    (save_bonuses : gmap string Z)
    (current_ac : list Z) (current_mode : list string)
    (st : list Q * list bool) (atk : Attack) : M (list Q * list bool) :=
  if uses_per_round atk <=? 0 then ret st
  else
    hits_on_target <-
      replicateM trials
        (binomial (uses_per_round atk)
           (1 / inject_Z (Z.max 1 (spread_targets opts)))%Q) ;;
    foldM (trial_step opts save_bonuses atk current_ac current_mode hits_on_target)
          (seq 0 trials) st.

(** The body of [for _ in range(rounds)]; the state is
    [(total_damage, rider_remaining)]. *)
Definition round_step (opts : Options) (trials : nat) (ac : Z)
    (save_bonuses : gmap string Z) (thp_avg : Q) (attacks : list Attack)
    (st : list Q * list Z) (_ : nat) : M (list Q * list Z) :=
  let '(total_damage, rider_remaining) := st in
  let round_damage := zeros trials in
  let triggered_rider := replicate trials false in
  let current_ac := replicate trials ac in
  let current_mode := replicate trials (mode_select opts) in
  let active := map (fun r => 0 <? r) rider_remaining in
  let current_ac :=
    if String.eqb (rider_mode opts) RIDER_AC
    then masked_update (fun a => a - 2) current_ac active else current_ac in
  let current_mode :=
    if String.eqb (rider_mode opts) RIDER_ADV
    then masked_update (fun _ => store_in_str_array (mode_select opts) "adv")
           current_mode active
    else current_mode in
  r <- foldM (attack_step opts trials save_bonuses current_ac current_mode)
         attacks (round_damage, triggered_rider) ;;
  let '(round_damage, triggered_rider) := r in
  let total_damage :=
    vadd total_damage (map (fun d => Qmax 0 (d - thp_avg)) round_damage) in
  let rider_remaining := map (fun r => r - 1) rider_remaining in
  let rider_remaining :=
    masked_update (fun _ => rider_duration opts) rider_remaining triggered_rider in
  let rider_remaining := map (Z.max 0) rider_remaining in
  ret (total_damage, rider_remaining).

(** [np.zeros] refuses a negative size; [range] of a negative count is
    empty. *)
Definition _run_mc_sim (pc_row : PartyRow) (attacks : list Attack)
    (opts : Options) : M (list Q) :=
  let trials := Z.to_nat (mc_trials opts) in
  let rounds := Z.to_nat (mc_rounds opts) in
  let ac := get_int pc_row "AC" 10 in
  let save_bonuses : gmap string Z :=
    list_to_map (map (fun k => (k, get_int pc_row k 0)) SAVE_KEYS) in
  let thp_avg := average_damage (thp_expr opts) in
  if mc_trials opts <? 0 then raise ValueError
  else
    r <- foldM (round_step opts trials ac save_bonuses thp_avg attacks)
           (seq 0 rounds) (zeros trials, replicate trials 0) ;;
    ret (fst r).

End SingleTarget.

(** ** EncounterSimulator *)

Module Encounter.
Import PyStr Rand Sampling Dice Prob Cadence Roll Config SingleTarget.

Record DprRow : Type := { dpr_Member : string; DPR : Q }.

Record NovaRow : Type := {
  nova_Member : string;
  Nova_DPR : Q;
  Atk_Bonus : Z;
  Roll_Mode : string;
  Target_AC : Z;
  Crit_Ratio : Q;
  Uptime : Q }.

Record AppState : Type := {
  party_table : list PartyRow;
  attacks_table : list Attack;
  party_dpr_table : list DprRow;
  party_nova_table : list NovaRow;
  options : Options }.

Definition attacks_enabled_from_table (tbl : list Attack) : list Attack :=
  map (fun row =>
         {| name := name row;
            kind := lower (strip (kind row));
            attack_bonus := attack_bonus row;
            dc := dc row;
            save_stat := upper (save_stat row);
            damage_expr := damage_expr row;
            uses_per_round := Z.max 0 (uses_per_round row);
            is_melee := is_melee row;
            enabled := enabled row |})
      (List.filter enabled tbl).

Definition _eff_party_dprs (st : AppState) (use_nova : bool) : list (string * Q) :=
  if use_nova then
    map (fun r =>
           let '(p_non, p_crit, _) :=
             hit_probs (Target_AC r) (Atk_Bonus r) (Roll_Mode r) in
           let factor := ((p_non + Crit_Ratio r * p_crit) * Uptime r)%Q in
           (nova_Member r, (Nova_DPR r * factor)%Q))
        (party_nova_table st)
  else map (fun r => (dpr_Member r, DPR r)) (party_dpr_table st).

Definition _gamma_rng (mean cv : Q) : M Q :=
  let mean := Qmax 0 mean in
  let cv := Qmax (1 # 1000000) cv in
  if Qle_bool mean 0 then ret 0%Q
  else
    let k := (1 / (cv * cv))%Q in
    let theta := (mean / k)%Q in
    gamma k theta.

(** The per-trial arrays of one run; a time-to-kill of [None] is the
    float infinity of a boss that has not fallen. *)
Record EncState : Type := {
  boss_hp_t : list Q;
  pcs_hp : list (list Q);
  pcs_alive : list (list bool);
  rider_rem : list (list Z);
  ttk : list (option Z);
  tpk_flags : list bool;
  pcs_down_at_victory : list Z }.

Record Metrics : Type := {
  m_ttk : list (option Z);
  m_tpk_prob : Q;
  m_pcs_down_at_victory : list Z;
  m_times : list Z;
  m_survival_curve : list Q }.

(** [~np.isfinite(ttk)]. *)
Definition ongoing_of (ttk : list (option Z)) : list bool :=
  map (fun x => match x with None => true | Some _ => false end) ttk.

(** [mask.any()]. *)
Definition any (mask : list bool) : bool := existsb id mask.

(** [np.where(mask)[0]]. *)
Fixpoint where_from (i : nat) (mask : list bool) : list nat :=
  match mask with
  | [] => []
  | b :: mask' =>
      if b then i :: where_from (S i) mask' else where_from (S i) mask'
  end.

Definition where_ (mask : list bool) : list nat := where_from 0 mask.

(** [m[:, j]] for [m] of shape [(trials, P)] and [j < P]. *)
Definition column {A : Type} (d : A) (j : nat) (m : list (list A)) : list A :=
  map (fun row => nth j row d) m.

(** [v[mask] += draws], the draws meeting the selected cells in order. *)
Fixpoint scatter_add (v : list Q) (mask : list bool) (draws : list Q) : list Q :=
  match v, mask with
  | x :: v', true :: mask' =>
      match draws with
      | d :: draws' => (x + d)%Q :: scatter_add v' mask' draws'
      | [] => x :: scatter_add v' mask' []
      end
  | x :: v', false :: mask' => x :: scatter_add v' mask' draws
  | _, _ => v
  end.

Definition count_true (mask : list bool) : nat := length (List.filter id mask).

(** [np.mean(mask)] of a non-empty boolean array. *)
Definition mean_bool (mask : list bool) : Q :=
  (inject_Z (Z.of_nat (count_true mask)) / inject_Z (Z.of_nat (length mask)))%Q.

Definition boss_goes_first (init_mode : string) (n : nat) : M (list bool) :=
  if String.eqb init_mode "boss_first" then ret (replicate n true)
  else if String.eqb init_mode "party_first" then ret (replicate n false)
  else
    r <- replicateM n random_unit ;;
    ret (map (fun x => negb (Qle_bool (1 # 2) x)) r).

(** The party's turn on the trials selected by [mask]. *)
Definition party_phase (P : nat) (eff_means : list Q) (dpr_cv resist regen : Q)
    (rnd : Z) (mask : list bool) (st : EncState) : M EncState :=
  let trials := length mask in
  dmg_party <-
    foldM (fun dmg_party j =>
             let alive_mask := zip_with andb mask (column false j (pcs_alive st)) in
             if negb (any alive_mask) then ret dmg_party
             else
               means <- at_index eff_means j ;;
               draws <- replicateM (count_true alive_mask) (_gamma_rng means dpr_cv) ;;
               ret (scatter_add dmg_party alive_mask draws))
          (seq 0 P) (zeros trials) ;;
  let dmg_party :=
    map (fun d => Qmax 0 (d / Qmax (1 # 1000000) resist - regen)) dmg_party in
  let boss_hp :=
    zip_with (fun '(hp, d) (m : bool) => if m then (hp - d)%Q else hp)
             (zip (boss_hp_t st) dmg_party) mask in
  let newly_dead :=
    zip_with andb
      (zip_with andb (map (fun hp => Qle_bool hp 0) boss_hp) mask)
      (ongoing_of (ttk st)) in
  let ttk' := masked_update (fun _ => Some rnd) (ttk st) newly_dead in
  let downs :=
    map (fun row => Z.of_nat (count_true (map negb row))) (pcs_alive st) in
  let pcs_down :=
    zip_with (fun '(old, new) (m : bool) => if m then new else old)
             (zip (pcs_down_at_victory st) downs) newly_dead in
  ret {| boss_hp_t := boss_hp; pcs_hp := pcs_hp st; pcs_alive := pcs_alive st;
         rider_rem := rider_rem st; ttk := ttk';
         tpk_flags := tpk_flags st; pcs_down_at_victory := pcs_down |}.

(** The armour class each attack roll of this round is compared with:
    [np.tile(pc_AC, (trials, 1))], lowered under an active AC rider. *)
Definition boss_current_ac (o : Options) (trials : nat) (pc_AC : list Z)
    (rider_rem : list (list Z)) : list (list Z) :=
  let current_ac := replicate trials pc_AC in
  if String.eqb (rider_mode o) RIDER_AC
  then zip_with (zip_with (fun a r => if 0 <? r then Z.max 1 (a - 2) else a))
         current_ac rider_rem
  else current_ac.

Definition boss_current_mode (o : Options) (trials P : nat)
    (rider_rem : list (list Z)) : list (list string) :=
  let current_mode := replicate trials (replicate P (mode_select o)) in
  if String.eqb (rider_mode o) RIDER_ADV
  then zip_with (zip_with (fun m r => if 0 <? r then "adv"%string else m))
         current_mode rider_rem
  else current_mode.

(** What the boss's turn changes before it is folded back into the run. *)
Record BossSt : Type := {
  b_hp : list (list Q);
  b_alive : list (list bool);
  b_trig : list (list bool) }.

Definition at_index2 {A : Type} (m : list (list A)) (t j : nat) : M A :=
  row <- at_index m t ;; at_index row j.

(** [pcs_hp[t, idx] -= dealt], then the death mark. *)
Definition apply_damage (t idx : nat) (dealt : Q) (st : BossSt) : M BossSt :=
  let hp := alter (alter (fun h => h - dealt)%Q idx) t (b_hp st) in
  h <- at_index2 hp t idx ;;
  a <- at_index2 (b_alive st) t idx ;;
  let alive :=
    if Qle_bool h 0 && a then alter (<[idx := false]>) t (b_alive st)
    else b_alive st in
  ret {| b_hp := hp; b_alive := alive; b_trig := b_trig st |}.

(** One use of one attack in trial [t]. *)
Definition use_step (o : Options) (thp_avg : Q) (pc_saves : list (list Z))
    (save_index : gmap string nat)
    (current_ac : list (list Z)) (current_mode : list (list string))
    (round_pool : list (option (list nat))) (atk : Attack)
    (st : BossSt) (t : nat) : M BossSt :=
  pool <- at_index round_pool t ;;
  match pool with
  | None => ret st
  | Some pool =>
      if (length pool =? 0)%nat then ret st
      else
        alive_t <- at_index (b_alive st) t ;;
        let alive_pool := List.filter (fun idx => nth idx alive_t false) pool in
        let alive_now := where_ alive_t in
        if (length alive_pool =? 0)%nat && (length alive_now =? 0)%nat then ret st
        else
          let alive_pool :=
            if (length alive_pool =? 0)%nat then alive_now else alive_pool in
          target <- choice alive_pool ;;
          a <- at_index2 (b_alive st) t target ;;
          if negb a then ret st
          else
            r <-
              (if String.eqb (kind atk) "save" then
                 match save_index !! upper (save_stat atk) with
                 | None => raise KeyError
                 | Some si =>
                     bonus <- at_index2 pc_saves target si ;;
                     roll <- randint 1 20 ;;
                     let success :=
                       (roll =? 20)
                       || ((dc atk <=? roll + bonus) && negb (roll =? 1)) in
                     l <- roll_damage (damage_expr atk) 1 ;;
                     dmg <- at_index l 0 ;;
                     ret (if success then ((1 # 2) * dmg)%Q else dmg, b_trig st)
                 end
               else
                 r1 <- randint 1 20 ;;
                 r2 <- randint 1 20 ;;
                 mode <- at_index2 current_mode t target ;;
                 let r := r1 in
                 let r := if String.eqb mode "adv" then Z.max r1 r2 else r in
                 let r := if String.eqb mode "dis" then Z.min r1 r2 else r in
                 let is_crit := r =? 20 in
                 ac <- at_index2 current_ac t target ;;
                 let is_hit :=
                   is_crit || (negb (r =? 1) && (ac <=? r + attack_bonus atk)) in
                 if negb is_hit then ret (0%Q, b_trig st)
                 else
                   dealt <-
                     (if is_crit then roll_damage_crunchy_crit (damage_expr atk)
                      else l <- roll_damage (damage_expr atk) 1 ;; at_index l 0) ;;
                   ret (dealt,
                        if is_melee atk || negb (rider_melee_only o)
                        then alter (<[target := true]>) t (b_trig st)
                        else b_trig st)) ;;
            let dealt := Qmax 0 (fst r - thp_avg) in
            apply_damage t target dealt
              {| b_hp := b_hp st; b_alive := b_alive st; b_trig := snd r |}
  end.

(** Lair and recharge damage in trial [t]: up to [n] living members,
    each hit for a Gamma draw of mean [avg]. *)
Definition area_damage (thp_avg avg : Q) (n : Z) (st : BossSt) (t : nat)
    : M BossSt :=
  alive_t <- at_index (b_alive st) t ;;
  let alive_idxs := where_ alive_t in
  if (length alive_idxs =? 0)%nat then ret st
  else
    let choose := Z.min n (Z.of_nat (length alive_idxs)) in
    if choose <? 0 then raise ValueError
    else
      targets <- choice_without_replacement (Z.to_nat choose) alive_idxs ;;
      foldM (fun st idx =>
               dealt <- _gamma_rng avg (1 # 2) ;;
               let dealt := Qmax 0 (dealt - thp_avg) in
               apply_damage t idx dealt st)
            targets st.

(** The boss's turn: attacks, lair action, recharge power, riders and
    the wipe flags. *)
Definition boss_phase (o : Options) (P : nat) (attacks : list Attack)
    (thp_avg : Q) (spread_targets : Z)
    (pc_AC : list Z) (pc_saves : list (list Z)) (save_index : gmap string nat)
    (rnd : Z) (st : EncState) : M EncState :=
  let ongoing := ongoing_of (ttk st) in
  let trials := length ongoing in
  let current_ac := boss_current_ac o trials pc_AC (rider_rem st) in
  let current_mode := boss_current_mode o trials P (rider_rem st) in
  let rider_trig := replicate trials (replicate P false) in
  round_pool <-
    foldM (fun round_pool t =>
             alive_t <- at_index (pcs_alive st) t ;;
             let alive := where_ alive_t in
             if (length alive =? 0)%nat then ret round_pool
             else
               let k := Z.min spread_targets (Z.of_nat (length alive)) in
               pool <- choice_without_replacement (Z.to_nat k) alive ;;
               ret (<[t := Some pool]> round_pool))
          (where_ ongoing) (replicate trials None) ;;
  b <-
    foldM (fun b atk =>
             if uses_per_round atk <=? 0 then ret b
             else
               foldM (fun b (_ : nat) =>
                        foldM (use_step o thp_avg pc_saves save_index
                                 current_ac current_mode round_pool atk)
                              (where_ ongoing) b)
                     (seq 0 (Z.to_nat (uses_per_round atk))) b)
          attacks
          {| b_hp := pcs_hp st; b_alive := pcs_alive st; b_trig := rider_trig |} ;;
  b <-
    (if lair_enabled o && (rnd mod Z.max 1 (lair_every_n o) =? 0)
     then foldM (area_damage thp_avg (lair_avg o) (lair_targets o))
                (where_ ongoing) b
     else ret b) ;;
  b <-
    (if rech_enabled o then
       let p_rech := parse_recharge (recharge_text o) in
       foldM (fun b t =>
                u <- random_unit ;;
                if negb (Qle_bool p_rech u)
                then area_damage thp_avg (rech_avg o) (rech_targets o) b t
                else ret b)
             (where_ ongoing) b
     else ret b) ;;
  let rider_rem' := map (map (fun r => Z.max 0 (r - 1))) (rider_rem st) in
  let rider_rem' :=
    zip_with (masked_update (fun _ => rider_duration o)) rider_rem' (b_trig b) in
  let none_alive := map (fun row => (count_true row =? 0)%nat) (b_alive b) in
  let new_tpk := zip_with andb ongoing none_alive in
  let tpk_flags' := masked_update (fun _ => true) (tpk_flags st) new_tpk in
  ret {| boss_hp_t := boss_hp_t st; pcs_hp := b_hp b; pcs_alive := b_alive b;
         rider_rem := rider_rem'; ttk := ttk st;
         tpk_flags := tpk_flags'; pcs_down_at_victory := pcs_down_at_victory st |}.

(** A [for] loop whose body may [break] before changing anything:
    [None] is the break. *)
Fixpoint forM_break {S X : Type} (body : S -> X -> M (option S))
    (l : list X) (st : S) : M S :=
  match l with
  | [] => ret st
  | x :: l' =>
      r <- body st x ;;
      match r with
      | None => ret st
      | Some st' => forM_break body l' st'
      end
  end.

(** The body of [for rnd in range(1, max_rounds + 1)]. *)
Definition round_step (o : Options) (trials P : nat) (attacks : list Attack)
    (eff_means : list Q) (dpr_cv resist regen thp_avg : Q) (spread_targets : Z)
    (init_mode : string)
    (pc_AC : list Z) (pc_saves : list (list Z)) (save_index : gmap string nat)
    (st : EncState) (rnd : Z) : M (option EncState) :=
  let ongoing := ongoing_of (ttk st) in
  if negb (any ongoing) then ret None
  else
    boss_first_flags <- boss_goes_first init_mode trials ;;
    let mask_party_first := zip_with andb ongoing (map negb boss_first_flags) in
    st <- (if any mask_party_first
           then party_phase P eff_means dpr_cv resist regen rnd mask_party_first st
           else ret st) ;;
    let ongoing := ongoing_of (ttk st) in
    st <- (if any ongoing
           then boss_phase o P attacks thp_avg spread_targets
                  pc_AC pc_saves save_index rnd st
           else ret st) ;;
    let ongoing := ongoing_of (ttk st) in
    let mask_party_after := zip_with andb ongoing boss_first_flags in
    st <- (if any mask_party_after
           then party_phase P eff_means dpr_cv resist regen rnd mask_party_after st
           else ret st) ;;
    ret (Some st).

(** [ttk > t] for one cell. *)
Definition ttk_gt (t : Z) (x : option Z) : bool :=
  match x with None => true | Some r => t <? r end.

Definition is_nil {A : Type} (l : list A) : bool :=
  match l with [] => true | _ => false end.

(** The metrics of a run, or [None] where the source shows a warning and
    returns nothing. *)
Definition _run_encounter_mc (app : AppState) : M (option Metrics) :=
  let o := options app in
  let party := party_table app in
  if is_nil party then ret None
  else
    let attacks := attacks_enabled_from_table (attacks_table app) in
    if is_nil attacks && negb (lair_enabled o || rech_enabled o) then ret None
    else
      let trials := enc_trials o in
      let max_rounds := enc_max_rounds o in
      let resist := resist_factor o in
      let regen := boss_regen o in
      let thp_avg := Qmax 0 (average_damage (thp_expr o)) in
      let spread_targets := Z.max 1 (spread_targets o) in
      let init_mode := initiative_mode o in
      let use_nova := enc_use_nova o in
      let dpr_cv := dpr_cv o in
      let eff_list := _eff_party_dprs app use_nova in
      if is_nil eff_list then ret None
      else
        let party_names := map Name party in
        let P := length party_names in
        let eff_by_name : gmap string Q := list_to_map (rev eff_list) in
        let eff_means := map (fun nm => default 0%Q (eff_by_name !! nm)) party_names in
        let boss_hp0 := inject_Z (boss_hp o) in
        if trials <? 0 then raise ValueError
        else
          let n := Z.to_nat trials in
          let pc_AC := map (fun pc => get_int pc "AC" 10) party in
          let pc_saves :=
            map (fun pc => map (fun k => get_int pc k 0) SAVE_KEYS) party in
          let save_index : gmap string nat :=
            list_to_map (zip SAVE_KEYS (seq 0 (length SAVE_KEYS))) in
          let st0 :=
            {| boss_hp_t := replicate n boss_hp0;
               pcs_hp := replicate n (map (fun pc => inject_Z (get_int pc "HP" 1)) party);
               pcs_alive := replicate n (replicate P true);
               rider_rem := replicate n (replicate P 0);
               ttk := replicate n None;
               tpk_flags := replicate n false;
               pcs_down_at_victory := replicate n 0 |} in
          st <- forM_break
                  (round_step o n P attacks eff_means dpr_cv resist regen thp_avg
                     spread_targets init_mode pc_AC pc_saves save_index)
                  (range 1 (max_rounds + 1)) st0 ;;
          let times := range 0 (max_rounds + 1) in
          let surv := map (fun t => mean_bool (map (ttk_gt t) (ttk st))) times in
          ret (Some
                 {| m_ttk := ttk st;
                    m_tpk_prob := mean_bool (tpk_flags st);
                    m_pcs_down_at_victory :=
                      map snd
                        (List.filter (fun x => negb (fst x))
                           (zip (ongoing_of (ttk st)) (pcs_down_at_victory st)));
                    m_times := times;
                    m_survival_curve := surv |}).

End Encounter.


(** ** AutoTuner *)

Module AutoTune.
Import Rand Sampling Config Encounter.

(** Python's [round(x)] of a float: the nearest integer, ties to even. *)
Definition round_half_even (x : Q) : Z :=
  let f := Qfloor x in
  match (x - inject_Z f ?= 1 # 2)%Q with
  | Lt => f
  | Gt => f + 1
  | Eq => if Z.even f then f else f + 1
  end.

(** [math.ceil(x)]. *)
Definition ceiling (x : Q) : Z := Qceiling x.

Fixpoint insert_sorted (x : Z) (l : list Z) : list Z :=
  match l with
  | [] => [x]
  | y :: l' => if x <=? y then x :: l else y :: insert_sorted x l'
  end.

Definition sorted (l : list Z) : list Z := foldr insert_sorted [] l.

(** [np.median] of a non-empty array of whole numbers. *)
Definition median (l : list Z) : Q :=
  let s := sorted l in
  let n := length s in
  if Nat.even n
  then ((inject_Z (nth (n / 2 - 1)%nat s 0%Z)
         + inject_Z (nth (n / 2)%nat s 0%Z)) / 2)%Q
  else inject_Z (nth (n / 2)%nat s 0%Z).

(** [ttk[np.isfinite(ttk)]]. *)
Definition finite (ttk : list (option Z)) : list Z := omap id ttk.

(** A median that may be [math.inf] ([None]). *)
Definition emed : Type := option Q.

Definition elt (a : emed) (t : Q) : bool :=       (* a < t *)
  match a with Some x => negb (Qle_bool t x) | None => false end.
Definition egt (a : emed) (t : Q) : bool :=       (* a > t *)
  match a with Some x => negb (Qle_bool x t) | None => true end.
Definition ele (a : emed) (t : Q) : bool := negb (egt a t).   (* a <= t *)
Definition ege (a : emed) (t : Q) : bool := negb (elt a t).   (* a >= t *)
Definition eclose (a : emed) (t eps : Q) : bool :=            (* |a - t| < eps *)
  match a with
  | Some x => negb (Qle_bool eps (Qabs (x - t)))
  | None => false
  end.

(** [o["boss_hp"] = hp; o["enc_trials"] = trials] on the shared options. *)
Definition set_hp_trials (app : AppState) (hp trials : Z) : AppState :=
  let o := options app in
  {| party_table := party_table app;
     attacks_table := attacks_table app;
     party_dpr_table := party_dpr_table app;
     party_nova_table := party_nova_table app;
     options :=
       {| mode_select := mode_select o; spread_targets := spread_targets o;
          thp_expr := thp_expr o; lair_enabled := lair_enabled o;
          lair_avg := lair_avg o; lair_targets := lair_targets o;
          lair_every_n := lair_every_n o; rech_enabled := rech_enabled o;
          recharge_text := recharge_text o; rech_avg := rech_avg o;
          rech_targets := rech_targets o; rider_mode := rider_mode o;
          rider_duration := rider_duration o;
          rider_melee_only := rider_melee_only o;
          boss_hp := hp; resist_factor := resist_factor o;
          boss_regen := boss_regen o; mc_rounds := mc_rounds o;
          mc_trials := mc_trials o; enc_trials := trials;
          enc_max_rounds := enc_max_rounds o; enc_use_nova := enc_use_nova o;
          dpr_cv := dpr_cv o; initiative_mode := initiative_mode o;
          tune_target_median := tune_target_median o;
          tune_tpk_cap := tune_tpk_cap o |} |}.

(** [(median TTK, wipe probability)] of the metrics of one run. *)
Definition summary (metrics : option Metrics) : emed * Q :=
  match metrics with
  | None => (None, 1%Q)
  | Some m =>
      let ttk_alive := finite (m_ttk m) in
      if is_nil ttk_alive then (None, m_tpk_prob m)
      else (Some (median ttk_alive), m_tpk_prob m)
  end.

Definition simulate_with_hp (app : AppState) (hp : Q) (trials : Z)
    : M (AppState * (emed * Q)) :=
  let app := set_hp_trials app (Z.max 1 (round_half_even hp)) trials in
  metrics <- _run_encounter_mc app ;;
  ret (app, summary metrics).

(** [while med_high < target and attempts < 12], [fuel] being the
    attempts left. *)
Fixpoint escalate (fuel : nat) (target : Q) (quick_trials : Z)
    (app : AppState) (high : Q) (med_high : emed) : M (AppState * Q * emed) :=
  match fuel with
  | O => ret (app, high, med_high)
  | S fuel' =>
      if elt med_high target then
        let high := (high * 2)%Q in
        r <- simulate_with_hp app high quick_trials ;;
        escalate fuel' target quick_trials (fst r) high (fst (snd r))
      else ret (app, high, med_high)
  end.

Record Bracket : Type := {
  br_app : AppState;
  br_low : Q;
  br_high : Q;
  br_med_low : emed;
  br_med_high : emed }.

Definition quick_trials_of (original_trials : Z) : Z :=
  Z.max 3000 (Qfloor (inject_Z original_trials * (4 # 10))).

(** The bracket search: both ends simulated, the high end doubled, the
    low end simulated again when it overshoots. *)
Definition bracket_search (app : AppState) : M Bracket :=
  let o := options app in
  let target := tune_target_median o in
  let original_hp := inject_Z (boss_hp o) in
  let quick_trials := quick_trials_of (enc_trials o) in
  let low := 1%Q in
  let high := Qmax 10 original_hp in
  r <- simulate_with_hp app low quick_trials ;;
  let app := fst r in let med_low := fst (snd r) in
  r <- simulate_with_hp app high quick_trials ;;
  let app := fst r in let med_high := fst (snd r) in
  r <- escalate 12 target quick_trials app high med_high ;;
  let '(app, high, med_high) := r in
  if egt med_low target then
    let low := 1%Q in
    r <- simulate_with_hp app low quick_trials ;;
    ret {| br_app := fst r; br_low := low; br_high := high;
           br_med_low := fst (snd r); br_med_high := med_high |}
  else
    ret {| br_app := app; br_low := low; br_high := high;
           br_med_low := med_low; br_med_high := med_high |}.

(** [med_low <= target <= med_high]. *)
Definition bracketed (b : Bracket) (target : Q) : bool :=
  ele (br_med_low b) target && ege (br_med_high b) target.

(** [for _ in range(16)] with its [break]; the medians kept beside the
    two ends in the source are never read again and are left out. *)
Fixpoint bisection (n : nat) (target : Q) (quick_trials : Z)
    (app : AppState) (low high : Q) : M (AppState * Q * Q) :=
  match n with
  | O => ret (app, low, high)
  | S n' =>
      let mid := ((1 # 2) * (low + high))%Q in
      r <- simulate_with_hp app mid quick_trials ;;
      let app := fst r in let med_mid := fst (snd r) in
      let '(low, high) := if ege med_mid target then (low, mid) else (mid, high) in
      if eclose med_mid target (5 # 100) then ret (app, low, high)
      else bisection n' target quick_trials app low high
  end.

Inductive TuneOutcome : Type :=
| Infeasible                       (* the bracket warning *)
| SimulationFailed                 (* the final run returned nothing *)
| Tuned (tuned_hp : Z) (med : emed) (tpk : Q) (cap_not_met : bool).

(** What is reported after the final run, and the options left behind. *)
Definition final_report (app : AppState) (tuned_hp : Z) (original_hp : Q)
    (original_trials : Z) (tpk_cap : Q) (metrics : option Metrics)
    : TuneOutcome * AppState :=
  match metrics with
  | None =>
      (SimulationFailed,
       set_hp_trials app (Qfloor original_hp) original_trials)
  | Some m =>
      let ttk_alive := finite (m_ttk m) in
      let med := if is_nil ttk_alive then None else Some (median ttk_alive) in
      let tpk := m_tpk_prob m in
      (Tuned tuned_hp med tpk
         (negb (Qle_bool tpk (tpk_cap + (1 # 1000000000)))),
       set_hp_trials app tuned_hp original_trials)
  end.

(** The final run at the full trial count. *)
Definition final_simulation (app : AppState) (high : Q)
    (original_hp : Q) (original_trials : Z) (tpk_cap : Q)
    : M (TuneOutcome * AppState) :=
  let tuned_hp := round_half_even high in
  let app := set_hp_trials app tuned_hp original_trials in
  metrics <- _run_encounter_mc app ;;
  ret (final_report app tuned_hp original_hp original_trials tpk_cap metrics).

(** The tuner after the widgets have been read into the options and up
    to the closing refresh of the charts. *)
Definition _on_auto_tune (app : AppState) : M (TuneOutcome * AppState) :=
  let o := options app in
  let target := tune_target_median o in
  let tpk_cap := tune_tpk_cap o in
  let original_hp := inject_Z (boss_hp o) in
  let original_trials := enc_trials o in
  let quick_trials := quick_trials_of original_trials in
  b <- bracket_search app ;;
  if negb (bracketed b target) then
    ret (Infeasible,
         set_hp_trials (br_app b) (Qfloor original_hp) original_trials)
  else
    r <- bisection 16 target quick_trials (br_app b) (br_low b) (br_high b) ;;
    let '(app, _, high) := r in
    final_simulation app high original_hp original_trials tpk_cap.

End AutoTune.

(** ** DeterministicEstimator and time-to-defeat *)

Module Deterministic.
Import PyStr Dice Prob Cadence Config Encounter AutoTune.

(** [safe_int(row.get(stat.upper()))]: a missing column counts 0. *)
Definition get_save_bonus (row : PartyRow) (stat : string) : Z :=
  get_int row (upper stat) 0.

Definition per_round_dpr_vs_pc (pc_row : PartyRow) (mode : string)
    (attacks_enabled : list Attack) : Q :=
  let ac := get_int pc_row "AC" 10 in
  fold_left
    (fun total_dpr atk =>
       if uses_per_round atk <=? 0 then total_dpr
       else
         let dpr :=
           if String.eqb (kind atk) "save"
           then expected_save_half_damage (dc atk)
                  (get_save_bonus pc_row (save_stat atk)) (damage_expr atk)
           else expected_attack_damage ac (attack_bonus atk) (damage_expr atk) mode in
         (total_dpr + dpr * inject_Z (uses_per_round atk))%Q)
    attacks_enabled 0%Q.

Definition lair_per_target_dpr (o : Options) (party_size : Z) : Q :=
  if negb (lair_enabled o) || (party_size <=? 0) then 0%Q
  else
    let p_hit := Qmin 1 (inject_Z (lair_targets o) / inject_Z party_size) in
    let cadence := Z.max 1 (lair_every_n o) in
    (lair_avg o * p_hit / inject_Z cadence)%Q.

Definition recharge_per_target_dpr (o : Options) (party_size : Z) : Q :=
  if negb (rech_enabled o) || (party_size <=? 0) then 0%Q
  else
    let recharge_prob := parse_recharge (recharge_text o) in
    let p_hit := Qmin 1 (inject_Z (rech_targets o) / inject_Z party_size) in
    (recharge_prob * rech_avg o * p_hit)%Q.







End Deterministic.

(** ** Profiles *)

Module Profile.

(** A value of a profile as Python holds it after [json.loads]. *)
#[warnings="-register-all"]
Inductive Value : Type :=
| VNone
| VBool (b : bool)
| VInt (n : Z)
| VFloat (x : Q)
| VStr (s : string)
| VList (l : list Value)
| VDict (d : list (string * Value)).

(** [bool(v)], the test behind [v or default]. *)
Definition truthy (v : Value) : bool :=
  match v with
  | VNone => false
  | VBool b => b
  | VInt n => negb (n =? 0)
  | VFloat x => negb (Qeq_bool x 0)
  | VStr s => negb (PyStr.is_empty s)
  | VList l => negb (Encounter.is_nil l)
  | VDict d => negb (Encounter.is_nil d)
  end.

Definition DEFAULT_OPTIONS : gmap string Value :=
  list_to_map
    [("mode_select", VStr "normal"); ("spread_targets", VInt 1);
     ("thp_expr", VStr "1d6+4");
     ("lair_enabled", VBool false); ("lair_avg", VFloat 6);
     ("lair_targets", VInt 2); ("lair_every_n", VInt 2);
     ("rech_enabled", VBool false); ("recharge_text", VStr "5-6");
     ("rech_avg", VFloat 22); ("rech_targets", VInt 1);
     ("rider_mode", VStr "none"); ("rider_duration", VInt 1);
     ("rider_melee_only", VBool true);
     ("boss_hp", VInt 150); ("resist_factor", VFloat 1); ("boss_regen", VFloat 0);
     ("mc_rounds", VInt 3); ("mc_trials", VInt 10000); ("mc_show_hist", VBool true);
     ("enc_trials", VInt 10000); ("enc_max_rounds", VInt 12);
     ("enc_use_nova", VBool false);
     ("dpr_cv", VFloat (6 # 10)); ("initiative_mode", VStr "random");
     ("tune_target_median", VFloat 4); ("tune_tpk_cap", VFloat (5 # 100))]%string.

(** The state as the profile functions see it: they pass the four tables
    on whatever these hold. *)
Record AppState : Type := {
  party_table : Value;
  attacks_table : Value;
  party_dpr_table : Value;
  party_nova_table : Value;
  options : gmap string Value }.

(** The dictionary display lists the four tables first and the options
    after them, so that an option of the same name would win. *)
Definition to_profile_dict (self : AppState) : gmap string Value :=
  options self
  ∪ list_to_map
      [("party_table", party_table self); ("attacks_table", attacks_table self);
       ("party_dpr_table", party_dpr_table self);
       ("party_nova_table", party_nova_table self)]%string.

Definition pc (nm : string) (ac hp str dex con int wis cha : Z) : Value :=
  VDict [("Name", VStr nm); ("AC", VInt ac); ("HP", VInt hp);
         ("STR", VInt str); ("DEX", VInt dex); ("CON", VInt con);
         ("INT", VInt int); ("WIS", VInt wis); ("CHA", VInt cha)]%string.

Definition attack_row (nm ty : string) (bonus dc : Z) (save dmg : string)
    (uses : Z) (melee : bool) : Value :=
  VDict [("Name", VStr nm); ("Type", VStr ty); ("Attack bonus", VInt bonus);
         ("DC", VInt dc); ("Save", VStr save); ("Damage", VStr dmg);
         ("Uses/round", VInt uses); ("Melee?", VBool melee);
         ("Enabled?", VBool true)]%string.

Definition default_party : Value :=
  VList [pc "Fighter" 18 40 4 2 3 0 1 0; pc "Rogue" 16 35 0 5 2 1 2 1;
         pc "Cleric" 19 38 3 0 3 1 4 2; pc "Wizard" 13 30 0 3 2 5 2 1].

Definition default_attacks : Value :=
  VList [attack_row "Bite" "attack" 7 0 "DEX" "2d10+5" 1 true;
         attack_row "Claw" "attack" 7 0 "DEX" "2d6+5" 2 true;
         attack_row "Fire Breath" "save" 0 15 "DEX" "8d6" 1 false].

Definition default_dpr : Value :=
  VList [VDict [("Member", VStr "Fighter"); ("DPR", VFloat 15)]%string].

Definition default_nova : Value :=
  VList [VDict [("Member", VStr "Fighter"); ("Nova DPR", VFloat 25);
                ("Atk Bonus", VInt 8); ("Roll Mode", VStr "normal");
                ("Target AC", VInt 17); ("Crit Ratio", VFloat (3 # 2));
                ("Uptime", VFloat (9 # 10))]%string].

(** [d.get(k) or fallback]. *)
Definition get_or (d : gmap string Value) (k : string) (fallback : Value) : Value :=
  match d !! k with
  | Some v => if truthy v then v else fallback
  | None => fallback
  end.

(** [from_profile_dict(d)]; [None] is a [d] that is [None]. *)
Definition from_profile_dict (d : option (gmap string Value)) : AppState :=
  let d := match d with Some d => d | None => ∅ end in
  let party := get_or d "party_table" default_party in
  let attacks := get_or d "attacks_table" default_attacks in
  let dpr := get_or d "party_dpr_table" default_dpr in
  let nova := get_or d "party_nova_table" default_nova in
  let opts := map_imap (fun k v => Some (default v (d !! k))) DEFAULT_OPTIONS in
  {| party_table := party; attacks_table := attacks; party_dpr_table := dpr;
     party_nova_table := nova; options := opts |}.

End Profile.

(** ** The specification's vocabulary

    Definitions that follow the words of the specification rather than the
    source; the theorems below compare the two. *)

Module Spec.

Inductive RollMode : Type := Normal | Adv | Dis.

Definition mode_name (m : RollMode) : string :=
  match m with Normal => "normal" | Adv => "adv" | Dis => "dis" end.

Definition d20_faces : list Z :=
  [1; 2; 3; 4; 5; 6; 7; 8; 9; 10; 11; 12; 13; 14; 15; 16; 17; 18; 19; 20].

(** A natural 20 is a crit. *)
Definition face_crits (face : Z) : bool := face =? 20.

(** A natural 1 misses, a natural 20 hits, any other face hits when
    face + attack bonus reaches the AC. *)
Definition face_hits (ac attack_bonus face : Z) : bool :=
  if face =? 1 then false
  else if face =? 20 then true
  else ac <=? face + attack_bonus.

(** The effective face of every equally likely outcome: the 20 faces, or
    the larger (smaller) face of each of the 400 ordered pairs. *)
Definition effective_faces (m : RollMode) : list Z :=
  match m with
  | Normal => d20_faces
  | Adv => map (fun p => Z.max (fst p) (snd p)) (list_prod d20_faces d20_faces)
  | Dis => map (fun p => Z.min (fst p) (snd p)) (list_prod d20_faces d20_faces)
  end.

(** The share of the outcomes that satisfy [p]. *)
Definition share (p : Z -> bool) (outcomes : list Z) : Q :=
  (inject_Z (Z.of_nat (length (List.filter p outcomes)))
   / inject_Z (Z.of_nat (length outcomes)))%Q.

(** The expectation of a crunchy crit: per die term
    count * (sides + (sides + 1) / 2), the modifier once, the overall
    sign, then the clamp at zero. *)
Fixpoint crit_dice_expectation (dice : list (Z * Z)) : Q :=
  match dice with
  | [] => 0%Q
  | (count, sides) :: rest =>
      (inject_Z count * (inject_Z sides + (inject_Z sides + 1) / 2)
       + crit_dice_expectation rest)%Q
  end.

Definition crit_expectation (sign : Z) (dice : list (Z * Z)) (modifier : Z) : Q :=
  Qmax 0 (inject_Z sign * (crit_dice_expectation dice + inject_Z modifier)).

(** A decimal numeral given by its digits, most significant first. *)
Definition numeral (ds : list nat) : string :=
  string_of_list_ascii (map (fun d => ascii_of_nat (48 + d)) ds).

Definition numeral_value (ds : list nat) : Z :=
  fold_left (fun acc d => 10 * acc + Z.of_nat d) ds 0.

Definition is_numeral (ds : list nat) : Prop :=
  ds <> [] /\ Forall (fun d => (d < 10)%nat) ds.

(** A bound clamped into [1 .. 6]. *)
Definition clamp_face (x : Z) : Z := Z.max 1 (Z.min 6 x).

(** The fail chance of a save in the words of section 4.2. *)
Definition save_fail_chance (dc save_bonus : Z) : Q :=
  Qmax (1 # 20) (Qmin (19 # 20) (inject_Z (dc - save_bonus - 1) / 20)).

(** Every character of [s] satisfies [p]. *)
Fixpoint all_chars (p : ascii -> bool) (s : string) : bool :=
  match s with
  | EmptyString => true
  | String c s' => p c && all_chars p s'
  end.

(** The text left after stripping and dash replacement. *)
Definition recharge_text_normalised (text : string) : string :=
  Cadence.dash_to_hyphen 148 (Cadence.dash_to_hyphen 147 (PyStr.strip text)).

(** The texts [parse_recharge] cannot read: nothing left, a single number
    that [int] refuses, or a range one side of which [int] refuses. *)
Definition recharge_unparseable (text : string) : Prop :=
  let t := recharge_text_normalised text in
  t = EmptyString
  \/ (PyStr.contains_char "-" t = false /\ PyStr.int t = None)
  \/ (PyStr.contains_char "-" t = true
      /\ (PyStr.int (fst (PyStr.split_first "-" t)) = None
          \/ PyStr.int (snd (PyStr.split_first "-" t)) = None)).

(** The shape the two per-round arrays of the single-target simulator
    keep through the attack loops. *)
Definition round_shape (trials : nat) (st : list Q * list bool) : Prop :=
  length (fst st) = trials /\ length (snd st) = trials.

(** The shape and sign of the running totals of the single-target
    simulator, beside the rider counters. *)
Definition totals_shape (trials : nat) (st : list Q * list Z) : Prop :=
  length (fst st) = trials
  /\ Forall (fun x => 0 <= x)%Q (fst st)
  /\ length (snd st) = trials.

(** A recorded time-to-kill lies in [lo .. hi]. *)
Definition ttk_within (lo hi : Z) (x : option Z) : Prop :=
  match x with Some r => lo <= r <= hi | None => True end.

(** The time-to-kill array of a run of [n] trials capped at
    [max_rounds] rounds: one cell per trial, every recorded round
    between 1 and the cap. *)
Definition ttk_inv (n : nat) (max_rounds : Z) (st : Encounter.EncState) : Prop :=
  length (Encounter.ttk st) = n
  /\ Forall (ttk_within 1 max_rounds) (Encounter.ttk st).

(** [b] is [a] up to the boss HP and the trial count of the options. *)
Definition same_but_settings (a b : Encounter.AppState) : Prop :=
  forall hp trials,
    AutoTune.set_hp_trials b hp trials = AutoTune.set_hp_trials a hp trials.

(** The two ends of the bracket when the bisection stops, [None] when
    the target was not bracketed. *)
Definition final_bracket (app : Encounter.AppState) : Rand.M (option (Q * Q)) :=
  let o := Encounter.options app in
  let target := Config.tune_target_median o in
  b <- AutoTune.bracket_search app ;;
  if AutoTune.bracketed b target then
    r <- AutoTune.bisection 16 target
           (AutoTune.quick_trials_of (Config.enc_trials o))
           (AutoTune.br_app b) (AutoTune.br_low b) (AutoTune.br_high b) ;;
    Rand.ret (Some (snd (fst r), snd r))
  else Rand.ret None.

(** The tuner in the words of the amended step 5: search the bracket;
    when there is none report infeasibility and leave the settings as
    they were; otherwise run the caller's configuration once more, at the
    full trial count and at the final [high] rounded to the nearest
    integer (ties to even), and report that run. *)
Definition tuner_by_rounding (app : Encounter.AppState)
    : Rand.M (AutoTune.TuneOutcome * Encounter.AppState) :=
  let o := Encounter.options app in
  fb <- final_bracket app ;;
  match fb with
  | None => Rand.ret (AutoTune.Infeasible, app)
  | Some (_, high) =>
      let tuned_hp := AutoTune.round_half_even high in
      let final_app := AutoTune.set_hp_trials app tuned_hp (Config.enc_trials o) in
      metrics <- Encounter._run_encounter_mc final_app ;;
      Rand.ret
        match metrics with
        | None => (AutoTune.SimulationFailed, app)
        | Some m =>
            (AutoTune.Tuned tuned_hp (fst (AutoTune.summary metrics))
               (snd (AutoTune.summary metrics))
               (negb (Qle_bool (Encounter.m_tpk_prob m)
                        (Config.tune_tpk_cap o + (1 # 1000000000)))),
             final_app)
        end
  end.

(** The run returns the outcome [Tuned hp ..] and leaves [hp] as the
    boss HP of the options. *)
Definition tuned_at
    (r : Rand.exn + (AutoTune.TuneOutcome * Encounter.AppState * Rand.rng))
    (hp : Z) : Prop :=
  match r with
  | inr ((AutoTune.Tuned h _ _ _, app), _) =>
      h = hp /\ Config.boss_hp (Encounter.options app) = hp
  | _ => False
  end.

(** The bisection stops with the ends [low] and [high]. *)
Definition bracket_ends (r : Rand.exn + (option (Q * Q) * Rand.rng))
    (low high : Q) : Prop :=
  match r with
  | inr (Some (l, h), _) => (l == low)%Q /\ (h == high)%Q
  | _ => False
  end.

(** A matrix of [n] rows of [P] cells. *)
Definition shape2 {A : Type} (n P : nat) (m : list (list A)) : Prop :=
  length m = n /\ Forall (fun row => length row = P) m.

(** The arrays of a run of [n] trials and [P] party members keep their
    shapes. *)
Definition enc_shape (n P : nat) (st : Encounter.EncState) : Prop :=
  shape2 n P (Encounter.pcs_hp st) /\ shape2 n P (Encounter.pcs_alive st)
  /\ shape2 n P (Encounter.rider_rem st) /\ length (Encounter.ttk st) = n.

Definition boss_shape (n P : nat) (b : Encounter.BossSt) : Prop :=
  shape2 n P (Encounter.b_hp b) /\ shape2 n P (Encounter.b_alive b)
  /\ shape2 n P (Encounter.b_trig b).

(** One target pool per trial, every target a member index. *)
Definition pools_within (n P : nat) (pools : list (option (list nat))) : Prop :=
  length pools = n
  /\ Forall (fun p => match p with
                      | Some pool => Forall (fun i => (i < P)%nat) pool
                      | None => True
                      end) pools.

(** What [_run_encounter_mc] needs beyond its own checks in order not to
    raise: a trial count that is not negative, target counts that are not
    negative where the action is enabled, and a save column that names one
    of the six saves. *)
Definition well_formed (app : Encounter.AppState) : Prop :=
  let o := Encounter.options app in
  0 <= Config.enc_trials o
  /\ (Config.lair_enabled o = true -> 0 <= Config.lair_targets o)
  /\ (Config.rech_enabled o = true -> 0 <= Config.rech_targets o)
  /\ Forall (fun atk =>
               Config.kind atk = "save"%string ->
               In (PyStr.upper (Config.save_stat atk)) Config.SAVE_KEYS)
            (Encounter.attacks_enabled_from_table (Encounter.attacks_table app)).

(** The value a run returns, [None] when it raises. *)
Definition result {A : Type} (r : Rand.exn + (A * Rand.rng)) : option A :=
  match r with inr (a, _) => Some a | inl _ => None end.

(** The run returns a number equal to [q]. *)
Definition returns_q (r : Rand.exn + (Q * Rand.rng)) (q : Q) : Prop :=
  match result r with Some x => (x == q)%Q | None => False end.

(** A tape whose every cell holds [x]. *)
Definition const_rng (x : N) : Rand.rng :=
  {| Rand.tape := fun _ => x; Rand.cursor := 0 |}.

End Spec.

(** ** Specifications of runs *)

Module Logic.
Import Rand.

(** From every state of the tape the run returns, and what it returns
    satisfies [post]. *)
Definition returns {A : Type} (m : M A) (post : A -> Prop) : Prop :=
  forall g, exists a g', m g = inr (a, g') /\ post a.

(** Whatever the run returns satisfies [post]. *)
Definition ensures {A : Type} (m : M A) (post : A -> Prop) : Prop :=
  forall g a g', m g = inr (a, g') -> post a.

End Logic.

(** ** Concrete configurations *)

Module Examples.
Import Config Encounter.

(** [DEFAULT_OPTIONS]. *)
Definition DEFAULT_OPTIONS : Options := {|
  mode_select := "normal"; spread_targets := 1; thp_expr := "1d6+4";
  lair_enabled := false; lair_avg := 6; lair_targets := 2; lair_every_n := 2;
  rech_enabled := false; recharge_text := "5-6"; rech_avg := 22;
  rech_targets := 1;
  rider_mode := "none"; rider_duration := 1; rider_melee_only := true;
  boss_hp := 150; resist_factor := 1; boss_regen := 0;
  mc_rounds := 3; mc_trials := 10000;
  enc_trials := 10000; enc_max_rounds := 12; enc_use_nova := false;
  dpr_cv := 6 # 10; initiative_mode := "random";
  tune_target_median := 4; tune_tpk_cap := 5 # 100 |}.

(** A save-for-half attack of 8d6 against Dexterity. *)
Definition fire_breath (dc : Z) : Attack := {|
  name := "Fire Breath"; kind := "save"; attack_bonus := 0; dc := dc;
  save_stat := "DEX"; damage_expr := "8d6"; uses_per_round := 1;
  is_melee := false; enabled := true |}.

Definition bite : Attack := {|
  name := "Bite"; kind := "attack"; attack_bonus := 7; dc := 0;
  save_stat := "DEX"; damage_expr := "2d10+5"; uses_per_round := 1;
  is_melee := true; enabled := true |}.

Definition member (nm : string) (ac hp dex : Z) : PartyRow := {|
  Name := nm;
  ints := list_to_map
            [("AC", ac); ("HP", hp); ("STR", 0); ("DEX", dex); ("CON", 0);
             ("INT", 0); ("WIS", 0); ("CHA", 0)]%string |}.

Definition dex_only (dex : Z) : gmap string Z :=
  list_to_map [("DEX"%string, dex)].

(** A party of one who deals [dpr] points every round (the variation
    coefficient is 1 and the tape below is constant), acts first, and
    faces a boss whose only offence is a lair action every 20th round. *)
Definition duel_options (hp : Z) (target : Q) : Options := {|
  mode_select := "normal"; spread_targets := 1; thp_expr := "0";
  lair_enabled := true; lair_avg := 6; lair_targets := 1; lair_every_n := 20;
  rech_enabled := false; recharge_text := "5-6"; rech_avg := 22;
  rech_targets := 1;
  rider_mode := "none"; rider_duration := 1; rider_melee_only := true;
  boss_hp := hp; resist_factor := 1; boss_regen := 0;
  mc_rounds := 3; mc_trials := 1000;
  enc_trials := 1000; enc_max_rounds := 12; enc_use_nova := false;
  dpr_cv := 1; initiative_mode := "party_first";
  tune_target_median := target; tune_tpk_cap := 5 # 100 |}.

Definition duel (hp : Z) (target dpr : Q) : AppState := {|
  party_table := [member "Fighter" 18 40 2];
  attacks_table := [];
  party_dpr_table := [ {| dpr_Member := "Fighter"; DPR := dpr |} ];
  party_nova_table := [];
  options := duel_options hp target |}.

(** Two members against a boss of 40 HP with two attacks, a lair action
    and a recharge power, three trials of at most four rounds. *)
Definition skirmish : AppState := {|
  party_table := [member "Fighter" 18 40 2; member "Rogue" 16 35 5];
  attacks_table := [bite; fire_breath 15];
  party_dpr_table :=
    [ {| dpr_Member := "Fighter"; DPR := 15 |};
      {| dpr_Member := "Rogue"; DPR := 12 |} ];
  party_nova_table := [];
  options := {|
    mode_select := "normal"; spread_targets := 2; thp_expr := "1d6+4";
    lair_enabled := true; lair_avg := 6; lair_targets := 2; lair_every_n := 2;
    rech_enabled := true; recharge_text := "5-6"; rech_avg := 22;
    rech_targets := 1;
    rider_mode := RIDER_AC; rider_duration := 1; rider_melee_only := true;
    boss_hp := 40; resist_factor := 1; boss_regen := 0;
    mc_rounds := 3; mc_trials := 1000;
    enc_trials := 3; enc_max_rounds := 4; enc_use_nova := false;
    dpr_cv := 1; initiative_mode := "random";
    tune_target_median := 4; tune_tpk_cap := 5 # 100 |} |}.

(** A tape of small numbers that vary from cell to cell. *)
Definition mixed_rng : Rand.rng :=
  {| Rand.tape := fun n => ((N.of_nat n * 7919 + 314187) mod 64)%N;
     Rand.cursor := 0 |}.

(** One trial of [skirmish] at the start of a round, the first member
    under a rider. *)
Definition skirmish_round : EncState := {|
  boss_hp_t := [40%Q];
  pcs_hp := [[40%Q; 35%Q]];
  pcs_alive := [[true; true]];
  rider_rem := [[1; 0]];
  ttk := [None];
  tpk_flags := [false];
  pcs_down_at_victory := [0] |}.

(** A saved profile: one member, one attack, the default options with a
    boss of 90 HP. *)
Definition saved_state : Profile.AppState := {|
  Profile.party_table := Profile.VList [Profile.pc "Bard" 14 28 0 2 1 1 0 4];
  Profile.attacks_table :=
    Profile.VList [Profile.attack_row "Tail" "attack" 6 0 "DEX" "1d8+3" 1 true];
  Profile.party_dpr_table :=
    Profile.VList [Profile.VDict [("Member", Profile.VStr "Bard");
                                  ("DPR", Profile.VFloat 9)]%string];
  Profile.party_nova_table :=
    Profile.VList [Profile.VDict [("Member", Profile.VStr "Bard")]%string];
  Profile.options := <["boss_hp"%string := Profile.VInt 90]> Profile.DEFAULT_OPTIONS |}.

End Examples.

(** ** Vocabulary of the further properties *)

Module Reference.

(** The armour class and the attack bonus enter the hit table through
    their difference alone, and only as far as the faces 2 to 20 can tell
    it apart. *)
Definition hit_threshold (ac attack_bonus : Z) : Z :=
  Z.max 2 (Z.min 20 (ac - attack_bonus)).

(** The chance that a single d20 hits: the faces from the threshold up. *)
Definition single_roll_hit_chance (ac attack_bonus : Z) : Q :=
  (inject_Z (21 - hit_threshold ac attack_bonus) / 20)%Q.

(** The save table likewise depends on DC - bonus cut to 1..21. *)
Definition save_threshold (dc bonus : Z) : Z := Z.max 1 (Z.min 21 (dc - bonus)).

(** The test [success] of the save branch of the encounter simulator. *)
Definition enc_save_success (dc bonus roll : Z) : bool :=
  (roll =? 20) || ((dc <=? roll + bonus) && negb (roll =? 1)).

(** A character that is not a decimal digit. *)
Definition not_digit (c : ascii) : bool := negb (PyStr.isdigit c).

(** A dice term the samplers roll: a count other than 0 and at least one
    side. *)
Definition rolled (d : Z * Z) : bool := negb ((fst d =? 0) || (snd d <=? 0)).

(** The least and the greatest total a dice term can add to a normal
    roll: a subtracted term gives its greatest roll to the least total. *)
Definition term_min (d : Z * Z) : Z :=
  if rolled d then (if 0 <? fst d then fst d else fst d * snd d) else 0.
Definition term_max (d : Z * Z) : Z :=
  if rolled d then (if 0 <? fst d then fst d * snd d else fst d) else 0.

(** The same for a crunchy crit: every die once at its maximum and once
    rolled. *)
Definition crit_term_min (d : Z * Z) : Z :=
  if rolled d
  then (if 0 <? fst d then fst d * snd d + fst d else 2 * (fst d * snd d))
  else 0.
Definition crit_term_max (d : Z * Z) : Z :=
  if rolled d
  then (if 0 <? fst d then 2 * (fst d * snd d) else fst d * snd d + fst d)
  else 0.

Definition dice_min (dice : list (Z * Z)) : Z := Dice.zsum (map term_min dice).
Definition dice_max (dice : list (Z * Z)) : Z := Dice.zsum (map term_max dice).
Definition crit_dice_min (dice : list (Z * Z)) : Z := Dice.zsum (map crit_term_min dice).
Definition crit_dice_max (dice : list (Z * Z)) : Z := Dice.zsum (map crit_term_max dice).

(** The value of a roll whose dice total [t]: the modifier added, the
    overall sign applied, the result clamped at zero. *)
Definition roll_value (sign t modifier : Z) : Q :=
  Qmax 0 (inject_Z (sign * (t + modifier))).

(** The options with another number of single-target rounds. *)
Definition with_mc_rounds (o : Config.Options) (rounds : Z) : Config.Options :=
  {| Config.mode_select := Config.mode_select o;
     Config.spread_targets := Config.spread_targets o;
     Config.thp_expr := Config.thp_expr o;
     Config.lair_enabled := Config.lair_enabled o;
     Config.lair_avg := Config.lair_avg o;
     Config.lair_targets := Config.lair_targets o;
     Config.lair_every_n := Config.lair_every_n o;
     Config.rech_enabled := Config.rech_enabled o;
     Config.recharge_text := Config.recharge_text o;
     Config.rech_avg := Config.rech_avg o;
     Config.rech_targets := Config.rech_targets o;
     Config.rider_mode := Config.rider_mode o;
     Config.rider_duration := Config.rider_duration o;
     Config.rider_melee_only := Config.rider_melee_only o;
     Config.boss_hp := Config.boss_hp o;
     Config.resist_factor := Config.resist_factor o;
     Config.boss_regen := Config.boss_regen o;
     Config.mc_rounds := rounds;
     Config.mc_trials := Config.mc_trials o;
     Config.enc_trials := Config.enc_trials o;
     Config.enc_max_rounds := Config.enc_max_rounds o;
     Config.enc_use_nova := Config.enc_use_nova o;
     Config.dpr_cv := Config.dpr_cv o;
     Config.initiative_mode := Config.initiative_mode o;
     Config.tune_target_median := Config.tune_target_median o;
     Config.tune_tpk_cap := Config.tune_tpk_cap o |}.

(** The three warnings of the encounter simulator: no party, no boss
    offence, no party damage. *)
Definition nothing_to_simulate (app : Encounter.AppState) : bool :=
  let o := Encounter.options app in
  Encounter.is_nil (Encounter.party_table app)
  || (Encounter.is_nil
        (Encounter.attacks_enabled_from_table (Encounter.attacks_table app))
      && negb (Config.lair_enabled o || Config.rech_enabled o))
  || Encounter.is_nil (Encounter._eff_party_dprs app (Config.enc_use_nova o)).

(** A member who is up afterwards was up before. *)
Definition still_down (after before : bool) : Prop := after = true -> before = true.

(** No cell of the party's hit points has grown and no member has come
    back up. *)
Definition party_no_better (hp' hp : list (list Q))
    (alive' alive : list (list bool)) : Prop :=
  Forall2 (Forall2 Qle) hp' hp /\ Forall2 (Forall2 still_down) alive' alive.

(** A state whose options carry exactly the keys of [DEFAULT_OPTIONS]
    and whose four tables are non-empty: what [from_profile_dict] builds. *)
Definition complete_state (s : Profile.AppState) : Prop :=
  Profile.truthy (Profile.party_table s) = true
  /\ Profile.truthy (Profile.attacks_table s) = true
  /\ Profile.truthy (Profile.party_dpr_table s) = true
  /\ Profile.truthy (Profile.party_nova_table s) = true
  /\ forall k : string,
       is_Some (Profile.options s !! k) <-> is_Some (Profile.DEFAULT_OPTIONS !! k).


(** A count of fallen members of a party of [P]. *)
Definition fallen_count (P : nat) (x : Z) : Prop := 0 <= x <= Z.of_nat P.

(** The arrays of a run beyond [enc_shape]: one boss HP and one count of
    fallen members per trial. *)
Definition tally_shape (n P : nat) (st : Encounter.EncState) : Prop :=
  length (Encounter.boss_hp_t st) = n
  /\ length (Encounter.pcs_down_at_victory st) = n
  /\ Forall (fallen_count P) (Encounter.pcs_down_at_victory st).

(** The UTF-8 bytes of the en dash and of the em dash. *)
Definition en_dash : string :=
  String (ascii_of_N 226) (String (ascii_of_N 128) (String (ascii_of_N 147) EmptyString)).
Definition em_dash : string :=
  String (ascii_of_N 226) (String (ascii_of_N 128) (String (ascii_of_N 148) EmptyString)).

End Reference.

(** * Properties *)

Import PyStr Dice Prob Cadence Rand Sampling Roll Config SingleTarget.
Import Encounter AutoTune Spec Logic Examples.

(** ** Counting lemmas *)

Section Counting.
Context {A B : Type}.

Lemma count_if_length (p : A -> bool) (l : list A) :
  count_if p l = Z.of_nat (length (List.filter p l)).
Proof.
  unfold count_if.
  induction (List.filter p l) as [|x r IH]; simpl; [reflexivity|].
  rewrite IH. lia.
Qed.

Lemma filter_map_length (f : A -> B) (p : B -> bool) (l : list A) :
  length (List.filter p (map f l)) = length (List.filter (fun x => p (f x)) l).
Proof.
  induction l as [|x l IH]; simpl; [reflexivity|].
  destruct (p (f x)); simpl; congruence.
Qed.

Lemma filter_split_length (h c : A -> bool) (l : list A) :
  (forall x, c x = true -> h x = true) ->
  length (List.filter h l)
  = (length (List.filter (fun x => h x && negb (c x)) l)
     + length (List.filter c l))%nat.
Proof.
  intros Hch. induction l as [|x l IH]; simpl; [reflexivity|].
  specialize (Hch x).
  destruct (h x) eqn:Hh, (c x) eqn:Hc; simpl;
    first [lia | discriminate (Hch eq_refl)].
Qed.

Lemma flat_map_pairs (f : A -> A -> B) (l1 l2 : list A) :
  flat_map (fun x => map (fun y => f x y) l2) l1
  = map (fun p => f (fst p) (snd p)) (list_prod l1 l2).
Proof.
  induction l1 as [|x l1 IH]; simpl; [reflexivity|].
  rewrite map_app, map_map, IH. reflexivity.
Qed.

End Counting.

(** ** ProbabilityModel: the hit table *)

Lemma classify_crit ac ab r : snd (classify ac ab r) = face_crits r.
Proof.
  unfold classify, face_crits.
  destruct (r =? 1) eqn:H1; [apply Z.eqb_eq in H1; subst; reflexivity|].
  destruct (r =? 20); reflexivity.
Qed.

Lemma classify_hit ac ab r : fst (classify ac ab r) = face_hits ac ab r.
Proof.
  unfold classify, face_hits.
  destruct (r =? 1); [reflexivity|]. destruct (r =? 20); reflexivity.
Qed.

Lemma crit_face_hits ac ab r : face_crits r = true -> face_hits ac ab r = true.
Proof.
  unfold face_crits, face_hits. intros H. rewrite H.
  apply Z.eqb_eq in H. subst. reflexivity.
Qed.

Lemma range_d20 : range 1 21 = d20_faces.
Proof. reflexivity. Qed.

(** The three counts of the source over any list of effective faces. *)
Lemma hit_counts ac ab (faces : list Z) :
  let hits := map (classify ac ab) faces in
  let k_crit := count_if snd hits in
  let k_non := count_if (fun h => fst h && negb (snd h)) hits in
  k_crit = Z.of_nat (length (List.filter face_crits faces))
  /\ k_non
     = Z.of_nat (length (List.filter
                           (fun f => face_hits ac ab f && negb (face_crits f)) faces))
  /\ k_non + k_crit = Z.of_nat (length (List.filter (face_hits ac ab) faces)).
Proof.
  cbv zeta. rewrite !count_if_length, !filter_map_length.
  assert (E1 : List.filter (fun x => snd (classify ac ab x)) faces
               = List.filter face_crits faces).
  { apply filter_ext. intros x. apply classify_crit. }
  assert (E2 : List.filter
                 (fun x => fst (classify ac ab x) && negb (snd (classify ac ab x)))
                 faces
               = List.filter
                   (fun f => face_hits ac ab f && negb (face_crits f)) faces).
  { apply filter_ext. intros x. now rewrite classify_crit, classify_hit. }
  rewrite E1, E2. repeat split.
  rewrite (filter_split_length (face_hits ac ab) face_crits faces)
    by (intros x; apply crit_face_hits).
  lia.
Qed.

Lemma Qdiv_sum (a b d : Z) :
  (inject_Z a / inject_Z d + inject_Z b / inject_Z d == inject_Z (a + b) / inject_Z d)%Q.
Proof. unfold Qdiv. rewrite inject_Z_plus. ring. Qed.

Lemma effective_faces_length (m : RollMode) :
  length (effective_faces m) = match m with Normal => 20%nat | _ => 400%nat end.
Proof. destruct m; reflexivity. Qed.

(** The hits listed by the source are [classify] mapped over the
    effective faces of the mode. *)
Lemma hits_over_effective_faces ac ab (m : RollMode) :
  match m with
  | Normal => map (classify ac ab) (range 1 21)
  | _ =>
      flat_map
        (fun r1 =>
           map (fun r2 =>
                  classify ac ab
                    (if String.eqb (mode_name m) "adv"
                     then Z.max r1 r2 else Z.min r1 r2))
               (range 1 21))
        (range 1 21)
  end = map (classify ac ab) (effective_faces m).
Proof.
  destruct m; rewrite ?range_d20; [reflexivity| |].
  - change (String.eqb (mode_name Adv) "adv") with true. cbv iota.
    rewrite (flat_map_pairs (fun r1 r2 => classify ac ab (Z.max r1 r2))).
    unfold effective_faces. now rewrite map_map.
  - change (String.eqb (mode_name Dis) "adv") with false. cbv iota.
    rewrite (flat_map_pairs (fun r1 r2 => classify ac ab (Z.min r1 r2))).
    unfold effective_faces. now rewrite map_map.
Qed.

(** [hit_probs] in terms of the three counts over the effective faces. *)
Lemma hit_probs_counts ac ab (m : RollMode) :
  let hits := map (classify ac ab) (effective_faces m) in
  let d := inject_Z (Z.of_nat (length (effective_faces m))) in
  hit_probs ac ab (mode_name m)
  = let p_crit := (inject_Z (count_if snd hits) / d)%Q in
    let p_noncrit :=
      (inject_Z (count_if (fun h => fst h && negb (snd h)) hits) / d)%Q in
    (p_noncrit, p_crit, (p_noncrit + p_crit)%Q).
Proof.
  cbv zeta. rewrite <- hits_over_effective_faces, effective_faces_length.
  destruct m; reflexivity.
Qed.

(** C1. For every AC, attack bonus and roll mode, [hit_probs] returns the
    shares, among the equally likely outcomes (the 20 faces in normal mode,
    the 400 ordered pairs reduced to their larger or smaller face under
    advantage or disadvantage), of the non-critical hits, of the crits and
    of all hits, where a natural 1 misses, a natural 20 hits and crits and
    any other face hits iff face + bonus >= AC; and
    [hit_probs 15 5 "normal"] is (1/2, 1/20, 11/20). *)
Theorem hit_probs_uniform_enumeration (ac attack_bonus : Z) (m : RollMode) :
  let r := hit_probs ac attack_bonus (mode_name m) in
  let outcomes := effective_faces m in
  length outcomes = match m with Normal => 20%nat | _ => 400%nat end
  /\ (fst (fst r)
      == share (fun f => face_hits ac attack_bonus f && negb (face_crits f))
               outcomes)%Q
  /\ (snd (fst r) == share face_crits outcomes)%Q
  /\ (snd r == share (face_hits ac attack_bonus) outcomes)%Q
  /\ let e := hit_probs 15 5 "normal" in
     (fst (fst e) == 1 # 2)%Q /\ (snd (fst e) == 1 # 20)%Q /\ (snd e == 55 # 100)%Q.
Proof.
  cbv zeta. split; [apply effective_faces_length|].
  rewrite hit_probs_counts. cbv zeta. cbn [fst snd].
  destruct (hit_counts ac attack_bonus (effective_faces m)) as (Hc & Hn & Ha).
  cbv zeta in Hc, Hn, Ha. unfold share.
  rewrite Qdiv_sum, Ha, Hc, Hn.
  repeat split; reflexivity.
Qed.

(** ** DiceExpression: the crunchy-crit average *)

Lemma crit_sum_expectation (dice : list (Z * Z)) :
  (qsum (map (fun '(c, s) => inject_Z c * (inject_Z s + inject_Z (s + 1) / 2)) dice)
   == crit_dice_expectation dice)%Q.
Proof.
  induction dice as [|[c s] dice IH]; simpl; [reflexivity|].
  rewrite IH, inject_Z_plus. reflexivity.
Qed.

(** C2. For every damage expression, with (sign, dice, modifier) its
    parse, the crunchy-crit average is the sign applied to the sum over
    the dice terms of count * (sides + (sides + 1) / 2) plus the modifier
    once, clamped at zero; the average of "1d6" is 9.5 and that of
    "2d6+4" is 23. *)
Theorem average_crunchy_crit_formula (expr : string) :
  (let '(sign, dice, modifier) := parse_damage_expression expr in
   (average_crunchy_crit_damage expr == crit_expectation sign dice modifier)%Q)
  /\ parse_damage_expression "1d6" = (1, [(1, 6)], 0)
  /\ (average_crunchy_crit_damage "1d6" == 95 # 10)%Q
  /\ parse_damage_expression "2d6+4" = (1, [(2, 6)], 4)
  /\ (average_crunchy_crit_damage "2d6+4" == 23)%Q.
Proof.
  split; [|repeat split; reflexivity].
  unfold average_crunchy_crit_damage, crit_expectation.
  destruct (parse_damage_expression expr) as [[sign dice] modifier].
  rewrite crit_sum_expectation. reflexivity.
Qed.

(** ** DiceExpression: zero-sided dice terms *)

Lemma map_replicate {A B : Type} (f : A -> B) (n : nat) (x : A) :
  map f (replicate n x) = replicate n (f x).
Proof. induction n; simpl; congruence. Qed.

Lemma Forall_replicate_intro {A : Type} (P : A -> Prop) (n : nat) (x : A) :
  P x -> Forall P (replicate n x).
Proof. intros H. induction n; simpl; constructor; assumption. Qed.

Lemma roll_damage_2d0 (size : nat) (g : rng) :
  roll_damage "2d0" size g
  = inr (map (Qmax 0)
           (map (fun x => x * inject_Z 1)%Q
              (map (fun x => x + inject_Z 0)%Q (zeros size))), g).
Proof. reflexivity. Qed.

(** C3 (the source departs from it). A dice term with zero sides is
    parsed and kept; the two samplers skip it, but [average_damage] and
    [average_crunchy_crit_damage] count (sides + 1) / 2 = 1/2 per die for
    it, so "2d0" averages 1 although every sample of it is 0 and the empty
    expression averages 0. *)
Theorem zero_sided_term_kept_by_averages :
  parse_damage_expression "2d0" = (1, [(2, 0)], 0)
  /\ (average_damage "2d0" == 1)%Q
  /\ (average_crunchy_crit_damage "2d0" == 1)%Q
  /\ (average_damage EmptyString == 0)%Q
  /\ (average_crunchy_crit_damage EmptyString == 0)%Q
  /\ (forall (size : nat) (g : rng),
        exists l, roll_damage "2d0" size g = inr (l, g)
                  /\ length l = size /\ Forall (fun x => x == 0)%Q l)
  /\ (forall g : rng,
        exists x, roll_damage_crunchy_crit "2d0" g = inr (x, g) /\ (x == 0)%Q).
Proof.
  repeat split; try reflexivity.
  - intros size g. eexists. split; [apply roll_damage_2d0|].
    unfold zeros. rewrite !map_replicate. split; [apply length_replicate|].
    apply Forall_replicate_intro. reflexivity.
  - intros g. exists (Qmax 0 ((0 + inject_Z 0) * inject_Z 1))%Q.
    split; reflexivity.
Qed.

(** ** CadenceModel: the recharge text *)

Section Strings.

Lemma all_chars_app p (a b : string) :
  all_chars p (a ++ b) = all_chars p a && all_chars p b.
Proof. induction a as [|c a IH]; simpl; [reflexivity|]. now rewrite IH, andb_assoc. Qed.

Lemma lstrip_id s : all_chars (fun c => negb (isspace c)) s = true -> lstrip s = s.
Proof.
  destruct s as [|c s]; simpl; [reflexivity|].
  intros H. apply andb_prop in H as [Hc _].
  now destruct (isspace c).
Qed.

Lemma rstrip_id s : all_chars (fun c => negb (isspace c)) s = true -> rstrip s = s.
Proof.
  induction s as [|c s IH]; simpl; [reflexivity|].
  intros H. apply andb_prop in H as [Hc Hs]. rewrite (IH Hs).
  destruct s; [|reflexivity]. now destruct (isspace c).
Qed.

Lemma strip_id s : all_chars (fun c => negb (isspace c)) s = true -> strip s = s.
Proof. intros H. unfold strip. now rewrite (lstrip_id _ H), (rstrip_id _ H). Qed.

Lemma dash_to_hyphen_id last s :
  all_chars (fun c => negb (code c =? 226)%N) s = true -> dash_to_hyphen last s = s.
Proof.
  induction s as [|a s IH]; [reflexivity|].
  intros H. cbn [all_chars] in H. apply andb_prop in H as [Ha Hs].
  apply negb_true_iff in Ha. cbn [dash_to_hyphen].
  rewrite Ha, (IH Hs). cbn [andb]. now destruct s as [|b [|c s]].
Qed.

Lemma contains_char_app x (a b : string) :
  contains_char x (a ++ String x b) = true.
Proof.
  induction a as [|c a IH]; simpl.
  - now rewrite Ascii.eqb_refl.
  - rewrite IH. apply orb_true_r.
Qed.

Lemma split_first_app x (a b : string) :
  all_chars (fun c => negb (Ascii.eqb c x)) a = true ->
  split_first x (a ++ String x b) = (a, b).
Proof.
  induction a as [|c a IH]; simpl.
  - now rewrite Ascii.eqb_refl.
  - intros H. apply andb_prop in H as [Hc Ha]. apply negb_true_iff in Hc.
    now rewrite Hc, (IH Ha).
Qed.

Lemma contains_char_false x s :
  contains_char x s = false -> all_chars (fun c => negb (Ascii.eqb c x)) s = true.
Proof.
  induction s as [|c s IH]; simpl; [reflexivity|].
  intros H. apply orb_false_elim in H as [Hc Hs]. now rewrite Hc, (IH Hs).
Qed.

End Strings.

Section Numerals.

(** What matters of the character of a decimal digit. *)
Lemma digit_char (d : nat) :
  (d < 10)%nat ->
  let c := ascii_of_nat (48 + d) in
  isdigit c = true /\ digit_val c = Z.of_nat d /\ isspace c = false
  /\ Ascii.eqb c "-" = false /\ Ascii.eqb c "+" = false
  /\ (code c =? 226)%N = false.
Proof.
  intros H. do 10 (destruct d as [|d]; [repeat split|]). lia.
Qed.

Lemma numeral_cons d ds :
  numeral (d :: ds) = String (ascii_of_nat (48 + d)) (numeral ds).
Proof. reflexivity. Qed.

Lemma numeral_all_chars (p : ascii -> bool) ds :
  (forall d, (d < 10)%nat -> p (ascii_of_nat (48 + d)) = true) ->
  Forall (fun d => (d < 10)%nat) ds -> all_chars p (numeral ds) = true.
Proof.
  intros Hp H. induction H as [|d ds Hd _ IH]; [reflexivity|].
  rewrite numeral_cons. cbn [all_chars]. now rewrite (Hp d Hd), IH.
Qed.

Lemma int_digits_numeral ds : forall acc b,
  Forall (fun d => (d < 10)%nat) ds -> ds <> [] \/ b = true ->
  int_digits acc b (numeral ds)
  = Some (fold_left (fun a d => 10 * a + Z.of_nat d) ds acc).
Proof.
  induction ds as [|d ds IH]; intros acc b Hall Hne.
  - destruct Hne as [Hne| ->]; [congruence|reflexivity].
  - inversion Hall as [|? ? Hd Hds]; subst.
    destruct (digit_char d Hd) as (Hdig & Hval & _).
    rewrite numeral_cons. cbn [int_digits]. rewrite Hdig, Hval.
    apply IH; [assumption|now right].
Qed.

Lemma int_numeral ds : is_numeral ds -> PyStr.int (numeral ds) = Some (numeral_value ds).
Proof.
  intros [Hne Hall]. unfold PyStr.int.
  rewrite strip_id
    by (apply numeral_all_chars; [|assumption];
        intros d Hd; destruct (digit_char d Hd) as (_ & _ & -> & _); reflexivity).
  destruct ds as [|d ds]; [congruence|].
  inversion Hall as [|? ? Hd Hds]; subst.
  destruct (digit_char d Hd) as (_ & _ & _ & Hm & Hp & _).
  rewrite numeral_cons. unfold take_sign. rewrite Hm, Hp. cbn [orb].
  rewrite <- numeral_cons, int_digits_numeral by (auto; left; congruence).
  reflexivity.
Qed.

End Numerals.

Lemma parse_recharge_range (lo hi : list nat) :
  is_numeral lo -> is_numeral hi ->
  (parse_recharge (numeral lo ++ "-" ++ numeral hi)
   == inject_Z (clamp_face (Z.max (numeral_value lo) (numeral_value hi))
                - clamp_face (Z.min (numeral_value lo) (numeral_value hi)) + 1)
      / 6)%Q.
Proof.
  intros Hlo Hhi.
  assert (Hchars : forall p,
             (forall d, (d < 10)%nat -> p (ascii_of_nat (48 + d)) = true) ->
             p "-"%char = true ->
             all_chars p (numeral lo ++ "-" ++ numeral hi) = true).
  { intros p Hp Hm. rewrite !all_chars_app. cbn [all_chars].
    rewrite Hm, !numeral_all_chars; auto; [apply Hhi|apply Hlo]. }
  unfold parse_recharge.
  rewrite strip_id
    by (apply Hchars; [|reflexivity];
        intros d Hd; destruct (digit_char d Hd) as (_ & _ & -> & _); reflexivity).
  assert (Hnd : all_chars (fun c => negb (code c =? 226)%N)
                  (numeral lo ++ "-" ++ numeral hi) = true).
  { apply Hchars; [|reflexivity].
    intros d Hd. destruct (digit_char d Hd) as (_ & _ & _ & _ & _ & ->).
    reflexivity. }
  rewrite (dash_to_hyphen_id 147 _ Hnd), (dash_to_hyphen_id 148 _ Hnd).
  change (numeral lo ++ "-" ++ numeral hi)%string
    with (numeral lo ++ String "-" (numeral hi))%string.
  rewrite contains_char_app, split_first_app
    by (apply numeral_all_chars; [|apply Hlo];
        intros d Hd; destruct (digit_char d Hd) as (_ & _ & _ & -> & _);
        reflexivity).
  rewrite (int_numeral lo Hlo), (int_numeral hi Hhi).
  destruct Hlo as [Hne _]. destruct lo as [|d lo]; [congruence|].
  rewrite numeral_cons. reflexivity.
Qed.

Lemma parse_recharge_unparseable (text : string) :
  recharge_unparseable text -> (parse_recharge text == 0)%Q.
Proof.
  unfold recharge_unparseable, recharge_text_normalised, parse_recharge.
  cbv zeta. intros [H|[[Hc Hi]|[Hc Hi]]].
  - rewrite H. reflexivity.
  - rewrite Hc, Hi. destruct (is_empty _); reflexivity.
  - rewrite Hc. destruct (is_empty _); [reflexivity|].
    destruct (split_first "-" _) as [lo_s hi_s]. cbn [fst snd] in Hi.
    destruct Hi as [Hi|Hi]; rewrite Hi; [reflexivity|].
    destruct (PyStr.int lo_s); reflexivity.
Qed.

(** C9. [parse_recharge] maps the numeral of a single face k of 2..6 to
    (7 - k)/6, a range written as two decimal numerals around a hyphen to
    (hi - lo + 1)/6 with the ordered bounds clamped into 1..6, and any
    text it cannot read to 0; "5-6" gives 2/6 and "6" gives 1/6. *)
Theorem parse_recharge_table :
  (forall k : Z, 2 <= k <= 6 ->
     (parse_recharge (numeral [Z.to_nat k]) == inject_Z (7 - k) / 6)%Q)
  /\ (forall lo hi : list nat, is_numeral lo -> is_numeral hi ->
        let l := numeral_value lo in
        let h := numeral_value hi in
        (parse_recharge (numeral lo ++ "-" ++ numeral hi)
         == inject_Z (clamp_face (Z.max l h) - clamp_face (Z.min l h) + 1) / 6)%Q)
  /\ (forall text : string,
        recharge_unparseable text -> (parse_recharge text == 0)%Q)
  /\ (parse_recharge "5-6" == 2 # 6)%Q
  /\ (parse_recharge "6" == 1 # 6)%Q.
Proof.
  split; [|split; [|split; [|split; reflexivity]]].
  - intros k Hk.
    assert (Hc : k = 2 \/ k = 3 \/ k = 4 \/ k = 5 \/ k = 6) by lia.
    destruct Hc as [->|[->|[->|[->| ->]]]]; reflexivity.
  - intros lo hi Hlo Hhi. apply parse_recharge_range; assumption.
  - apply parse_recharge_unparseable.
Qed.

Lemma parse_recharge_table_witness :
  is_numeral [5%nat] /\ is_numeral [1%nat; 2%nat]
  /\ (parse_recharge "5-12" == 2 # 6)%Q
  /\ recharge_unparseable "5 to 6" /\ (parse_recharge "5 to 6" == 0)%Q
  /\ (parse_recharge "3" == 4 # 6)%Q.
Proof.
  assert (H5 : is_numeral [5%nat]).
  { split; [discriminate|]. repeat constructor. }
  assert (H12 : is_numeral [1%nat; 2%nat]).
  { split; [discriminate|]. repeat constructor. }
  assert (Hu : recharge_unparseable "5 to 6").
  { right. left. split; reflexivity. }
  destruct parse_recharge_table as (Hk & Hr & Hz & _).
  refine (conj H5 (conj H12 (conj _ (conj Hu (conj _ _))))).
  - apply (Hr [5%nat] [1%nat; 2%nat] H5 H12).
  - apply (Hz _ Hu).
  - apply (Hk 3). lia.
Defined.

(** ** DiceExpression: every token handed to [safe_int] is an integer *)

Section Tokens.

Lemma digit_is_plain (c : ascii) :
  isdigit c = true ->
  isspace c = false /\ Ascii.eqb c "+" = false /\ Ascii.eqb c "-" = false
  /\ Ascii.eqb c "_" = false.
Proof.
  destruct c as [[] [] [] [] [] [] [] []]; cbn; intros H;
    first [discriminate H | repeat split].
Qed.

Lemma span_digits_digits (s : string) :
  all_chars isdigit (fst (span_digits s)) = true.
Proof.
  induction s as [|c s IH]; cbn [span_digits]; [reflexivity|].
  destruct (isdigit c) eqn:Hc; [|reflexivity].
  destruct (span_digits s) as [d r]. cbn [fst all_chars] in *. now rewrite Hc.
Qed.

Lemma int_digits_run (ds : string) : forall acc b,
  all_chars isdigit ds = true -> is_empty ds = false \/ b = true ->
  exists z, int_digits acc b ds = Some z.
Proof.
  induction ds as [|c ds IH]; intros acc b Hall Hne; cbn [int_digits].
  - destruct Hne as [Hne| ->]; [discriminate Hne|]. now eexists.
  - cbn [all_chars] in Hall. apply andb_prop in Hall as [Hc Hds].
    rewrite Hc. apply IH; [assumption|now right].
Qed.

Lemma no_blank_digits (ds : string) :
  all_chars isdigit ds = true -> all_chars (fun c => negb (isspace c)) ds = true.
Proof.
  induction ds as [|c ds IH]; cbn [all_chars]; [reflexivity|].
  intros H. apply andb_prop in H as [Hc Hds].
  destruct (digit_is_plain c Hc) as (-> & _). now rewrite IH.
Qed.

(** A sign, if any, followed by a non-empty run of digits is read by
    [int]. *)
Lemma int_signed_run (sg ds : string) :
  sg = EmptyString \/ sg = "+"%string \/ sg = "-"%string ->
  all_chars isdigit ds = true -> is_empty ds = false ->
  exists z, PyStr.int (sg ++ ds) = Some z.
Proof.
  intros Hsg Hall Hne. unfold PyStr.int.
  assert (Hstrip : strip (sg ++ ds) = (sg ++ ds)%string).
  { apply strip_id. rewrite all_chars_app, (no_blank_digits ds Hall).
    destruct Hsg as [->|[->| ->]]; reflexivity. }
  rewrite Hstrip.
  destruct (int_digits_run ds 0 false Hall (or_introl Hne)) as [z Hz].
  destruct Hsg as [->|[->| ->]].
  - change (EmptyString ++ ds)%string with ds in *.
    destruct ds as [|c ds]; [discriminate Hne|].
    cbn [all_chars] in Hall. apply andb_prop in Hall as [Hc _].
    destruct (digit_is_plain c Hc) as (_ & Hp & Hm & _).
    unfold take_sign. rewrite Hp, Hm. cbn [orb]. rewrite Hz. now eexists.
  - change (take_sign ("+" ++ ds)) with (String "+" EmptyString, ds).
    cbv iota beta. rewrite Hz. now eexists.
  - change (take_sign ("-" ++ ds)) with (String "-" EmptyString, ds).
    cbv iota beta. rewrite Hz. now eexists.
Qed.

Lemma take_sign_cases (s : string) :
  let sg := fst (take_sign s) in
  sg = EmptyString \/ sg = "+"%string \/ sg = "-"%string.
Proof.
  destruct s as [|c s]; cbn; [now left|].
  destruct (Ascii.eqb_spec c "+") as [->|_]; [cbn; auto|].
  destruct (Ascii.eqb_spec c "-") as [->|_]; cbn; auto.
Qed.

(** The tokens of the signed-integer pattern are integers: on them
    [safe_int] never reaches its fallbacks. *)
Lemma match_int_at_integer (s t : string) (n : nat) :
  match_int_at s = Some (t, n) -> exists z, PyStr.int t = Some z.
Proof.
  unfold match_int_at. pose proof (take_sign_cases s) as Hsg.
  destruct (take_sign s) as [sg s1]. cbn [fst] in Hsg.
  pose proof (span_digits_digits s1) as Hds.
  destruct (span_digits s1) as [ds r]. cbn [fst] in Hds.
  destruct (is_empty ds) eqn:Hne; [discriminate|].
  intros E. inversion E. subst. now apply int_signed_run.
Qed.

(** The two groups of a dice match: the sides are an integer, and the
    count is empty, a bare sign, or an integer. *)
Lemma match_dice_at_integers (s c sd : string) (n : nat) :
  match_dice_at s = Some (c, sd, n) ->
  (exists z, PyStr.int sd = Some z)
  /\ (c = EmptyString \/ c = "+"%string \/ c = "-"%string
      \/ exists z, PyStr.int c = Some z).
Proof.
  unfold match_dice_at. pose proof (take_sign_cases s) as Hsg.
  destruct (take_sign s) as [sg s1]. cbn [fst] in Hsg.
  pose proof (span_digits_digits s1) as Hds.
  destruct (span_digits s1) as [ds s2]. cbn [fst] in Hds.
  destruct s2 as [|d s3]; [discriminate|].
  destruct (Ascii.eqb_spec d "d") as [->|Hd].
  - pose proof (span_digits_digits s3) as Hsd.
    destruct (span_digits s3) as [sd' r]. cbn [fst] in Hsd.
    destruct (is_empty sd') eqn:Hne; [discriminate|].
    intros E. inversion E. subst. split.
    + apply (int_signed_run EmptyString sd); auto.
    + destruct (is_empty ds) eqn:Hds0.
      * destruct ds; [|discriminate Hds0].
        destruct Hsg as [->|[->| ->]]; cbn; auto.
      * right. right. right. now apply int_signed_run.
  - destruct d as [[] [] [] [] [] [] [] []]; first [discriminate | congruence].
Qed.

End Tokens.

(** ** Worked examples of the specification's section 8 *)

Example average_damage_2d6_plus_3 : (average_damage "2d6+3" == 10)%Q.
Proof. reflexivity. Qed.

Example parse_mixed_expression :
  parse_damage_expression " -1D4 + d8 - 3 +2d0" = (-1, [(1, 4); (1, 8); (2, 0)], -3).
Proof. reflexivity. Qed.

Example p_save_fail_examples :
  (p_save_fail 15 5 == 45 # 100)%Q
  /\ (p_save_fail 30 0 == 19 # 20)%Q
  /\ (p_save_fail 5 10 == 1 # 20)%Q.
Proof. repeat split; reflexivity. Qed.

Example hit_probs_advantage :
  let r := hit_probs 15 5 "adv" in
  (fst (fst r) == 280 # 400)%Q /\ (snd (fst r) == 39 # 400)%Q.
Proof. split; reflexivity. Qed.

Example round_half_even_examples :
  round_half_even (55 # 10) = 6 /\ round_half_even (65 # 10) = 6
  /\ round_half_even (325 # 100) = 3 /\ round_half_even 7 = 7.
Proof. repeat split; reflexivity. Qed.

(** ** SingleTargetSimulator: saving throws *)

Lemma p_save_fail_chance (dc save_bonus : Z) :
  (p_save_fail dc save_bonus == save_fail_chance dc save_bonus)%Q.
Proof.
  unfold p_save_fail, save_fail_chance.
  replace (dc - save_bonus - 1) with (dc - save_bonus - 1 + 0) by lia.
  set (t := dc - save_bonus).
  destruct (Z.leb_spec t 1) as [H1|H1].
  - rewrite Q.max_l; [reflexivity|].
    apply Q.min_le_iff. right. unfold Qle. simpl. lia.
  - destruct (Z.ltb_spec 20 t) as [H2|H2].
    + rewrite Q.min_l by (unfold Qle; simpl; lia).
      rewrite Q.max_r; [reflexivity|discriminate].
    + rewrite Q.min_r by (unfold Qle; simpl; lia).
      rewrite Q.max_r by (unfold Qle; simpl; lia).
      replace (t - 1 + 0) with (t - 1) by lia. reflexivity.
Qed.

(** Inside the range 1 < DC - bonus <= 20 the bare comparison fails on
    exactly the faces section 4.2 counts. *)
Lemma mc_save_matches_inside_range (dc bonus : Z) :
  1 < dc - bonus <= 20 ->
  (share (fun r => negb (mc_save_succeeds dc bonus r)) d20_faces
   == p_save_fail dc bonus)%Q.
Proof.
  intros H. unfold p_save_fail.
  destruct (Z.leb_spec (dc - bonus) 1); [lia|].
  destruct (Z.ltb_spec 20 (dc - bonus)); [lia|].
  assert (E : List.filter (fun r => negb (mc_save_succeeds dc bonus r)) d20_faces
              = List.filter (fun r => r <? dc - bonus) d20_faces).
  { apply filter_ext. intros r. unfold mc_save_succeeds.
    destruct (Z.leb_spec dc (r + bonus)), (Z.ltb_spec r (dc - bonus)); simpl; lia. }
  unfold share. rewrite E.
  set (t := dc - bonus) in *.
  assert (Ht : t = 2 \/ t = 3 \/ t = 4 \/ t = 5 \/ t = 6 \/ t = 7 \/ t = 8 \/ t = 9
               \/ t = 10 \/ t = 11 \/ t = 12 \/ t = 13 \/ t = 14 \/ t = 15
               \/ t = 16 \/ t = 17 \/ t = 18 \/ t = 19 \/ t = 20) by lia.
  clearbody t.
  repeat (destruct Ht as [->|Ht]; [reflexivity|]). subst t. reflexivity.
Qed.

(** C4 (the source departs from it). A landing use of a save-type attack
    in the single-target simulator succeeds exactly when roll + bonus
    reaches the DC. Against DC 30 with +0 a natural 20 therefore fails and
    takes the full 16 of the rolled 8d6 (every face is a failure, where
    [p_save_fail] says 19/20); against DC 5 with +10 a natural 1 succeeds
    and takes half of the rolled 8 (no face is a failure, where
    [p_save_fail] says 1/20). *)
Theorem mc_save_ignores_natural_1_and_20 :
  returns_q (save_uses (dex_only 0) (fire_breath 30) 1 (const_rng 19)) 16
  /\ result (randint 1 20 (const_rng 19)) = Some 20
  /\ (share (fun r => negb (mc_save_succeeds 30 0 r)) d20_faces == 1)%Q
  /\ (p_save_fail 30 0 == 19 # 20)%Q
  /\ returns_q (save_uses (dex_only 10) (fire_breath 5) 1 (const_rng 0)) 4
  /\ result (randint 1 20 (const_rng 0)) = Some 1
  /\ (share (fun r => negb (mc_save_succeeds 5 10 r)) d20_faces == 0)%Q
  /\ (p_save_fail 5 10 == 1 # 20)%Q.
Proof. repeat split; vm_compute; reflexivity. Qed.

(** ** EncounterSimulator: the armour class under the AC rider *)

Lemma boss_current_ac_lookup (o : Options) (trials : nat) (pc_AC : list Z)
    (rider_rem : list (list Z)) (t j : nat) (row : list Z) (ac r : Z) :
  rider_mode o = RIDER_AC ->
  (t < trials)%nat ->
  rider_rem !! t = Some row -> row !! j = Some r -> pc_AC !! j = Some ac ->
  exists acs,
    boss_current_ac o trials pc_AC rider_rem !! t = Some acs
    /\ acs !! j = Some (if 0 <? r then Z.max 1 (ac - 2) else ac).
Proof.
  intros Hmode Ht Hrow Hr Hac. unfold boss_current_ac.
  rewrite Hmode. change (String.eqb RIDER_AC RIDER_AC) with true. cbv iota.
  eexists. split.
  - rewrite lookup_zip_with, lookup_replicate_2 by assumption.
    cbn. rewrite Hrow. reflexivity.
  - rewrite lookup_zip_with, Hac. cbn. rewrite Hr. reflexivity.
Qed.

(** C10. In the boss phase, when the rider is "-2 AC next round" and the
    rider counter of member [j] in trial [t] is positive, the armour class
    the attack rolls of that round are compared with is
    max(1, AC - 2), which is at least 1 whatever the configured AC. *)
Theorem boss_ac_under_rider_at_least_1 (o : Options) (trials : nat)
    (pc_AC : list Z) (rider_rem : list (list Z)) (t j : nat)
    (row : list Z) (ac r : Z) :
  rider_mode o = RIDER_AC ->
  (t < trials)%nat ->
  rider_rem !! t = Some row -> row !! j = Some r -> 0 < r ->
  pc_AC !! j = Some ac ->
  exists acs,
    boss_current_ac o trials pc_AC rider_rem !! t = Some acs
    /\ acs !! j = Some (Z.max 1 (ac - 2))
    /\ 1 <= Z.max 1 (ac - 2).
Proof.
  intros Hmode Ht Hrow Hr Hpos Hac.
  destruct (boss_current_ac_lookup o trials pc_AC rider_rem t j row ac r)
    as (acs & H1 & H2); try assumption.
  exists acs. split; [assumption|]. split; [|lia].
  rewrite H2. destruct (Z.ltb_spec 0 r); [reflexivity|lia].
Qed.

(** ** Reasoning about runs *)

Section Triples.
Context {A B : Type}.

Lemma returns_ret (a : A) (post : A -> Prop) : post a -> returns (ret a) post.
Proof. intros H g. exists a, g. split; [reflexivity|assumption]. Qed.

Lemma returns_bind (m : M A) (k : A -> M B) (mid : A -> Prop) (post : B -> Prop) :
  returns m mid -> (forall a, mid a -> returns (k a) post) ->
  returns (bind m k) post.
Proof.
  intros Hm Hk g. destruct (Hm g) as (a & g1 & E & Ha).
  destruct (Hk a Ha g1) as (b & g2 & E2 & Hb).
  exists b, g2. unfold bind. rewrite E. split; assumption.
Qed.

Lemma returns_mono (m : M A) (P Q : A -> Prop) :
  returns m P -> (forall a, P a -> Q a) -> returns m Q.
Proof.
  intros Hm HPQ g. destruct (Hm g) as (a & g1 & E & Ha).
  exists a, g1. auto.
Qed.

Lemma ensures_ret (a : A) (post : A -> Prop) : post a -> ensures (ret a) post.
Proof. intros H g a' g' E. inversion E. subst. assumption. Qed.

Lemma ensures_raise (e : exn) (post : A -> Prop) : ensures (raise e) post.
Proof. intros g a g' E. discriminate E. Qed.

Lemma ensures_bind (m : M A) (k : A -> M B) (mid : A -> Prop) (post : B -> Prop) :
  ensures m mid -> (forall a, mid a -> ensures (k a) post) ->
  ensures (bind m k) post.
Proof.
  intros Hm Hk g b g2 E. unfold bind in E.
  destruct (m g) as [e|[a g1]] eqn:Em; [discriminate|].
  exact (Hk a (Hm g a g1 Em) g1 b g2 E).
Qed.

Lemma ensures_mono (m : M A) (P Q : A -> Prop) :
  ensures m P -> (forall a, P a -> Q a) -> ensures m Q.
Proof. intros Hm HPQ g a g' E. exact (HPQ a (Hm g a g' E)). Qed.

Lemma ensures_any (m : M A) : ensures m (fun _ => True).
Proof. intros g a g' _. exact I. Qed.

Lemma returns_ensures (m : M A) (P : A -> Prop) : returns m P -> ensures m P.
Proof.
  intros Hm g a g' E. destruct (Hm g) as (a' & g1 & E' & Ha).
  rewrite E in E'. inversion E'. subst. assumption.
Qed.

End Triples.

Section Loops.
Context {S X : Type}.

Lemma returns_foldM (body : S -> X -> M S) (inv : S -> Prop) (l : list X) :
  (forall s x, In x l -> inv s -> returns (body s x) inv) ->
  forall st, inv st -> returns (foldM body l st) inv.
Proof.
  induction l as [|x l IH]; intros Hbody st Hst; cbn [foldM].
  - now apply returns_ret.
  - apply (returns_bind _ _ inv).
    + apply Hbody; [now left|assumption].
    + intros s Hs. apply IH; [|assumption].
      intros s' x' Hx'. apply Hbody. now right.
Qed.

Lemma ensures_foldM (body : S -> X -> M S) (inv : S -> Prop) (l : list X) :
  (forall s x, In x l -> inv s -> ensures (body s x) inv) ->
  forall st, inv st -> ensures (foldM body l st) inv.
Proof.
  induction l as [|x l IH]; intros Hbody st Hst; cbn [foldM].
  - now apply ensures_ret.
  - apply (ensures_bind _ _ inv).
    + apply Hbody; [now left|assumption].
    + intros s Hs. apply IH; [|assumption].
      intros s' x' Hx'. apply Hbody. now right.
Qed.

Lemma ensures_forM_break (body : S -> X -> M (option S)) (inv : S -> Prop)
    (l : list X) :
  (forall s x, In x l -> inv s ->
     ensures (body s x) (fun r => match r with Some s' => inv s' | None => True end)) ->
  forall st, inv st -> ensures (forM_break body l st) inv.
Proof.
  induction l as [|x l IH]; intros Hbody st Hst; cbn [forM_break].
  - now apply ensures_ret.
  - eapply ensures_bind.
    + apply Hbody; [now left|exact Hst].
    + intros [s'|] Hs; cbn beta iota in Hs.
      * apply IH; [|assumption]. intros s x' Hx'. apply Hbody. now right.
      * now apply ensures_ret.
Qed.

Lemma returns_replicateM (m : M X) (P : X -> Prop) (n : nat) :
  returns m P -> returns (replicateM n m) (fun l => length l = n /\ Forall P l).
Proof.
  intros Hm. induction n as [|n IH]; cbn [replicateM].
  - apply returns_ret. split; [reflexivity|constructor].
  - apply (returns_bind _ _ P); [assumption|]. intros a Ha.
    apply (returns_bind _ _ (fun l => length l = n /\ Forall P l)); [assumption|].
    intros l [Hl HP]. apply returns_ret. split; [simpl; congruence|].
    now constructor.
Qed.

End Loops.

(** ** The samplers return *)

Lemma returns_draw : returns draw (fun _ => True).
Proof. intros g. eexists _, _. split; [reflexivity|exact I]. Qed.

Lemma returns_randint (lo hi : Z) :
  lo <= hi -> returns (randint lo hi) (fun x => lo <= x <= hi).
Proof.
  intros H. unfold randint. destruct (Z.ltb_spec hi lo); [lia|].
  apply (returns_bind _ _ (fun _ => True)); [apply returns_draw|].
  intros x _. apply returns_ret.
  pose proof (Z.mod_pos_bound (Z.of_N x) (hi - lo + 1)). lia.
Qed.

Lemma returns_binomial (n k : Z) :
  0 <= n -> 1 <= k ->
  returns (binomial n (1 / inject_Z k)) (fun x => 0 <= x <= n).
Proof.
  intros Hn Hk. unfold binomial.
  destruct k as [|p|p]; try lia.
  assert (E0 : Qle_bool 0 (1 / inject_Z (Z.pos p)) = true) by reflexivity.
  assert (E1 : Qle_bool (1 / inject_Z (Z.pos p)) 1 = true).
  { apply Qle_bool_iff. unfold Qle. simpl. lia. }
  rewrite E0, E1. destruct (Z.ltb_spec n 0); [lia|]. cbn [negb orb].
  destruct (Qle_bool 1 _); [apply returns_ret; lia|].
  destruct (Qle_bool _ 0); [apply returns_ret; lia|].
  apply (returns_bind _ _ (fun _ => True)); [apply returns_draw|].
  intros x _. apply returns_ret.
  pose proof (Z.mod_pos_bound (Z.of_N x) (n + 1)). lia.
Qed.

(** ** The damage samplers return arrays of the requested shape *)

Lemma column_sums_length (size : nat) (rolls : list (list Z)) :
  Forall (fun row => length row = size) rolls ->
  length (column_sums size rolls) = size.
Proof.
  unfold column_sums. induction 1 as [|row rolls Hrow _ IH]; simpl.
  - apply length_replicate.
  - rewrite length_zip_with. lia.
Qed.

Lemma masked_update_length {A : Type} (f : A -> A) (a : list A) (mask : list bool) :
  length (masked_update f a mask) = length a.
Proof.
  revert mask. induction a as [|x a IH]; intros [|m mask]; simpl; congruence.
Qed.

Lemma returns_roll_damage (expr : string) (size : nat) :
  returns (roll_damage expr size) (fun l => length l = size).
Proof.
  unfold roll_damage.
  destruct (parse_damage_expression expr) as [[sign dice] mod_].
  apply (returns_bind _ _ (fun l => length l = size)).
  - apply returns_foldM; [|apply length_replicate].
    intros total [count sides] _ Htotal.
    destruct ((count =? 0) || (sides <=? 0)) eqn:Hskip;
      [now apply returns_ret|].
    apply orb_false_elim in Hskip as [_ Hsides].
    apply Z.leb_gt in Hsides.
    eapply returns_bind.
    + apply returns_replicateM, returns_replicateM, (returns_randint 1 sides). lia.
    + intros rolls [_ Hrows]. apply returns_ret.
      unfold vadd. rewrite length_zip_with, length_map, column_sums_length; [lia|].
      eapply Forall_impl; [exact Hrows|]. intros row Hrow. apply Hrow.
  - intros l Hl. apply returns_ret. now rewrite !length_map.
Qed.

Lemma returns_roll_damage_crunchy_crit (expr : string) :
  returns (roll_damage_crunchy_crit expr) (fun _ => True).
Proof.
  unfold roll_damage_crunchy_crit.
  destruct (parse_damage_expression expr) as [[sign dice] mod_].
  apply (returns_bind _ _ (fun _ => True)); [|intros; now apply returns_ret].
  apply returns_foldM; [|exact I].
  intros total [count sides] _ _.
  destruct ((sides <=? 0) || (count =? 0)) eqn:Hskip; [now apply returns_ret|].
  apply orb_false_elim in Hskip as [Hsides _]. apply Z.leb_gt in Hsides.
  eapply returns_bind.
  - apply returns_replicateM, (returns_randint 1 sides). lia.
  - intros; now apply returns_ret.
Qed.

(** ** SingleTargetSimulator: shape and sign of the totals *)

Lemma returns_at_index {A : Type} (l : list A) (i : nat) :
  (i < length l)%nat -> returns (at_index l i) (fun _ => True).
Proof.
  intros H. unfold at_index.
  destruct (lookup_lt_is_Some_2 l i H) as [a ->]. now apply returns_ret.
Qed.

Lemma returns_save_uses (save_bonuses : gmap string Z) (atk : Attack) (h : nat) :
  returns (save_uses save_bonuses atk h) (fun _ => True).
Proof.
  unfold save_uses.
  eapply returns_bind; [apply returns_replicateM, (returns_randint 1 20); lia|].
  intros rolls _.
  eapply returns_bind; [apply returns_roll_damage|].
  intros; now apply returns_ret.
Qed.

Lemma returns_attack_use (opts : Options) (atk : Attack) (mode : string)
    (ac : Z) (st : Q * bool) :
  returns (attack_use opts atk mode ac st) (fun _ => True).
Proof.
  unfold attack_use. destruct st as [rd tr].
  eapply returns_bind; [apply (returns_randint 1 20); lia|]. intros r1 _.
  eapply returns_bind; [apply (returns_randint 1 20); lia|]. intros r2 _.
  cbv zeta.
  match goal with |- returns (if ?c then _ else _) _ => destruct c end;
    [|now apply returns_ret].
  apply (returns_bind _ _ (fun _ => True)); [|intros; now apply returns_ret].
  match goal with |- returns (if ?c then _ else _) _ => destruct c end.
  - apply returns_roll_damage_crunchy_crit.
  - eapply returns_bind; [apply returns_roll_damage|].
    intros l Hl. apply returns_at_index. cbv beta in Hl. lia.
Qed.

Lemma returns_trial_step (opts : Options) (save_bonuses : gmap string Z)
    (atk : Attack) (current_ac : list Z) (current_mode : list string)
    (hits_on_target : list Z) (trials : nat) (st : list Q * list bool) (i : nat) :
  length current_ac = trials -> length current_mode = trials ->
  length hits_on_target = trials -> (i < trials)%nat ->
  round_shape trials st ->
  returns (trial_step opts save_bonuses atk current_ac current_mode
             hits_on_target st i)
          (round_shape trials).
Proof.
  intros Hac Hmode Hhits Hi [Hrd Htr]. unfold trial_step.
  destruct st as [round_damage triggered_rider]. cbn [fst snd] in Hrd, Htr.
  eapply returns_bind; [apply returns_at_index; lia|]. intros h _.
  destruct (h =? 0); [apply returns_ret; now split|].
  destruct (String.eqb (kind atk) "save").
  - eapply returns_bind; [apply returns_save_uses|]. intros d _.
    apply returns_ret. split; cbn [fst snd]; [now rewrite length_alter|assumption].
  - eapply returns_bind; [apply returns_at_index; lia|]. intros mode _.
    eapply returns_bind; [apply returns_at_index; lia|]. intros ac _.
    eapply returns_bind; [apply returns_at_index; lia|]. intros rd _.
    eapply returns_bind; [apply returns_at_index; lia|]. intros tr _.
    apply (returns_bind _ _ (fun _ => True)).
    + apply returns_foldM; [|exact I]. intros s x _ _. apply returns_attack_use.
    + intros r _. apply returns_ret.
      split; cbn [fst snd]; now rewrite length_insert.
Qed.

Lemma returns_attack_step (opts : Options) (trials : nat)
    (save_bonuses : gmap string Z) (current_ac : list Z)
    (current_mode : list string) (st : list Q * list bool) (atk : Attack) :
  length current_ac = trials -> length current_mode = trials ->
  round_shape trials st ->
  returns (attack_step opts trials save_bonuses current_ac current_mode st atk)
          (round_shape trials).
Proof.
  intros Hac Hmode Hst. unfold attack_step.
  destruct (Z.leb_spec (uses_per_round atk) 0) as [|Huses];
    [now apply returns_ret|].
  eapply returns_bind.
  - apply returns_replicateM, returns_binomial; lia.
  - intros hits [Hlen _]. apply returns_foldM; [|assumption].
    intros s i Hi Hs. apply returns_trial_step; try assumption.
    apply in_seq in Hi. lia.
Qed.

Lemma vadd_nonneg (a b : list Q) :
  Forall (fun x => 0 <= x)%Q a -> Forall (fun x => 0 <= x)%Q b ->
  Forall (fun x => 0 <= x)%Q (vadd a b).
Proof.
  intros Ha. revert b. induction Ha as [|x a Hx _ IH]; intros b Hb; [constructor|].
  destruct Hb as [|y b Hy Hb]; [constructor|].
  cbn. constructor; [|now apply IH].
  replace 0%Q with (0 + 0)%Q by reflexivity. now apply Qplus_le_compat.
Qed.

Lemma clamped_nonneg (thp_avg : Q) (l : list Q) :
  Forall (fun x => 0 <= x)%Q (map (fun d => Qmax 0 (d - thp_avg)) l).
Proof.
  induction l as [|d l IH]; simpl; constructor; [apply Q.le_max_l|assumption].
Qed.

Lemma returns_round_step (opts : Options) (trials : nat) (ac : Z)
    (save_bonuses : gmap string Z) (thp_avg : Q) (attacks : list Attack)
    (st : list Q * list Z) (k : nat) :
  totals_shape trials st ->
  returns (SingleTarget.round_step opts trials ac save_bonuses thp_avg attacks st k)
          (totals_shape trials).
Proof.
  intros (Htot & Hpos & Hrid). unfold SingleTarget.round_step.
  destruct st as [total_damage rider_remaining]. cbn [fst snd] in Htot, Hpos, Hrid.
  cbv zeta.
  apply (returns_bind _ _ (round_shape trials)).
  - apply returns_foldM.
    + intros s atk _ Hs. apply returns_attack_step; [| |assumption].
      * destruct (String.eqb _ _);
          [rewrite masked_update_length|]; apply length_replicate.
      * destruct (String.eqb (rider_mode opts) RIDER_ADV);
          [rewrite masked_update_length|]; apply length_replicate.
    + split; apply length_replicate.
  - intros [round_damage triggered_rider] [Hrd Htr]. cbn [fst snd] in Hrd, Htr.
    apply returns_ret. repeat split; cbn [fst snd].
    + unfold vadd. rewrite length_zip_with, length_map. lia.
    + apply vadd_nonneg; [assumption|apply clamped_nonneg].
    + now rewrite length_map, masked_update_length, length_map.
Qed.

(** C5. For any party member, attack list and options with at least one
    trial and one round, and from any state of the random tape, the
    single-target simulator returns an array of exactly [mc_trials]
    totals, each of them at least 0. *)
Theorem run_mc_sim_shape_and_sign (pc_row : PartyRow) (attacks : list Attack)
    (opts : Options) (g : rng) :
  1 <= mc_trials opts -> 1 <= mc_rounds opts ->
  exists (totals : list Q) (g' : rng),
    _run_mc_sim pc_row attacks opts g = inr (totals, g')
    /\ Z.of_nat (length totals) = mc_trials opts
    /\ Forall (fun x => 0 <= x)%Q totals.
Proof.
  intros Htrials _.
  assert (H : returns (_run_mc_sim pc_row attacks opts)
                (fun l => length l = Z.to_nat (mc_trials opts)
                          /\ Forall (fun x => 0 <= x)%Q l)).
  { unfold _run_mc_sim. cbv zeta.
    destruct (Z.ltb_spec (mc_trials opts) 0); [lia|].
    apply (returns_bind _ _ (totals_shape (Z.to_nat (mc_trials opts)))).
    - apply returns_foldM.
      + intros s k _ Hs. now apply returns_round_step.
      + repeat split; cbn [fst snd]; try apply length_replicate.
        apply Forall_replicate_intro. discriminate.
    - intros [total rider] (Hl & Hp & _). apply returns_ret. now split. }
  destruct (H g) as (totals & g' & E & Hl & Hp).
  exists totals, g'. repeat split; [assumption| |assumption]. lia.
Qed.

Lemma run_mc_sim_shape_and_sign_witness :
  1 <= mc_trials DEFAULT_OPTIONS /\ 1 <= mc_rounds DEFAULT_OPTIONS
  /\ exists (totals : list Q) (g' : rng),
       _run_mc_sim (member "Fighter" 18 40 2) [bite; fire_breath 15]
         DEFAULT_OPTIONS (const_rng 7) = inr (totals, g')
       /\ Z.of_nat (length totals) = mc_trials DEFAULT_OPTIONS
       /\ Forall (fun x => 0 <= x)%Q totals.
Proof.
  assert (H1 : 1 <= mc_trials DEFAULT_OPTIONS) by (cbn; lia).
  assert (H2 : 1 <= mc_rounds DEFAULT_OPTIONS) by (cbn; lia).
  refine (conj H1 (conj H2 _)).
  exact (run_mc_sim_shape_and_sign (member "Fighter" 18 40 2)
           [bite; fire_breath 15] DEFAULT_OPTIONS (const_rng 7) H1 H2).
Defined.

(** ** EncounterSimulator: the metrics *)

Lemma masked_update_Forall {A : Type} (P : A -> Prop) (f : A -> A)
    (a : list A) (mask : list bool) :
  Forall P a -> (forall x, P x -> P (f x)) -> Forall P (masked_update f a mask).
Proof.
  intros Ha Hf. revert mask.
  induction Ha as [|x a Hx Ha IH]; intros [|m mask]; simpl.
  - constructor.
  - constructor.
  - now constructor.
  - constructor; [destruct m; auto|apply IH].
Qed.

Lemma ensures_party_phase (P : nat) (eff_means : list Q) (dpr_cv resist regen : Q)
    (rnd : Z) (mask : list bool) (st : EncState) (n : nat) (max_rounds : Z) :
  1 <= rnd <= max_rounds -> ttk_inv n max_rounds st ->
  ensures (party_phase P eff_means dpr_cv resist regen rnd mask st)
          (ttk_inv n max_rounds).
Proof.
  intros Hrnd [Hlen Hall]. unfold party_phase.
  eapply ensures_bind; [apply ensures_any|]. intros dmg _.
  apply ensures_ret. split; cbn [ttk].
  - now rewrite masked_update_length.
  - apply masked_update_Forall; [assumption|]. intros x _. exact Hrnd.
Qed.

Lemma ensures_boss_phase (o : Options) (P : nat) (attacks : list Attack)
    (thp_avg : Q) (spread_targets : Z) (pc_AC : list Z) (pc_saves : list (list Z))
    (save_index : gmap string nat) (rnd : Z) (st : EncState)
    (n : nat) (max_rounds : Z) :
  ttk_inv n max_rounds st ->
  ensures (boss_phase o P attacks thp_avg spread_targets pc_AC pc_saves
             save_index rnd st)
          (ttk_inv n max_rounds).
Proof.
  intros Hst. unfold boss_phase. cbv zeta.
  eapply ensures_bind; [apply ensures_any|]. intros round_pool _.
  eapply ensures_bind; [apply ensures_any|]. intros b1 _.
  eapply ensures_bind; [apply ensures_any|]. intros b2 _.
  eapply ensures_bind; [apply ensures_any|]. intros b3 _.
  apply ensures_ret. exact Hst.
Qed.

Lemma ensures_round_step (o : Options) (trials P : nat) (attacks : list Attack)
    (eff_means : list Q) (dpr_cv resist regen thp_avg : Q) (spread_targets : Z)
    (init_mode : string) (pc_AC : list Z) (pc_saves : list (list Z))
    (save_index : gmap string nat) (st : EncState) (rnd : Z)
    (n : nat) (max_rounds : Z) :
  1 <= rnd <= max_rounds -> ttk_inv n max_rounds st ->
  ensures (Encounter.round_step o trials P attacks eff_means dpr_cv resist regen
             thp_avg spread_targets init_mode pc_AC pc_saves save_index st rnd)
          (fun r => match r with
                    | Some st' => ttk_inv n max_rounds st'
                    | None => True
                    end).
Proof.
  intros Hrnd Hst. unfold Encounter.round_step. cbv zeta.
  destruct (negb (any (ongoing_of (ttk st)))); [now apply ensures_ret|].
  eapply ensures_bind; [apply ensures_any|]. intros flags _.
  apply (ensures_bind _ _ (ttk_inv n max_rounds)).
  { destruct (any _); [now apply ensures_party_phase|now apply ensures_ret]. }
  intros st1 Hst1.
  apply (ensures_bind _ _ (ttk_inv n max_rounds)).
  { destruct (any _); [now apply ensures_boss_phase|now apply ensures_ret]. }
  intros st2 Hst2.
  apply (ensures_bind _ _ (ttk_inv n max_rounds)).
  { destruct (any _); [now apply ensures_party_phase|now apply ensures_ret]. }
  intros st3 Hst3. now apply ensures_ret.
Qed.

Lemma in_range (a b x : Z) : In x (range a b) -> a <= x < b.
Proof.
  unfold range. intros H. apply in_map_iff in H as (i & <- & Hi).
  apply in_seq in Hi. lia.
Qed.

Section Means.

Lemma count_true_le (mask : list bool) : (count_true mask <= length mask)%nat.
Proof. apply filter_length_le. Qed.

Lemma count_true_mono {A : Type} (p q : A -> bool) (l : list A) :
  (forall x, p x = true -> q x = true) ->
  (count_true (map p l) <= count_true (map q l))%nat.
Proof.
  intros H. unfold count_true. induction l as [|x l IH]; simpl; [lia|].
  specialize (H x). destruct (p x), (q x); simpl;
    first [lia | discriminate (H eq_refl)].
Qed.

Lemma count_true_all {A : Type} (p : A -> bool) (l : list A) :
  Forall (fun x => p x = true) l -> count_true (map p l) = length l.
Proof.
  unfold count_true. induction 1 as [|x l Hx _ IH]; simpl; [reflexivity|].
  rewrite Hx. simpl. congruence.
Qed.

Lemma ratio_le (a b n : nat) :
  (a <= b)%nat ->
  (inject_Z (Z.of_nat a) / inject_Z (Z.of_nat n)
   <= inject_Z (Z.of_nat b) / inject_Z (Z.of_nat n))%Q.
Proof.
  intros H. unfold Qdiv. apply Qmult_le_compat_r.
  - rewrite <- Zle_Qle. lia.
  - apply Qinv_le_0_compat. change 0%Q with (inject_Z 0).
    rewrite <- Zle_Qle. lia.
Qed.

Lemma ratio_one (n : nat) :
  (1 <= n)%nat -> (inject_Z (Z.of_nat n) / inject_Z (Z.of_nat n) == 1)%Q.
Proof.
  intros H. apply Qmult_inv_r. change 0%Q with (inject_Z 0).
  rewrite inject_Z_injective. lia.
Qed.

Lemma mean_bool_bounds (mask : list bool) : (0 <= mean_bool mask <= 1)%Q.
Proof.
  unfold mean_bool. pose proof (count_true_le mask) as Hle. split.
  - apply Qle_trans
      with (inject_Z (Z.of_nat 0) / inject_Z (Z.of_nat (length mask)))%Q;
      [|apply ratio_le; lia].
    unfold Qdiv. cbn [Z.of_nat]. rewrite Qmult_0_l. apply Qle_refl.
  - destruct (length mask) as [|n] eqn:Hn.
    + assert (count_true mask = 0%nat) as -> by lia. discriminate.
    + rewrite <- (ratio_one (S n)) by lia. now apply ratio_le.
Qed.

Lemma lookup_map {A B : Type} (f : A -> B) (l : list A) (i : nat) :
  map f l !! i = match l !! i with Some x => Some (f x) | None => None end.
Proof.
  revert i. induction l as [|x l IH]; intros [|i]; simpl; try reflexivity.
  apply IH.
Qed.

Lemma lookup_range (a b : Z) (i : nat) (x : Z) :
  range a b !! i = Some x -> x = a + Z.of_nat i.
Proof.
  unfold range. rewrite lookup_map.
  destruct (seq 0 (Z.to_nat (b - a)) !! i) as [k|] eqn:Hk; [|discriminate].
  apply lookup_seq in Hk as [-> _]. intros E. inversion E. reflexivity.
Qed.

Lemma range_head (a b : Z) : a < b -> range a b !! 0%nat = Some a.
Proof.
  intros H. unfold range.
  destruct (Z.to_nat (b - a)) as [|k] eqn:Hk; [lia|].
  simpl. f_equal. lia.
Qed.

End Means.

(** The survival curve of any time-to-kill array never rises. *)
Lemma survival_step (ttk : list (option Z)) (t t' : Z) :
  t <= t' ->
  (mean_bool (map (ttk_gt t') ttk) <= mean_bool (map (ttk_gt t) ttk))%Q.
Proof.
  intros H. unfold mean_bool. rewrite !length_map. apply ratio_le.
  apply count_true_mono. intros [r|]; simpl; [|reflexivity].
  intros Hr. apply Z.ltb_lt in Hr. apply Z.ltb_lt. lia.
Qed.

(** Before the first round no boss has fallen. *)
Lemma survival_start (n : nat) (max_rounds : Z) (ttk : list (option Z)) :
  (1 <= n)%nat -> length ttk = n -> Forall (ttk_within 1 max_rounds) ttk ->
  (mean_bool (map (ttk_gt 0) ttk) == 1)%Q.
Proof.
  intros Hn Hlen Hall. unfold mean_bool.
  rewrite count_true_all, length_map, Hlen; [now apply ratio_one|].
  eapply Forall_impl; [exact Hall|].
  intros [r|] Hr; simpl in *; [apply Z.ltb_lt; lia|reflexivity].
Qed.

(** The time-to-kill array a finished run hands to the metrics. *)
Lemma ensures_run_encounter_mc (app : AppState) :
  0 <= enc_trials (options app) ->
  ensures (_run_encounter_mc app)
    (fun r =>
       match r with
       | None => True
       | Some m =>
           let max_rounds := enc_max_rounds (options app) in
           length (m_ttk m) = Z.to_nat (enc_trials (options app))
           /\ Forall (ttk_within 1 max_rounds) (m_ttk m)
           /\ m_times m = range 0 (max_rounds + 1)
           /\ m_survival_curve m
              = map (fun t => mean_bool (map (ttk_gt t) (m_ttk m))) (m_times m)
           /\ exists flags, m_tpk_prob m = mean_bool flags
       end).
Proof.
  intros Htrials. unfold _run_encounter_mc. cbv zeta.
  destruct (is_nil (party_table app)); [now apply ensures_ret|].
  destruct (is_nil (attacks_enabled_from_table _) && _); [now apply ensures_ret|].
  destruct (is_nil (_eff_party_dprs _ _)); [now apply ensures_ret|].
  destruct (Z.ltb_spec (enc_trials (options app)) 0); [apply ensures_raise|].
  apply (ensures_bind _ _
           (ttk_inv (Z.to_nat (enc_trials (options app)))
              (enc_max_rounds (options app)))).
  - apply ensures_forM_break.
    + intros st rnd Hrnd Hst. apply ensures_round_step; [|assumption].
      apply in_range in Hrnd. lia.
    + split; cbn [ttk]; [apply length_replicate|].
      apply Forall_replicate_intro. exact I.
  - intros st [Hlen Hall]. apply ensures_ret. cbn.
    repeat split; try assumption. eexists. reflexivity.
Qed.

(** ** AutoTuner: the settings it touches *)

Lemma set_hp_trials_twice (a : AppState) (h1 t1 h2 t2 : Z) :
  set_hp_trials (set_hp_trials a h1 t1) h2 t2 = set_hp_trials a h2 t2.
Proof. reflexivity. Qed.

Lemma set_hp_trials_self (a : AppState) :
  set_hp_trials a (boss_hp (options a)) (enc_trials (options a)) = a.
Proof. destruct a as [? ? ? ? []]. reflexivity. Qed.

Lemma set_hp_trials_options (a : AppState) (h t : Z) :
  boss_hp (options (set_hp_trials a h t)) = h
  /\ enc_trials (options (set_hp_trials a h t)) = t.
Proof. split; reflexivity. Qed.

Lemma same_but_settings_refl (a : AppState) : same_but_settings a a.
Proof. intros h t. reflexivity. Qed.

Lemma same_but_settings_set (a b : AppState) (h t : Z) :
  same_but_settings a b -> same_but_settings a (set_hp_trials b h t).
Proof. intros H h' t'. rewrite set_hp_trials_twice. apply H. Qed.

Lemma restore_settings (a b : AppState) :
  same_but_settings a b ->
  set_hp_trials b (Qfloor (inject_Z (boss_hp (options a)))) (enc_trials (options a))
  = a.
Proof. intros H. rewrite H, Qfloor_Z. apply set_hp_trials_self. Qed.

Lemma ensures_simulate_with_hp (app a : AppState) (hp : Q) (trials : Z) :
  same_but_settings app a ->
  ensures (simulate_with_hp a hp trials) (fun r => same_but_settings app (fst r)).
Proof.
  intros H. unfold simulate_with_hp.
  eapply ensures_bind; [apply ensures_any|]. intros metrics _.
  apply ensures_ret. cbn [fst]. now apply same_but_settings_set.
Qed.

Lemma ensures_escalate (app : AppState) (fuel : nat) (target : Q) (quick : Z) :
  forall (a : AppState) (high : Q) (med_high : emed),
    same_but_settings app a ->
    ensures (escalate fuel target quick a high med_high)
            (fun r => same_but_settings app (fst (fst r))).
Proof.
  induction fuel as [|fuel IH]; intros a high med_high Ha; cbn [escalate].
  - now apply ensures_ret.
  - destruct (elt med_high target); [|now apply ensures_ret].
    eapply ensures_bind; [now apply ensures_simulate_with_hp|].
    intros r Hr. now apply IH.
Qed.

Lemma ensures_bracket_search (app : AppState) :
  ensures (bracket_search app) (fun b => same_but_settings app (br_app b)).
Proof.
  unfold bracket_search. cbv zeta.
  eapply ensures_bind;
    [apply ensures_simulate_with_hp, same_but_settings_refl|]. intros r1 H1.
  eapply ensures_bind; [now apply ensures_simulate_with_hp|]. intros r2 H2.
  eapply ensures_bind; [now apply ensures_escalate|].
  intros [[a high] med_high] H3. cbn [fst] in H3.
  destruct (egt _ _).
  - eapply ensures_bind; [now apply ensures_simulate_with_hp|]. intros r4 H4.
    now apply ensures_ret.
  - now apply ensures_ret.
Qed.

Lemma ensures_bisection (app : AppState) (n : nat) (target : Q) (quick : Z) :
  forall (a : AppState) (low high : Q),
    same_but_settings app a ->
    ensures (bisection n target quick a low high)
            (fun r => same_but_settings app (fst (fst r))).
Proof.
  induction n as [|n IH]; intros a low high Ha; cbn [bisection].
  - now apply ensures_ret.
  - cbv zeta. eapply ensures_bind; [now apply ensures_simulate_with_hp|].
    intros r Hr. destruct (ege _ _); destruct (eclose _ _ _);
      first [now apply ensures_ret | now apply IH].
Qed.

(** C8. Whenever the bracket check fails after the doubling phase, the
    tuner reports infeasibility, produces no tuned HP, and leaves the
    application state, with its boss HP and its trial count, exactly as it
    was before tuning. *)
Theorem infeasible_tuning_restores_settings (app : AppState) (g g1 : rng)
    (b : Bracket) :
  bracket_search app g = inr (b, g1) ->
  bracketed b (tune_target_median (options app)) = false ->
  _on_auto_tune app g = inr ((Infeasible, app), g1).
Proof.
  intros Hb Hfail. unfold _on_auto_tune, bind. cbv zeta.
  rewrite Hb, Hfail. cbn [negb]. unfold ret.
  rewrite restore_settings; [reflexivity|].
  exact (ensures_bracket_search app g b g1 Hb).
Qed.

(** C7 (amended). The tuner is the bracket search and bisection followed,
    when the target was bracketed, by one run of the caller's
    configuration at the full trial count and at a boss HP equal to the
    final high bound rounded to the nearest integer, ties to even; that
    run's median and wipe probability are what is reported. *)
Theorem final_simulation_at_rounded_high (app : AppState) (g : rng) :
  _on_auto_tune app g = tuner_by_rounding app g.
Proof.
  unfold _on_auto_tune, tuner_by_rounding, final_bracket, bind. cbv zeta.
  destruct (bracket_search app g) as [e|[b g1]] eqn:Hb; [reflexivity|].
  pose proof (ensures_bracket_search app g b g1 Hb) as Hframe.
  destruct (bracketed b (tune_target_median (options app))); cbn [negb].
  - destruct (bisection 16 _ _ (br_app b) (br_low b) (br_high b) g1)
      as [e|[[[app2 low] high] g2]] eqn:Hbis; [reflexivity|].
    pose proof (ensures_bisection app 16 _ _ _ _ _ Hframe g1 _ g2 Hbis) as H2.
    cbn [fst snd] in H2 |- *. unfold ret at 1. cbv iota beta.
    unfold final_simulation, bind. cbv zeta. rewrite H2.
    destruct (_run_encounter_mc _ g2) as [e|[metrics g3]]; [reflexivity|].
    unfold ret. f_equal. f_equal. unfold final_report.
    destruct metrics as [m|].
    + rewrite set_hp_trials_twice. unfold summary.
      destruct (is_nil (finite (m_ttk m))); reflexivity.
    + rewrite set_hp_trials_twice, Qfloor_Z, set_hp_trials_self. reflexivity.
  - unfold ret. now rewrite restore_settings.
Qed.

(** The bisection of the duel stops at high = 6.5 and the final run is at
    a boss HP of 6. *)
Lemma duel_trace :
  bracket_ends (final_bracket (duel 12 1 20) (const_rng 0)) 1 (13 # 2)
  /\ tuned_at (_on_auto_tune (duel 12 1 20) (const_rng 0)) 6.
Proof. split; vm_compute; split; reflexivity. Qed.

(** C7 as stated fails. With a boss of 12 HP, a target median of 1 round
    and a party that fells the boss in the first round, the bracket is
    [1, 12], the first midpoint 6.5 is simulated at round(6.5) = 6, its
    median 1 meets the target, the bisection stops with high = 6.5, and
    the final run is at round(6.5) = 6 where the ceiling is 7. *)
Lemma final_simulation_not_at_ceiling :
  bracket_ends (final_bracket (duel 12 1 20) (const_rng 0)) 1 (13 # 2)
  /\ tuned_at (_on_auto_tune (duel 12 1 20) (const_rng 0)) 6
  /\ round_half_even (13 # 2) = 6
  /\ ceiling (13 # 2) = 7
  /\ ~ tuned_at (_on_auto_tune (duel 12 1 20) (const_rng 0)) (ceiling (13 # 2)).
Proof.
  destruct duel_trace as [Hends Htuned].
  split; [exact Hends|]. split; [exact Htuned|].
  split; [reflexivity|]. split; [reflexivity|].
  change (ceiling (13 # 2)) with 7.
  revert Htuned. clear Hends.
  generalize (_on_auto_tune (duel 12 1 20) (const_rng 0)).
  intros [e|[[[| |h med tpk c] app'] g']] H6 H7; try exact H6.
  destruct H6 as [H6 _]. destruct H7 as [H7 _]. congruence.
Qed.

(** A party that always fells the boss in the first round cannot be
    bracketed around a target median of 20 rounds. *)
Lemma one_shot_trace :
  match bracket_search (duel 10 20 50000) (const_rng 0) with
  | inr (b, _) => bracketed b (tune_target_median (options (duel 10 20 50000))) = false
  | inl _ => False
  end.
Proof. vm_compute. reflexivity. Qed.

Lemma infeasible_tuning_restores_settings_witness :
  exists (b : Bracket) (g1 : rng),
    bracket_search (duel 10 20 50000) (const_rng 0) = inr (b, g1)
    /\ bracketed b (tune_target_median (options (duel 10 20 50000))) = false
    /\ _on_auto_tune (duel 10 20 50000) (const_rng 0)
       = inr ((Infeasible, duel 10 20 50000), g1).
Proof.
  pose proof one_shot_trace as H.
  remember (bracket_search (duel 10 20 50000) (const_rng 0)) as r eqn:Hb.
  destruct r as [e|[b g1]]; [destruct H|].
  symmetry in Hb.
  exists b, g1. split; [reflexivity|]. split; [exact H|].
  exact (infeasible_tuning_restores_settings _ _ g1 b Hb H).
Defined.

Lemma skirmish_returns :
  match _run_encounter_mc skirmish mixed_rng with
  | inr (Some m, _) => m_ttk m = [Some 3; Some 2; Some 1]
  | _ => False
  end.
Proof. vm_compute. reflexivity. Qed.

Lemma boss_ac_under_rider_at_least_1_witness :
  rider_mode (options skirmish) = RIDER_AC
  /\ exists acs,
       boss_current_ac (options skirmish) 2 [0; 18] [[1; 0]; [0; 0]] !! 0%nat
       = Some acs
       /\ acs !! 0%nat = Some (Z.max 1 (0 - 2))
       /\ 1 <= Z.max 1 (0 - 2).
Proof.
  split; [reflexivity|].
  apply (boss_ac_under_rider_at_least_1 (options skirmish) 2 [0; 18]
           [[1; 0]; [0; 0]] 0 0 [1; 0] 0 1);
    first [reflexivity | lia].
Defined.

(** ** EncounterSimulator: the run returns on well-formed configurations *)

Section Shapes.
Context {A : Type}.

Lemma shape2_replicate (n P : nat) (row : list A) :
  length row = P -> shape2 n P (replicate n row).
Proof.
  intros H. split; [apply length_replicate|]. now apply Forall_replicate_intro.
Qed.

Lemma shape2_alter (n P : nat) (f : list A -> list A) (t : nat)
    (m : list (list A)) :
  (forall row, length (f row) = length row) ->
  shape2 n P m -> shape2 n P (alter f t m).
Proof.
  intros Hf [Hn Hrows]. split; [now rewrite length_alter|].
  apply Forall_alter; [assumption|]. intros row _ Hrow. now rewrite Hf.
Qed.

Lemma shape2_lookup (n P : nat) (m : list (list A)) (t j : nat) :
  shape2 n P m -> (t < n)%nat -> (j < P)%nat ->
  exists row a, m !! t = Some row /\ length row = P /\ row !! j = Some a.
Proof.
  intros [Hn Hrows] Ht Hj.
  destruct (lookup_lt_is_Some_2 m t) as [row Hrow]; [lia|].
  pose proof (Forall_lookup_1 _ _ _ _ Hrows Hrow) as Hlen. cbv beta in Hlen.
  destruct (lookup_lt_is_Some_2 row j) as [a Ha]; [lia|].
  now exists row, a.
Qed.

Lemma returns_at_index2 (n P : nat) (m : list (list A)) (t j : nat) :
  shape2 n P m -> (t < n)%nat -> (j < P)%nat ->
  returns (at_index2 m t j) (fun _ => True).
Proof.
  intros Hm Ht Hj. destruct (shape2_lookup n P m t j Hm Ht Hj) as (row & a & Hr & _ & Ha).
  unfold at_index2, at_index. intros g. unfold bind. rewrite Hr. cbn.
  rewrite Ha. now eexists _, _.
Qed.

Lemma returns_row (n P : nat) (m : list (list A)) (t : nat) :
  shape2 n P m -> (t < n)%nat ->
  returns (at_index m t) (fun row => length row = P).
Proof.
  intros [Hn Hrows] Ht. unfold at_index.
  destruct (lookup_lt_is_Some_2 m t) as [row Hrow]; [lia|]. rewrite Hrow.
  apply returns_ret. exact (Forall_lookup_1 _ _ _ _ Hrows Hrow).
Qed.

End Shapes.

Lemma shape2_zip_with {A B C : Type} (f : A -> B -> C) (n P : nat)
    (a : list (list A)) (b : list (list B)) :
  shape2 n P a -> shape2 n P b -> shape2 n P (zip_with (zip_with f) a b).
Proof.
  intros [Ha Hra] [Hb Hrb]. split; [rewrite length_zip_with; lia|].
  clear Ha Hb. revert b Hrb.
  induction Hra as [|x a Hx _ IH]; intros [|y b] Hrb; cbn; try constructor.
  - inversion Hrb; subst. rewrite length_zip_with. lia.
  - inversion Hrb; subst. now apply IH.
Qed.

Lemma shape2_map {A B : Type} (f : A -> B) (n P : nat) (m : list (list A)) :
  shape2 n P m -> shape2 n P (map (map f) m).
Proof.
  intros [Hn Hrows]. split; [now rewrite length_map|].
  clear Hn. induction Hrows as [|row m Hrow _ IH]; cbn; [constructor|].
  constructor; [now rewrite length_map|assumption].
Qed.

Lemma shape2_masked {A : Type} (f : A -> A) (n P : nat)
    (a : list (list A)) (mask : list (list bool)) :
  shape2 n P a -> shape2 n P mask ->
  shape2 n P (zip_with (masked_update f) a mask).
Proof.
  intros [Ha Hra] [Hb Hrb]. split; [rewrite length_zip_with; lia|].
  clear Ha Hb. revert mask Hrb.
  induction Hra as [|x a Hx _ IH]; intros [|y b] Hrb; cbn; try constructor.
  - now rewrite masked_update_length.
  - inversion Hrb; subst. now apply IH.
Qed.

Lemma where_from_bounds (mask : list bool) : forall start,
  Forall (fun i => (start <= i < start + length mask)%nat) (where_from start mask).
Proof.
  induction mask as [|b mask IH]; intros start; cbn [where_from]; [constructor|].
  specialize (IH (S start)).
  assert (H : Forall (fun i => (start <= i < start + length (b :: mask))%nat)
                (where_from (S start) mask)).
  { eapply Forall_impl; [exact IH|]. cbn. intros i Hi. lia. }
  destruct b; [constructor; [cbn; lia|assumption]|assumption].
Qed.

Lemma where_bounds (mask : list bool) :
  Forall (fun i => (i < length mask)%nat) (where_ mask).
Proof.
  eapply Forall_impl; [apply (where_from_bounds mask 0)|]. cbn. intros i Hi. lia.
Qed.

Lemma returns_random_unit : returns random_unit (fun _ => True).
Proof.
  unfold random_unit. eapply returns_bind; [apply returns_draw|].
  intros; now apply returns_ret.
Qed.

Lemma returns_boss_goes_first (init_mode : string) (n : nat) :
  returns (boss_goes_first init_mode n) (fun _ => True).
Proof.
  unfold boss_goes_first.
  destruct (String.eqb init_mode "boss_first"); [now apply returns_ret|].
  destruct (String.eqb init_mode "party_first"); [now apply returns_ret|].
  eapply returns_bind; [apply returns_replicateM, returns_random_unit|].
  intros; now apply returns_ret.
Qed.

Lemma returns_gamma_rng (mean cv : Q) : returns (_gamma_rng mean cv) (fun _ => True).
Proof.
  unfold _gamma_rng. cbv zeta.
  destruct (Qle_bool (Qmax 0 mean) 0) eqn:Hmean; [now apply returns_ret|].
  assert (Hm : (0 < Qmax 0 mean)%Q).
  { apply Qnot_le_lt. intros H. apply Qle_bool_iff in H. congruence. }
  assert (Hcv : (0 < Qmax (1 # 1000000) cv)%Q).
  { apply Qlt_le_trans with (1 # 1000000)%Q; [reflexivity|apply Q.le_max_l]. }
  set (c := Qmax (1 # 1000000) cv) in *. set (mu := Qmax 0 mean) in *.
  assert (Hk : (0 < 1 / (c * c))%Q).
  { unfold Qdiv. rewrite Qmult_1_l. apply Qinv_lt_0_compat.
    now apply Qmult_lt_0_compat. }
  assert (Hth : (0 < mu / (1 / (c * c)))%Q).
  { unfold Qdiv at 1. apply Qmult_lt_0_compat; [assumption|].
    now apply Qinv_lt_0_compat. }
  unfold gamma.
  assert (E1 : Qle_bool 0 (1 / (c * c)) = true)
    by (apply Qle_bool_iff; now apply Qlt_le_weak).
  assert (E2 : Qle_bool 0 (mu / (1 / (c * c))) = true)
    by (apply Qle_bool_iff; now apply Qlt_le_weak).
  rewrite E1, E2. cbn [negb orb].
  eapply returns_bind; [apply returns_draw|]. intros a _.
  eapply returns_bind; [apply returns_draw|]. intros b _.
  now apply returns_ret.
Qed.

Lemma returns_party_phase (P : nat) (eff_means : list Q) (dpr_cv resist regen : Q)
    (rnd : Z) (mask : list bool) (st : EncState) (n : nat) :
  length eff_means = P -> enc_shape n P st ->
  returns (party_phase P eff_means dpr_cv resist regen rnd mask st)
          (enc_shape n P).
Proof.
  intros Heff (Hhp & Halive & Hrider & Httk). unfold party_phase. cbv zeta.
  apply (returns_bind _ _ (fun _ => True)).
  - apply returns_foldM; [|exact I]. intros dmg j Hj _.
    destruct (negb (any _)); [now apply returns_ret|].
    apply in_seq in Hj.
    eapply returns_bind; [apply returns_at_index; lia|]. intros means _.
    eapply returns_bind; [apply returns_replicateM, returns_gamma_rng|].
    intros; now apply returns_ret.
  - intros dmg _. apply returns_ret.
    repeat split; cbn; try apply Hhp; try apply Halive; try apply Hrider.
    now rewrite masked_update_length.
Qed.

Lemma returns_choice {A : Type} (l : list A) :
  l <> [] -> returns (choice l) (fun a => In a l).
Proof.
  intros Hne. unfold choice.
  eapply returns_bind; [apply returns_draw|]. intros x _.
  assert (Hlt : (N.to_nat x mod length l < length l)%nat).
  { apply Nat.mod_upper_bound. destruct l; [congruence|discriminate]. }
  destruct (lookup_lt_is_Some_2 l _ Hlt) as [a Ha]. rewrite Ha.
  apply returns_ret. apply list_elem_of_In. eapply list_elem_of_lookup_2, Ha.
Qed.

Lemma in_delete {A : Type} (i : nat) (l : list A) (a : A) :
  In a (delete i l) -> In a l.
Proof.
  revert i. induction l as [|x l IH]; intros [|i]; cbn; auto.
  intros [->|H]; [now left|right; eapply IH, H].
Qed.

Lemma returns_choice_without_replacement {A : Type} (k : nat) : forall l : list A,
  (k <= length l)%nat ->
  returns (choice_without_replacement k l) (fun r => Forall (fun a => In a l) r).
Proof.
  induction k as [|k IH]; intros l Hk; cbn [choice_without_replacement].
  - apply returns_ret. constructor.
  - eapply returns_bind; [apply returns_draw|]. intros x _. cbv zeta.
    assert (Hlt : (N.to_nat x mod length l < length l)%nat).
    { apply Nat.mod_upper_bound. lia. }
    destruct (lookup_lt_is_Some_2 l _ Hlt) as [a Ha]. rewrite Ha.
    eapply returns_bind.
    + apply IH. rewrite length_delete by eauto. lia.
    + intros r Hr. apply returns_ret. constructor.
      * apply list_elem_of_In. eapply list_elem_of_lookup_2, Ha.
      * eapply Forall_impl; [exact Hr|]. intros b Hb. eapply in_delete, Hb.
Qed.

Lemma returns_apply_damage (n P t idx : nat) (dealt : Q) (st : BossSt) :
  boss_shape n P st -> (t < n)%nat -> (idx < P)%nat ->
  returns (apply_damage t idx dealt st) (boss_shape n P).
Proof.
  intros (Hhp & Halive & Htrig) Ht Hidx. unfold apply_damage. cbv zeta.
  assert (Hhp' : shape2 n P (alter (alter (fun h => (h - dealt)%Q) idx) t (b_hp st))).
  { apply shape2_alter; [|assumption]. intros row. apply length_alter. }
  eapply returns_bind; [now apply (returns_at_index2 n P)|]. intros h _.
  eapply returns_bind; [now apply (returns_at_index2 n P)|]. intros a _.
  apply returns_ret. split; [exact Hhp'|]. split; [|exact Htrig].
  cbn [b_alive]. destruct (Qle_bool h 0 && a); [|exact Halive].
  apply shape2_alter; [|assumption]. intros row. apply length_insert.
Qed.

Lemma save_index_bound (k : string) :
  In k SAVE_KEYS ->
  exists si, (list_to_map (zip SAVE_KEYS (seq 0 (length SAVE_KEYS)))
              : gmap string nat) !! k = Some si
             /\ (si < length SAVE_KEYS)%nat.
Proof.
  intros H. cbn in H.
  destruct H as [<-|[<-|[<-|[<-|[<-|[<-|[]]]]]]];
    eexists; (split; [vm_compute; reflexivity|cbn; lia]).
Qed.

Lemma returns_use_step (o : Options) (thp_avg : Q) (pc_saves : list (list Z))
    (current_ac : list (list Z)) (current_mode : list (list string))
    (round_pool : list (option (list nat))) (atk : Attack)
    (st : BossSt) (t n P : nat) :
  let save_index : gmap string nat :=
    list_to_map (zip SAVE_KEYS (seq 0 (length SAVE_KEYS))) in
  (kind atk = "save"%string -> In (upper (save_stat atk)) SAVE_KEYS) ->
  shape2 P (length SAVE_KEYS) pc_saves ->
  shape2 n P current_ac -> shape2 n P current_mode ->
  pools_within n P round_pool -> (t < n)%nat -> boss_shape n P st ->
  returns (use_step o thp_avg pc_saves save_index current_ac current_mode
             round_pool atk st t)
          (boss_shape n P).
Proof.
  intros save_index Hsave Hsaves Hac Hmode [Hpl Hpools] Ht Hst.
  pose proof Hst as (Hhp & Halive & Htrig). unfold use_step.
  destruct (lookup_lt_is_Some_2 round_pool t) as [pool Hpool]; [lia|].
  unfold at_index at 1. rewrite Hpool.
  apply (returns_bind _ _ (fun p => p = pool)); [now apply returns_ret|].
  intros ? ->. pose proof (Forall_lookup_1 _ _ _ _ Hpools Hpool) as Hwithin.
  destruct pool as [pool|]; [|now apply returns_ret]. cbv beta iota in Hwithin.
  destruct (length pool =? 0)%nat; [now apply returns_ret|].
  eapply returns_bind; [now apply (returns_row n P)|]. intros alive_t Hrow.
  cbv zeta.
  set (alive_pool := List.filter (fun idx => nth idx alive_t false) pool).
  set (alive_now := where_ alive_t).
  destruct ((length alive_pool =? 0)%nat && (length alive_now =? 0)%nat) eqn:Hempty;
    [now apply returns_ret|].
  set (chosen := if (length alive_pool =? 0)%nat then alive_now else alive_pool).
  assert (Hchosen : chosen <> [] /\ Forall (fun i => (i < P)%nat) chosen).
  { unfold chosen. destruct (length alive_pool =? 0)%nat eqn:Hp.
    - cbn in Hempty. split.
      + destruct alive_now; [discriminate Hempty|discriminate].
      + unfold alive_now. rewrite <- Hrow. apply where_bounds.
    - split.
      + destruct alive_pool; [discriminate Hp|discriminate].
      + unfold alive_pool. apply List.Forall_forall. intros i Hi.
        apply filter_In in Hi as [Hi _].
        rewrite List.Forall_forall in Hwithin. now apply Hwithin. }
  destruct Hchosen as [Hne Hlt].
  apply (returns_bind _ _ (fun target => (target < P)%nat)).
  { eapply returns_mono; [now apply returns_choice|].
    intros a Ha. rewrite List.Forall_forall in Hlt. now apply Hlt. }
  intros target Htarget.
  eapply returns_bind; [now apply (returns_at_index2 n P)|]. intros a _.
  destruct (negb a); [now apply returns_ret|].
  apply (returns_bind _ _ (fun r => shape2 n P (snd r))).
  - destruct (String.eqb (kind atk) "save") eqn:Hkind.
    + apply String.eqb_eq in Hkind.
      destruct (save_index_bound _ (Hsave Hkind)) as (si & Hsi & Hlt6).
      fold save_index in Hsi. rewrite Hsi.
      eapply returns_bind; [now apply (returns_at_index2 P (length SAVE_KEYS))|].
      intros bonus _.
      eapply returns_bind; [apply (returns_randint 1 20); lia|]. intros roll _.
      cbv zeta.
      eapply returns_bind; [apply returns_roll_damage|]. intros l Hl.
      eapply returns_bind; [apply returns_at_index; cbv beta in Hl; lia|].
      intros dmg _. now apply returns_ret.
    + eapply returns_bind; [apply (returns_randint 1 20); lia|]. intros r1 _.
      eapply returns_bind; [apply (returns_randint 1 20); lia|]. intros r2 _.
      eapply returns_bind; [now apply (returns_at_index2 n P)|]. intros mode _.
      cbv zeta.
      eapply returns_bind; [now apply (returns_at_index2 n P)|]. intros ac _.
      match goal with |- returns (if ?c then _ else _) _ => destruct c end;
        [now apply returns_ret|].
      apply (returns_bind _ _ (fun _ => True)).
      * match goal with |- returns (if ?c then _ else _) _ => destruct c end.
        -- apply returns_roll_damage_crunchy_crit.
        -- eapply returns_bind; [apply returns_roll_damage|]. intros l Hl.
           apply returns_at_index. cbv beta in Hl. lia.
      * intros dealt _. apply returns_ret. cbn [snd].
        destruct (is_melee atk || negb (rider_melee_only o)); [|assumption].
        apply shape2_alter; [|assumption]. intros row. apply length_insert.
  - intros r Hr. apply returns_apply_damage; [|assumption|assumption].
    split; [exact Hhp|]. split; [exact Halive|exact Hr].
Qed.

Lemma returns_area_damage (thp_avg avg : Q) (k : Z) (st : BossSt) (t n P : nat) :
  0 <= k -> (t < n)%nat -> boss_shape n P st ->
  returns (area_damage thp_avg avg k st t) (boss_shape n P).
Proof.
  intros Hk Ht Hst. pose proof Hst as (_ & Halive & _). unfold area_damage.
  eapply returns_bind; [now apply (returns_row n P)|]. intros alive_t Hrow.
  cbv zeta. destruct (length (where_ alive_t) =? 0)%nat; [now apply returns_ret|].
  destruct (Z.min k (Z.of_nat (length (where_ alive_t))) <? 0) eqn:Hneg;
    [apply Z.ltb_lt in Hneg; lia|].
  apply (returns_bind _ _ (fun targets => Forall (fun i => (i < P)%nat) targets)).
  - eapply returns_mono; [apply returns_choice_without_replacement; lia|].
    intros targets Hin. eapply Forall_impl; [exact Hin|]. intros i Hi.
    pose proof (where_bounds alive_t) as Hb.
    rewrite List.Forall_forall in Hb. specialize (Hb i Hi).
    cbv beta in Hb, Hrow. lia.
  - intros targets Htargets. apply returns_foldM; [|assumption].
    intros b idx Hidx Hb.
    eapply returns_bind; [apply returns_gamma_rng|]. intros dealt _. cbv zeta.
    rewrite List.Forall_forall in Htargets.
    apply returns_apply_damage; [assumption|assumption|now apply Htargets].
Qed.

Lemma shape2_boss_current_ac (o : Options) (n P : nat) (pc_AC : list Z)
    (rem : list (list Z)) :
  length pc_AC = P -> shape2 n P rem -> shape2 n P (boss_current_ac o n pc_AC rem).
Proof.
  intros Hac Hrem. unfold boss_current_ac. cbv zeta.
  destruct (String.eqb (rider_mode o) RIDER_AC).
  - apply shape2_zip_with; [now apply shape2_replicate|assumption].
  - now apply shape2_replicate.
Qed.

Lemma shape2_boss_current_mode (o : Options) (n P : nat) (rem : list (list Z)) :
  shape2 n P rem -> shape2 n P (boss_current_mode o n P rem).
Proof.
  intros Hrem. unfold boss_current_mode. cbv zeta.
  assert (H : shape2 n P (replicate n (replicate P (mode_select o))))
    by (apply shape2_replicate, length_replicate).
  destruct (String.eqb (rider_mode o) RIDER_ADV); [|assumption].
  now apply shape2_zip_with.
Qed.

Lemma where_ongoing_bounds (ttk : list (option Z)) (t : nat) :
  In t (where_ (ongoing_of ttk)) -> (t < length ttk)%nat.
Proof.
  intros H. pose proof (where_bounds (ongoing_of ttk)) as Hb.
  rewrite List.Forall_forall in Hb. specialize (Hb t H). cbv beta in Hb.
  unfold ongoing_of in Hb. now rewrite length_map in Hb.
Qed.

Lemma returns_round_pool (spread : Z) (n P : nat) (alive : list (list bool))
    (ts : list nat) :
  shape2 n P alive -> Forall (fun t => (t < n)%nat) ts ->
  returns
    (foldM (fun round_pool t =>
              alive_t <- at_index alive t ;;
              let alive := where_ alive_t in
              if (length alive =? 0)%nat then ret round_pool
              else
                let k := Z.min spread (Z.of_nat (length alive)) in
                pool <- choice_without_replacement (Z.to_nat k) alive ;;
                ret (<[t := Some pool]> round_pool))
           ts (replicate n None))
    (pools_within n P).
Proof.
  intros Halive Hts. apply returns_foldM.
  - intros pools t Ht [Hlen Hpools].
    rewrite List.Forall_forall in Hts. specialize (Hts t Ht). cbv beta in Hts.
    eapply returns_bind; [now apply (returns_row n P)|]. intros alive_t Hrow.
    cbv zeta. destruct (length (where_ alive_t) =? 0)%nat;
      [apply returns_ret; now split|].
    eapply returns_bind; [apply returns_choice_without_replacement; lia|].
    intros pool Hpool. apply returns_ret. split; [now rewrite length_insert|].
    apply Forall_insert; [assumption|].
    eapply Forall_impl; [exact Hpool|]. intros i Hi.
    pose proof (where_bounds alive_t) as Hb.
    rewrite List.Forall_forall in Hb. specialize (Hb i Hi).
    cbv beta in Hb, Hrow. lia.
  - split; [apply length_replicate|]. now apply Forall_replicate_intro.
Qed.

Lemma returns_boss_phase (o : Options) (P : nat) (attacks : list Attack)
    (thp_avg : Q) (spread : Z) (pc_AC : list Z) (pc_saves : list (list Z))
    (rnd : Z) (st : EncState) (n : nat) :
  let save_index : gmap string nat :=
    list_to_map (zip SAVE_KEYS (seq 0 (length SAVE_KEYS))) in
  Forall (fun atk => kind atk = "save"%string ->
                     In (upper (save_stat atk)) SAVE_KEYS) attacks ->
  (lair_enabled o = true -> 0 <= lair_targets o) ->
  (rech_enabled o = true -> 0 <= rech_targets o) ->
  length pc_AC = P -> shape2 P (length SAVE_KEYS) pc_saves ->
  enc_shape n P st ->
  returns (boss_phase o P attacks thp_avg spread pc_AC pc_saves save_index rnd st)
          (enc_shape n P).
Proof.
  intros save_index Hatk Hlair Hrech Hac Hsaves (Hhp & Halive & Hrider & Httk).
  unfold boss_phase. cbv zeta.
  assert (Hlen : length (ongoing_of (ttk st)) = n)
    by (unfold ongoing_of; now rewrite length_map).
  rewrite Hlen.
  assert (Hts : Forall (fun t => (t < n)%nat) (where_ (ongoing_of (ttk st)))).
  { apply List.Forall_forall. intros t Hin. rewrite <- Httk.
    now apply where_ongoing_bounds. }
  pose proof Hts as Hts'. rewrite List.Forall_forall in Hts'.
  eapply returns_bind; [now apply (returns_round_pool _ n P)|].
  intros round_pool Hpools.
  apply (returns_bind _ _ (boss_shape n P)).
  { apply returns_foldM.
    - intros b atk Hin Hb. destruct (uses_per_round atk <=? 0);
        [now apply returns_ret|].
      apply returns_foldM; [|assumption]. intros b1 _ _ Hb1.
      apply returns_foldM; [|assumption]. intros b2 t Ht Hb2.
      apply returns_use_step; try assumption.
      + rewrite List.Forall_forall in Hatk. now apply Hatk.
      + now apply shape2_boss_current_ac.
      + now apply shape2_boss_current_mode.
      + now apply Hts'.
    - split; [assumption|]. split; [assumption|].
      apply shape2_replicate, length_replicate. }
  intros b1 Hb1.
  apply (returns_bind _ _ (boss_shape n P)).
  { destruct (lair_enabled o) eqn:Hen; cbn [andb]; [|now apply returns_ret].
    destruct (rnd mod Z.max 1 (lair_every_n o) =? 0); [|now apply returns_ret].
    apply returns_foldM; [|assumption]. intros b t Ht Hb.
    apply returns_area_damage; [now apply Hlair|now apply Hts'|assumption]. }
  intros b2 Hb2.
  apply (returns_bind _ _ (boss_shape n P)).
  { destruct (rech_enabled o) eqn:Hen; [|now apply returns_ret]. cbv zeta.
    apply returns_foldM; [|assumption]. intros b t Ht Hb.
    eapply returns_bind; [apply returns_random_unit|]. intros u _.
    destruct (negb (Qle_bool (parse_recharge (recharge_text o)) u));
      [|now apply returns_ret].
    apply returns_area_damage; [now apply Hrech|now apply Hts'|assumption]. }
  intros b3 (Hb_hp & Hb_alive & Hb_trig). apply returns_ret.
  split; [exact Hb_hp|]. split; [exact Hb_alive|]. split; [|exact Httk].
  cbn [rider_rem]. apply shape2_masked; [now apply shape2_map|assumption].
Qed.

Lemma returns_encounter_round_step (o : Options) (n P : nat) (attacks : list Attack)
    (eff_means : list Q) (dpr_cv resist regen thp_avg : Q) (spread : Z)
    (init_mode : string) (pc_AC : list Z) (pc_saves : list (list Z))
    (st : EncState) (rnd : Z) :
  let save_index : gmap string nat :=
    list_to_map (zip SAVE_KEYS (seq 0 (length SAVE_KEYS))) in
  Forall (fun atk => kind atk = "save"%string ->
                     In (upper (save_stat atk)) SAVE_KEYS) attacks ->
  (lair_enabled o = true -> 0 <= lair_targets o) ->
  (rech_enabled o = true -> 0 <= rech_targets o) ->
  length eff_means = P -> length pc_AC = P ->
  shape2 P (length SAVE_KEYS) pc_saves ->
  enc_shape n P st ->
  returns (round_step o n P attacks eff_means dpr_cv resist regen thp_avg spread
             init_mode pc_AC pc_saves save_index st rnd)
          (fun r => match r with Some st' => enc_shape n P st' | None => True end).
Proof.
  intros save_index Hatk Hlair Hrech Heff Hac Hsaves Hst. unfold round_step.
  cbv zeta. destruct (negb (any (ongoing_of (ttk st)))); [now apply returns_ret|].
  eapply returns_bind; [apply returns_boss_goes_first|]. intros flags _.
  apply (returns_bind _ _ (enc_shape n P)).
  { match goal with |- returns (if ?c then _ else _) _ => destruct c end;
      [now apply returns_party_phase|now apply returns_ret]. }
  intros st1 Hst1.
  apply (returns_bind _ _ (enc_shape n P)).
  { match goal with |- returns (if ?c then _ else _) _ => destruct c end;
      [now apply returns_boss_phase|now apply returns_ret]. }
  intros st2 Hst2.
  apply (returns_bind _ _ (enc_shape n P)).
  { match goal with |- returns (if ?c then _ else _) _ => destruct c end;
      [now apply returns_party_phase|now apply returns_ret]. }
  intros st3 Hst3. now apply returns_ret.
Qed.

Lemma returns_forM_break {S X : Type} (body : S -> X -> M (option S))
    (inv : S -> Prop) (l : list X) :
  (forall s x, In x l -> inv s ->
     returns (body s x) (fun r => match r with Some s' => inv s' | None => True end)) ->
  forall st, inv st -> returns (forM_break body l st) inv.
Proof.
  induction l as [|x l IH]; intros Hbody st Hst; cbn [forM_break].
  - now apply returns_ret.
  - eapply returns_bind.
    + apply Hbody; [now left|exact Hst].
    + intros [s'|] Hs; cbn beta iota in Hs.
      * apply IH; [|assumption]. intros s x' Hx'. apply Hbody. now right.
      * now apply returns_ret.
Qed.

Lemma returns_run_encounter_mc (app : AppState) :
  well_formed app -> returns (_run_encounter_mc app) (fun _ => True).
Proof.
  intros (Htrials & Hlair & Hrech & Hatk). unfold _run_encounter_mc. cbv zeta.
  destruct (is_nil (party_table app)); [now apply returns_ret|].
  match goal with |- returns (if ?c then _ else _) _ => destruct c end;
    [now apply returns_ret|].
  destruct (is_nil (_eff_party_dprs app (enc_use_nova (options app))));
    [now apply returns_ret|].
  destruct (enc_trials (options app) <? 0) eqn:Hneg;
    [apply Z.ltb_lt in Hneg; lia|].
  set (n := Z.to_nat (enc_trials (options app))).
  set (P := length (map Name (party_table app))).
  assert (HP : length (party_table app) = P) by (unfold P; now rewrite length_map).
  apply (returns_bind _ _ (enc_shape n P)).
  - apply returns_forM_break.
    + intros st rnd _ Hst. apply returns_encounter_round_step; try assumption.
      * now rewrite length_map.
      * now rewrite length_map.
      * split; [now rewrite length_map|]. apply List.Forall_forall.
        intros row Hrow. apply in_map_iff in Hrow as (pc & <- & _).
        now rewrite length_map.
    + split; [apply shape2_replicate; now rewrite length_map|].
      split; [apply shape2_replicate, length_replicate|].
      split; [apply shape2_replicate, length_replicate|].
      apply length_replicate.
  - intros st _. now apply returns_ret.
Qed.

Lemma well_formed_skirmish : well_formed skirmish.
Proof.
  split; [cbn; lia|]. split; [cbn; intros _; lia|]. split; [cbn; intros _; lia|].
  cbn. repeat constructor; cbn; intros H; first [discriminate H | tauto].
Qed.

(** C6. For every run of the encounter simulator with at least one trial
    and a round cap of at least 0: on a well-formed configuration the run
    returns; and whenever it returns metrics (whatever the boss HP at the
    start), the survival curve has one entry per time 0..enc_max_rounds and
    never rises from one time to the next, its entry at time 0 is 1, the
    wipe probability lies in [0, 1], and every finite entry of the ttk
    array is at most enc_max_rounds. *)
Theorem encounter_metrics_invariants (app : AppState) (g : rng) :
  1 <= enc_trials (options app) ->
  0 <= enc_max_rounds (options app) ->
  let max_rounds := enc_max_rounds (options app) in
  (well_formed app -> exists r g', _run_encounter_mc app g = inr (r, g'))
  /\ forall (m : Metrics) (g' : rng),
       _run_encounter_mc app g = inr (Some m, g') ->
       m_times m = range 0 (max_rounds + 1)
       /\ length (m_survival_curve m) = length (m_times m)
       /\ (forall (i : nat) (s1 s2 : Q),
             m_survival_curve m !! i = Some s1 ->
             m_survival_curve m !! S i = Some s2 -> (s2 <= s1)%Q)
       /\ (exists s0, m_survival_curve m !! 0%nat = Some s0 /\ (s0 == 1)%Q)
       /\ (0 <= m_tpk_prob m <= 1)%Q
       /\ Forall (fun x => match x with Some r => r <= max_rounds | None => True end)
                 (m_ttk m).
Proof.
  intros Htrials Hrounds. cbv zeta. split.
  { intros Hwf. destruct (returns_run_encounter_mc app Hwf g) as (r & g' & E & _).
    now exists r, g'. }
  intros m g' Hrun.
  assert (H0 : 0 <= enc_trials (options app)) by lia.
  pose proof (ensures_run_encounter_mc app H0 g (Some m) g' Hrun) as H.
  cbv beta iota zeta in H.
  destruct H as (Hlen & Hall & Htimes & Hsurv & flags & Htpk).
  split; [assumption|]. split; [now rewrite Hsurv, length_map|].
  split; [|split; [|split]].
  - intros i s1 s2 H1 H2. rewrite Hsurv, lookup_map in H1, H2.
    destruct (m_times m !! i) as [t|] eqn:Ht; [|discriminate].
    destruct (m_times m !! S i) as [t'|] eqn:Ht'; [|discriminate].
    rewrite Htimes in Ht, Ht'.
    apply lookup_range in Ht, Ht'. inversion H1. inversion H2. subst.
    apply survival_step. lia.
  - rewrite Hsurv, lookup_map, Htimes, range_head by lia.
    eexists. split; [reflexivity|].
    apply (survival_start (Z.to_nat (enc_trials (options app)))
             (enc_max_rounds (options app))); [lia|assumption|assumption].
  - rewrite Htpk. apply mean_bool_bounds.
  - eapply Forall_impl; [exact Hall|]. intros [r|] Hr; simpl in *; [lia|exact I].
Qed.

Lemma encounter_metrics_invariants_witness :
  1 <= enc_trials (options skirmish) /\ 0 <= enc_max_rounds (options skirmish)
  /\ well_formed skirmish
  /\ exists (m : Metrics) (g' : rng),
       _run_encounter_mc skirmish mixed_rng = inr (Some m, g')
       /\ m_times m = range 0 (enc_max_rounds (options skirmish) + 1)
       /\ length (m_survival_curve m) = length (m_times m)
       /\ (forall (i : nat) (s1 s2 : Q),
             m_survival_curve m !! i = Some s1 ->
             m_survival_curve m !! S i = Some s2 -> (s2 <= s1)%Q)
       /\ (exists s0, m_survival_curve m !! 0%nat = Some s0 /\ (s0 == 1)%Q)
       /\ (0 <= m_tpk_prob m <= 1)%Q
       /\ Forall (fun x => match x with
                           | Some r => r <= enc_max_rounds (options skirmish)
                           | None => True
                           end) (m_ttk m).
Proof.
  assert (H1 : 1 <= enc_trials (options skirmish)) by (cbn; lia).
  assert (H2 : 0 <= enc_max_rounds (options skirmish)) by (cbn; lia).
  refine (conj H1 (conj H2 (conj well_formed_skirmish _))).
  pose proof skirmish_returns as H.
  remember (_run_encounter_mc skirmish mixed_rng) as r eqn:Hrun.
  destruct r as [e|[[m|] g']]; [destruct H| |destruct H].
  symmetry in Hrun.
  exists m, g'. split; [reflexivity|].
  exact (proj2 (encounter_metrics_invariants skirmish mixed_rng H1 H2) m g' Hrun).
Defined.

(** * Further properties of the engine *)

Import Reference.

(** ** ProbabilityModel: closed forms of the hit table *)

Lemma classify_threshold (ac ab r : Z) :
  1 <= r <= 20 -> classify ac ab r = classify (hit_threshold ac ab) 0 r.
Proof.
  intros Hr. unfold classify, hit_threshold.
  destruct (r =? 1) eqn:E1; [reflexivity|].
  destruct (r =? 20) eqn:E20; [reflexivity|].
  apply Z.eqb_neq in E1, E20. f_equal.
  destruct (Z.leb_spec ac (r + ab)), (Z.leb_spec (Z.max 2 (Z.min 20 (ac - ab))) (r + 0));
    first [reflexivity | lia].
Qed.

Lemma flat_map_ext_in {A B : Type} (f g : A -> list B) (l : list A) :
  (forall a, In a l -> f a = g a) -> flat_map f l = flat_map g l.
Proof.
  induction l as [|x l IH]; intros H; cbn [flat_map]; [reflexivity|].
  rewrite (H x) by now left. rewrite IH; [reflexivity|].
  intros a Ha. apply H. now right.
Qed.

(** The table depends on the armour class and the bonus through the
    threshold alone. *)
Lemma hit_probs_threshold (ac ab : Z) (mode : string) :
  hit_probs ac ab mode = hit_probs (hit_threshold ac ab) 0 mode.
Proof.
  unfold hit_probs.
  assert (E1 : map (classify ac ab) (range 1 21)
               = map (classify (hit_threshold ac ab) 0) (range 1 21)).
  { apply map_ext_in. intros r Hr. apply in_range in Hr.
    apply classify_threshold. lia. }
  assert (E2 : forall pick : Z -> Z -> Z,
             (forall a b, 1 <= a <= 20 -> 1 <= b <= 20 -> 1 <= pick a b <= 20) ->
             flat_map (fun r1 => map (fun r2 => classify ac ab (pick r1 r2))
                                   (range 1 21)) (range 1 21)
             = flat_map (fun r1 => map (fun r2 =>
                                          classify (hit_threshold ac ab) 0 (pick r1 r2))
                                     (range 1 21)) (range 1 21)).
  { intros pick Hpick. apply flat_map_ext_in. intros r1 H1.
    apply map_ext_in. intros r2 H2. apply in_range in H1, H2.
    apply classify_threshold. apply Hpick; lia. }
  destruct (String.eqb mode "normal"); [now rewrite E1|].
  destruct (String.eqb mode "adv").
  - rewrite (E2 Z.max) by (intros; lia). reflexivity.
  - rewrite (E2 Z.min) by (intros; lia). reflexivity.
Qed.

Lemma threshold_cases (c : Z) :
  2 <= c <= 20 ->
  c = 2 \/ c = 3 \/ c = 4 \/ c = 5 \/ c = 6 \/ c = 7 \/ c = 8 \/ c = 9
  \/ c = 10 \/ c = 11 \/ c = 12 \/ c = 13 \/ c = 14 \/ c = 15 \/ c = 16
  \/ c = 17 \/ c = 18 \/ c = 19 \/ c = 20.
Proof. lia. Qed.

Ltac each_threshold H :=
  apply threshold_cases in H;
  repeat (destruct H as [H|H]; [subst; vm_compute; repeat split; reflexivity|]);
  subst; vm_compute; repeat split; reflexivity.

(** The three entries of the table in the three behaviours of the mode,
    as polynomials of the threshold. *)
Lemma hit_table_normal (c : Z) :
  2 <= c <= 20 ->
  let r := hit_probs c 0 "normal" in
  (fst (fst r) == inject_Z (20 - c) / 20)%Q
  /\ (snd (fst r) == 1 # 20)%Q
  /\ (snd r == inject_Z (21 - c) / 20)%Q.
Proof. intros H. each_threshold H. Qed.

Lemma hit_table_adv (c : Z) :
  2 <= c <= 20 ->
  let r := hit_probs c 0 "adv" in
  (fst (fst r) == inject_Z (361 - (c - 1) * (c - 1)) / 400)%Q
  /\ (snd (fst r) == 39 # 400)%Q
  /\ (snd r == inject_Z (400 - (c - 1) * (c - 1)) / 400)%Q.
Proof. intros H. each_threshold H. Qed.

Lemma hit_table_dis (c : Z) :
  2 <= c <= 20 ->
  let r := hit_probs c 0 "dis" in
  (fst (fst r) == inject_Z ((21 - c) * (21 - c) - 1) / 400)%Q
  /\ (snd (fst r) == 1 # 400)%Q
  /\ (snd r == inject_Z ((21 - c) * (21 - c)) / 400)%Q.
Proof. intros H. each_threshold H. Qed.

Lemma hit_threshold_range (ac ab : Z) : 2 <= hit_threshold ac ab <= 20.
Proof. unfold hit_threshold. lia. Qed.

(** Whatever the mode text, the table is one of three. *)
Lemma hit_probs_mode_cases (mode : string) :
  mode = "normal"%string \/ mode = "adv"%string
  \/ (mode <> "normal"%string /\ mode <> "adv"%string
      /\ forall ac ab, hit_probs ac ab mode = hit_probs ac ab "dis").
Proof.
  destruct (String.eqb_spec mode "normal") as [->|Hn]; [now left|].
  destruct (String.eqb_spec mode "adv") as [->|Ha]; [right; now left|].
  right; right. split; [assumption|]. split; [assumption|].
  intros ac ab. unfold hit_probs.
  apply String.eqb_neq in Hn, Ha. rewrite Hn, Ha. reflexivity.
Qed.

(** X1. For every armour class and attack bonus, the chance to hit in
    normal mode is p = (21 - t) / 20 for the threshold t = AC - bonus cut
    to 2..20, so it lies between 1/20 and 19/20; with advantage it is
    1 - (1 - p)^2 and with disadvantage p^2. *)
Theorem hit_chance_closed_form (ac attack_bonus : Z) :
  let p := single_roll_hit_chance ac attack_bonus in
  (1 # 20 <= p <= 19 # 20)%Q
  /\ (snd (hit_probs ac attack_bonus "normal") == p)%Q
  /\ (snd (hit_probs ac attack_bonus "adv") == 1 - (1 - p) * (1 - p))%Q
  /\ (snd (hit_probs ac attack_bonus "dis") == p * p)%Q.
Proof.
  cbv zeta. unfold single_roll_hit_chance.
  rewrite !(hit_probs_threshold ac attack_bonus).
  pose proof (hit_threshold_range ac attack_bonus) as Hc.
  generalize dependent (hit_threshold ac attack_bonus). intros c Hc.
  destruct (hit_table_normal c Hc) as (_ & _ & En).
  destruct (hit_table_adv c Hc) as (_ & _ & Ea).
  destruct (hit_table_dis c Hc) as (_ & _ & Ed).
  cbv zeta in En, Ea, Ed. rewrite En, Ea, Ed.
  split; [|split; [reflexivity|split]].
  - unfold Qle, Qdiv, Qmult, Qinv, inject_Z; cbn; lia.
  - unfold Qeq, Qdiv, Qmult, Qinv, Qminus, Qplus, Qopp, inject_Z; cbn; nia.
  - unfold Qeq, Qdiv, Qmult, Qinv, inject_Z; cbn; nia.
Qed.

(** X2. The chance of a critical hit does not depend on the armour class
    or the attack bonus: it is 1/20 in normal mode, 39/400 with advantage
    and 1/400 in every other mode. *)
Theorem crit_chance_is_constant (ac attack_bonus : Z) (mode : string) :
  (snd (fst (hit_probs ac attack_bonus mode))
   == if String.eqb mode "normal" then 1 # 20
      else if String.eqb mode "adv" then 39 # 400 else 1 # 400)%Q.
Proof.
  pose proof (hit_threshold_range ac attack_bonus) as Hc.
  destruct (hit_probs_mode_cases mode) as [->|[->|(Hn & Ha & E)]].
  - rewrite hit_probs_threshold. apply (hit_table_normal _ Hc).
  - rewrite hit_probs_threshold. apply (hit_table_adv _ Hc).
  - apply String.eqb_neq in Hn, Ha. rewrite Hn, Ha, E, hit_probs_threshold.
    apply (hit_table_dis _ Hc).
Qed.

(** X3. A mode text that is neither "normal" nor "adv" is read as
    disadvantage, whatever it says. *)
Theorem unknown_mode_is_disadvantage (ac attack_bonus : Z) (mode : string) :
  mode <> "normal"%string -> mode <> "adv"%string ->
  hit_probs ac attack_bonus mode = hit_probs ac attack_bonus "dis".
Proof.
  intros Hn Ha.
  destruct (hit_probs_mode_cases mode) as [E|[E|(_ & _ & E)]];
    [contradiction|contradiction|apply E].
Qed.

Lemma unknown_mode_is_disadvantage_witness :
  "advantage"%string <> "normal"%string /\ "advantage"%string <> "adv"%string
  /\ hit_probs 15 5 "advantage" = hit_probs 15 5 "dis".
Proof.
  assert (H1 : "advantage"%string <> "normal"%string) by discriminate.
  assert (H2 : "advantage"%string <> "adv"%string) by discriminate.
  exact (conj H1 (conj H2 (unknown_mode_is_disadvantage 15 5 "advantage" H1 H2))).
Defined.

(** ** ProbabilityModel: expected damage against armour class *)

Ltac q_arith :=
  unfold Qle, Qlt, Qeq, Qdiv, Qmult, Qinv, Qplus, Qminus, Qopp, inject_Z;
  cbn; nia.

Lemma expected_attack_damage_table (ac ab : Z) (dmg mode : string) :
  expected_attack_damage ac ab dmg mode
  = (fst (fst (hit_probs ac ab mode)) * average_damage dmg
     + snd (fst (hit_probs ac ab mode)) * average_crunchy_crit_damage dmg)%Q.
Proof.
  unfold expected_attack_damage.
  now destruct (hit_probs ac ab mode) as [[pn pc] pa].
Qed.

Lemma hit_threshold_mono (ac ab ac' ab' : Z) :
  ac - ab <= ac' - ab' -> hit_threshold ac ab <= hit_threshold ac' ab'.
Proof. unfold hit_threshold. lia. Qed.

(** A higher threshold leaves the crit chance as it is and does not
    raise the chance of a plain hit. *)
Lemma hit_table_monotone (mode : string) (c c' : Z) :
  2 <= c <= 20 -> 2 <= c' <= 20 -> c <= c' ->
  (fst (fst (hit_probs c' 0 mode)) <= fst (fst (hit_probs c 0 mode)))%Q
  /\ (snd (fst (hit_probs c' 0 mode)) == snd (fst (hit_probs c 0 mode)))%Q.
Proof.
  intros Hc Hc' Hle.
  destruct (hit_probs_mode_cases mode) as [->|[->|(_ & _ & E)]].
  - destruct (hit_table_normal c Hc) as (E1 & E2 & _).
    destruct (hit_table_normal c' Hc') as (E1' & E2' & _).
    cbv zeta in *. rewrite E1, E2, E1', E2'. split; [q_arith|reflexivity].
  - destruct (hit_table_adv c Hc) as (E1 & E2 & _).
    destruct (hit_table_adv c' Hc') as (E1' & E2' & _).
    cbv zeta in *. rewrite E1, E2, E1', E2'. split; [q_arith|reflexivity].
  - rewrite !E.
    destruct (hit_table_dis c Hc) as (E1 & E2 & _).
    destruct (hit_table_dis c' Hc') as (E1' & E2' & _).
    cbv zeta in *. rewrite E1, E2, E1', E2'. split; [q_arith|reflexivity].
Qed.

Lemma average_damage_nonneg (expr : string) : (0 <= average_damage expr)%Q.
Proof.
  unfold average_damage.
  destruct (parse_damage_expression expr) as [[sign dice] mod_]. apply Q.le_max_l.
Qed.

Lemma average_crit_nonneg (expr : string) : (0 <= average_crunchy_crit_damage expr)%Q.
Proof.
  unfold average_crunchy_crit_damage.
  destruct (parse_damage_expression expr) as [[sign dice] mod_]. apply Q.le_max_l.
Qed.

(** X4. In every mode and for every damage expression, the expected
    damage of an attack roll does not grow when the armour class grows or
    the attack bonus shrinks: it is monotone in AC - bonus. *)
Theorem expected_attack_damage_monotone (ac ab ac' ab' : Z) (dmg mode : string) :
  ac - ab <= ac' - ab' ->
  (expected_attack_damage ac' ab' dmg mode <= expected_attack_damage ac ab dmg mode)%Q.
Proof.
  intros Hle. rewrite !expected_attack_damage_table.
  rewrite (hit_probs_threshold ac ab), (hit_probs_threshold ac' ab').
  destruct (hit_table_monotone mode _ _ (hit_threshold_range ac ab)
              (hit_threshold_range ac' ab') (hit_threshold_mono _ _ _ _ Hle))
    as [Hn Hc].
  apply Qplus_le_compat.
  - apply Qmult_le_compat_r; [assumption|apply average_damage_nonneg].
  - rewrite Hc. apply Qle_refl.
Qed.

Lemma expected_attack_damage_monotone_witness :
  16 - 7 <= 18 - 5
  /\ (expected_attack_damage 18 5 "2d10+5" "adv"
      <= expected_attack_damage 16 7 "2d10+5" "adv")%Q.
Proof.
  assert (H : 16 - 7 <= 18 - 5) by lia.
  exact (conj H (expected_attack_damage_monotone 16 7 18 5 "2d10+5" "adv" H)).
Defined.

(** ** ProbabilityModel: the save table *)

Lemma p_save_fail_threshold (dc bonus : Z) :
  p_save_fail dc bonus = p_save_fail (save_threshold dc bonus) 0.
Proof.
  unfold p_save_fail, save_threshold. cbv zeta.
  destruct (Z.leb_spec (dc - bonus) 1),
           (Z.leb_spec (Z.max 1 (Z.min 21 (dc - bonus)) - 0) 1); try lia;
    [reflexivity|].
  destruct (Z.ltb_spec 20 (dc - bonus)),
           (Z.ltb_spec 20 (Z.max 1 (Z.min 21 (dc - bonus)) - 0)); try lia;
    [reflexivity|].
  do 2 f_equal. lia.
Qed.

Lemma enc_save_success_threshold (dc bonus r : Z) :
  1 <= r <= 20 ->
  enc_save_success dc bonus r = enc_save_success (save_threshold dc bonus) 0 r.
Proof.
  intros Hr. unfold enc_save_success, save_threshold. f_equal. f_equal.
  destruct (Z.leb_spec dc (r + bonus)),
           (Z.leb_spec (Z.max 1 (Z.min 21 (dc - bonus))) (r + 0));
    first [reflexivity | lia].
Qed.

Lemma share_ext_in (p q : Z -> bool) (l : list Z) :
  (forall x, In x l -> p x = q x) -> share p l = share q l.
Proof. intros H. unfold share. now rewrite (filter_ext_in p q l H). Qed.

Lemma save_threshold_cases (c : Z) :
  1 <= c <= 21 ->
  c = 1 \/ c = 2 \/ c = 3 \/ c = 4 \/ c = 5 \/ c = 6 \/ c = 7 \/ c = 8 \/ c = 9
  \/ c = 10 \/ c = 11 \/ c = 12 \/ c = 13 \/ c = 14 \/ c = 15 \/ c = 16
  \/ c = 17 \/ c = 18 \/ c = 19 \/ c = 20 \/ c = 21.
Proof. lia. Qed.

(** X5. The closed form [p_save_fail] of the deterministic tab is the
    share of the 20 faces of the die on which the save test of the
    encounter simulator (a natural 20 saves, a natural 1 fails, any other
    roll saves iff roll + bonus >= DC) fails. *)
Theorem p_save_fail_is_share_of_failing_faces (dc bonus : Z) :
  (p_save_fail dc bonus
   == share (fun roll => negb (enc_save_success dc bonus roll)) d20_faces)%Q.
Proof.
  rewrite p_save_fail_threshold.
  rewrite (share_ext_in _ (fun roll => negb (enc_save_success (save_threshold dc bonus) 0 roll))).
  - assert (Hc : 1 <= save_threshold dc bonus <= 21) by (unfold save_threshold; lia).
    generalize dependent (save_threshold dc bonus). intros c Hc.
    apply save_threshold_cases in Hc.
    repeat (destruct Hc as [Hc|Hc]; [subst; vm_compute; reflexivity|]).
    subst; vm_compute; reflexivity.
  - intros r Hr. f_equal. apply enc_save_success_threshold.
    rewrite <- range_d20 in Hr. apply in_range in Hr. lia.
Qed.

Lemma p_save_fail_bounds (dc bonus : Z) :
  (1 # 20 <= p_save_fail dc bonus <= 19 # 20)%Q.
Proof.
  unfold p_save_fail. cbv zeta.
  destruct (Z.leb_spec (dc - bonus) 1); [split; discriminate|].
  destruct (Z.ltb_spec 20 (dc - bonus)); [split; discriminate|].
  split; q_arith.
Qed.

Lemma p_save_fail_mono (dc bonus dc' bonus' : Z) :
  dc - bonus <= dc' - bonus' ->
  (p_save_fail dc bonus <= p_save_fail dc' bonus')%Q.
Proof.
  intros Hle. unfold p_save_fail. cbv zeta.
  destruct (Z.leb_spec (dc - bonus) 1), (Z.leb_spec (dc' - bonus') 1); try lia;
    destruct (Z.ltb_spec 20 (dc - bonus)), (Z.ltb_spec 20 (dc' - bonus'));
    try lia; try discriminate; q_arith.
Qed.

(** X6. The fail chance of a save lies between 1/20 and 19/20 and does
    not shrink when DC - bonus grows; the expected damage of a
    save-for-half attack therefore lies between 21/40 and 39/40 of its
    average damage and grows with DC - bonus. *)
Theorem save_fail_chance_bounded_and_monotone (dc bonus dc' bonus' : Z) (dmg : string) :
  dc - bonus <= dc' - bonus' ->
  (1 # 20 <= p_save_fail dc bonus)%Q
  /\ (p_save_fail dc bonus <= p_save_fail dc' bonus')%Q
  /\ (p_save_fail dc' bonus' <= 19 # 20)%Q
  /\ ((21 # 40) * average_damage dmg <= expected_save_half_damage dc bonus dmg)%Q
  /\ (expected_save_half_damage dc bonus dmg
      <= expected_save_half_damage dc' bonus' dmg)%Q
  /\ (expected_save_half_damage dc' bonus' dmg <= (39 # 40) * average_damage dmg)%Q.
Proof.
  intros Hle.
  pose proof (p_save_fail_bounds dc bonus) as [Hlo _].
  pose proof (p_save_fail_bounds dc' bonus') as [_ Hhi].
  pose proof (p_save_fail_mono _ _ _ _ Hle) as Hmono.
  pose proof (average_damage_nonneg dmg) as Havg.
  split; [assumption|]. split; [assumption|]. split; [assumption|].
  unfold expected_save_half_damage.
  set (p := p_save_fail dc bonus) in *. set (p' := p_save_fail dc' bonus') in *.
  set (a := average_damage dmg) in *.
  assert (Hstep : forall x y : Q,
             (x <= y)%Q -> ((1 # 2) + (1 # 2) * x <= (1 # 2) + (1 # 2) * y)%Q).
  { intros x y Hxy. apply Qplus_le_r, Qmult_le_l; [reflexivity|assumption]. }
  assert (H1 : (21 # 40 <= (1 # 2) + (1 # 2) * p)%Q).
  { apply Qle_trans with ((1 # 2) + (1 # 2) * (1 # 20))%Q;
      [discriminate|now apply Hstep]. }
  assert (H2 : ((1 # 2) + (1 # 2) * p <= (1 # 2) + (1 # 2) * p')%Q)
    by now apply Hstep.
  assert (H3 : ((1 # 2) + (1 # 2) * p' <= 39 # 40)%Q).
  { apply Qle_trans with ((1 # 2) + (1 # 2) * (19 # 20))%Q;
      [now apply Hstep|discriminate]. }
  repeat split; apply Qmult_le_compat_r; assumption.
Qed.

Lemma save_fail_chance_bounded_and_monotone_witness :
  13 - 5 <= 15 - 2
  /\ (1 # 20 <= p_save_fail 13 5)%Q
  /\ (p_save_fail 13 5 <= p_save_fail 15 2)%Q
  /\ (p_save_fail 15 2 <= 19 # 20)%Q
  /\ ((21 # 40) * average_damage "8d6" <= expected_save_half_damage 13 5 "8d6")%Q
  /\ (expected_save_half_damage 13 5 "8d6" <= expected_save_half_damage 15 2 "8d6")%Q
  /\ (expected_save_half_damage 15 2 "8d6" <= (39 # 40) * average_damage "8d6")%Q.
Proof.
  assert (H : 13 - 5 <= 15 - 2) by lia.
  exact (conj H (save_fail_chance_bounded_and_monotone 13 5 15 2 "8d6" H)).
Defined.

(** ** CadenceModel: every text gives a probability *)

(** X7. Whatever the text, [parse_recharge] returns a probability: 0, or a
    number of sixths between 1/6 and 1. *)
Theorem parse_recharge_is_a_probability (text : string) :
  (0 <= parse_recharge text <= 1)%Q
  /\ ((parse_recharge text == 0)%Q \/ (1 # 6 <= parse_recharge text)%Q).
Proof.
  unfold parse_recharge. cbv zeta.
  destruct (is_empty _); [split; [split; discriminate|now left]|].
  destruct (contains_char "-" _).
  - destruct (split_first "-" _) as [lo_s hi_s].
    destruct (PyStr.int lo_s) as [lo|]; [|split; [split; discriminate|now left]].
    destruct (PyStr.int hi_s) as [hi|]; [|split; [split; discriminate|now left]].
    cbv beta iota.
    assert (H : 1 <= Z.max 1 (Z.min 6 (Z.max lo hi))
                     - Z.max 1 (Z.min 6 (Z.min lo hi)) + 1 <= 6) by lia.
    generalize dependent (Z.max 1 (Z.min 6 (Z.max lo hi))
                          - Z.max 1 (Z.min 6 (Z.min lo hi)) + 1).
    intros k Hk. split; [split|right]; q_arith.
  - destruct (PyStr.int _) as [k|]; [|split; [split; discriminate|now left]].
    assert (H : 1 <= 7 - Z.max 2 (Z.min 6 k) <= 5) by lia.
    generalize dependent (7 - Z.max 2 (Z.min 6 k)).
    intros j Hj. split; [split|right]; q_arith.
Qed.

Lemma numeral_plain (ds : list nat) (p : ascii -> bool) :
  is_numeral ds ->
  (forall d, (d < 10)%nat -> p (ascii_of_nat (48 + d)) = true) ->
  all_chars p (numeral ds) = true.
Proof. intros [_ H] Hp. now apply numeral_all_chars. Qed.

Lemma numeral_not_blank (ds : list nat) :
  is_numeral ds -> all_chars (fun c => negb (isspace c)) (numeral ds) = true.
Proof.
  intros H. apply (numeral_plain ds _ H).
  intros d Hd. destruct (digit_char d Hd) as (_ & _ & -> & _). reflexivity.
Qed.

Lemma numeral_no_dash_byte (ds : list nat) :
  is_numeral ds -> all_chars (fun c => negb (code c =? 226)%N) (numeral ds) = true.
Proof.
  intros H. apply (numeral_plain ds _ H).
  intros d Hd. destruct (digit_char d Hd) as (_ & _ & _ & _ & _ & ->). reflexivity.
Qed.

Lemma numeral_no_hyphen (ds : list nat) :
  is_numeral ds -> contains_char "-" (numeral ds) = false.
Proof.
  intros [_ H]. induction H as [|d ds Hd _ IH]; [reflexivity|].
  rewrite numeral_cons. cbn [contains_char].
  destruct (digit_char d Hd) as (_ & _ & _ & -> & _). exact IH.
Qed.

Lemma numeral_not_empty (ds : list nat) : is_numeral ds -> is_empty (numeral ds) = false.
Proof. intros [Hne _]. destruct ds; [congruence|reflexivity]. Qed.

Lemma strip_leading_hyphen (s : string) :
  exists r, strip (String "-" s) = String "-" r.
Proof.
  unfold strip. change (lstrip (String "-" s)) with (String "-" s).
  cbn [rstrip]. destruct (rstrip s); eexists; reflexivity.
Qed.

Lemma dash_to_hyphen_leading_hyphen (last : N) (s : string) :
  dash_to_hyphen last (String "-" s) = String "-" (dash_to_hyphen last s).
Proof. cbn [dash_to_hyphen]. now destruct s as [|b [|c s]]. Qed.

(** X8. A lone number is cut to the faces 2..6 before it is read: every
    decimal numeral n gives (7 - max 2 (min 6 n)) / 6, so "0" and "1" give
    5/6 and every number from 6 up gives 1/6; a text that starts with a
    hyphen, such as a negative number, gives 0. *)
Theorem parse_recharge_lone_number (ds : list nat) :
  is_numeral ds ->
  (parse_recharge (numeral ds)
   == inject_Z (7 - Z.max 2 (Z.min 6 (numeral_value ds))) / 6)%Q
  /\ forall s : string, (parse_recharge (String "-" s) == 0)%Q.
Proof.
  intros Hds. split.
  - unfold parse_recharge.
    rewrite (strip_id _ (numeral_not_blank ds Hds)).
    rewrite !(dash_to_hyphen_id _ _ (numeral_no_dash_byte ds Hds)).
    rewrite (numeral_not_empty ds Hds), (numeral_no_hyphen ds Hds).
    rewrite (int_numeral ds Hds). reflexivity.
  - intros s. unfold parse_recharge.
    destruct (strip_leading_hyphen s) as [r ->].
    rewrite !dash_to_hyphen_leading_hyphen. reflexivity.
Qed.

Lemma parse_recharge_lone_number_witness :
  is_numeral [1%nat; 7%nat]
  /\ (parse_recharge "17" == 1 # 6)%Q
  /\ (parse_recharge "-3" == 0)%Q.
Proof.
  assert (H : is_numeral [1%nat; 7%nat]).
  { split; [discriminate|]. repeat constructor. }
  destruct (parse_recharge_lone_number [1%nat; 7%nat] H) as [H1 H2].
  exact (conj H (conj H1 (H2 "3"%string))).
Defined.

Lemma dash_to_hyphen_app (last : N) (a s : string) :
  all_chars (fun c => negb (code c =? 226)%N) a = true ->
  dash_to_hyphen last (a ++ s) = (a ++ dash_to_hyphen last s)%string.
Proof.
  induction a as [|c a IH]; [reflexivity|].
  intros H. cbn [all_chars] in H. apply andb_prop in H as [Hc Ha].
  apply negb_true_iff in Hc.
  change (String c a ++ s)%string with (String c (a ++ s)).
  cbn [dash_to_hyphen]. rewrite Hc, (IH Ha). cbn [andb].
  now destruct (a ++ s)%string as [|b [|c' s']].
Qed.

(** The text left of a range written with either dash. *)
Lemma recharge_dash_normalised (lo hi : list nat) (dash : string) :
  is_numeral lo -> is_numeral hi -> dash = en_dash \/ dash = em_dash ->
  recharge_text_normalised (numeral lo ++ dash ++ numeral hi)
  = (numeral lo ++ "-" ++ numeral hi)%string.
Proof.
  intros Hlo Hhi Hdash. unfold recharge_text_normalised.
  assert (Hstrip : strip (numeral lo ++ dash ++ numeral hi)
                   = (numeral lo ++ dash ++ numeral hi)%string).
  { apply strip_id. rewrite !all_chars_app.
    rewrite (numeral_not_blank lo Hlo), (numeral_not_blank hi Hhi).
    destruct Hdash as [->| ->]; reflexivity. }
  rewrite Hstrip.
  pose proof (numeral_no_dash_byte lo Hlo) as Nlo.
  pose proof (numeral_no_dash_byte hi Hhi) as Nhi.
  destruct Hdash as [->| ->].
  - rewrite (dash_to_hyphen_app 147 _ _ Nlo).
    change (dash_to_hyphen 147 (en_dash ++ numeral hi))
      with (String "-" (dash_to_hyphen 147 (numeral hi))).
    rewrite (dash_to_hyphen_id 147 _ Nhi).
    rewrite (dash_to_hyphen_app 148 _ _ Nlo), dash_to_hyphen_leading_hyphen.
    now rewrite (dash_to_hyphen_id 148 _ Nhi).
  - rewrite (dash_to_hyphen_app 147 _ _ Nlo).
    assert (E : dash_to_hyphen 147 (em_dash ++ numeral hi)
                = (em_dash ++ dash_to_hyphen 147 (numeral hi))%string).
    { destruct (numeral hi) as [|c1 [|c2 [|c3 r]]]; reflexivity. }
    rewrite E, (dash_to_hyphen_id 147 _ Nhi).
    rewrite (dash_to_hyphen_app 148 _ _ Nlo).
    change (dash_to_hyphen 148 (em_dash ++ numeral hi))
      with (String "-" (dash_to_hyphen 148 (numeral hi))).
    now rewrite (dash_to_hyphen_id 148 _ Nhi).
Qed.

(** X9. A range written with an en dash or an em dash is read as the
    same range written with a hyphen. *)
Theorem recharge_dashes_read_as_hyphen (lo hi : list nat) :
  is_numeral lo -> is_numeral hi ->
  parse_recharge (numeral lo ++ en_dash ++ numeral hi)
  = parse_recharge (numeral lo ++ "-" ++ numeral hi)
  /\ parse_recharge (numeral lo ++ em_dash ++ numeral hi)
     = parse_recharge (numeral lo ++ "-" ++ numeral hi).
Proof.
  intros Hlo Hhi.
  assert (Hn : recharge_text_normalised (numeral lo ++ "-" ++ numeral hi)
               = (numeral lo ++ "-" ++ numeral hi)%string).
  { unfold recharge_text_normalised.
    assert (Hd : all_chars (fun c => negb (code c =? 226)%N)
                   (numeral lo ++ "-" ++ numeral hi) = true).
    { rewrite !all_chars_app, (numeral_no_dash_byte lo Hlo),
        (numeral_no_dash_byte hi Hhi). reflexivity. }
    rewrite strip_id.
    - now rewrite !(dash_to_hyphen_id _ _ Hd).
    - rewrite !all_chars_app, (numeral_not_blank lo Hlo),
        (numeral_not_blank hi Hhi). reflexivity. }
  assert (Hp : forall a b : string,
             recharge_text_normalised a = recharge_text_normalised b ->
             parse_recharge a = parse_recharge b).
  { intros a b E. unfold parse_recharge.
    change (dash_to_hyphen 148 (dash_to_hyphen 147 (strip a)))
      with (recharge_text_normalised a).
    change (dash_to_hyphen 148 (dash_to_hyphen 147 (strip b)))
      with (recharge_text_normalised b).
    now rewrite E. }
  split; apply Hp; rewrite Hn; apply recharge_dash_normalised; auto.
Qed.

Lemma recharge_dashes_read_as_hyphen_witness :
  is_numeral [5%nat] /\ is_numeral [6%nat]
  /\ parse_recharge ("5" ++ en_dash ++ "6") = parse_recharge "5-6"
  /\ parse_recharge ("5" ++ em_dash ++ "6") = parse_recharge "5-6".
Proof.
  assert (H5 : is_numeral [5%nat]) by (split; [discriminate|repeat constructor]).
  assert (H6 : is_numeral [6%nat]) by (split; [discriminate|repeat constructor]).
  exact (conj H5 (conj H6 (recharge_dashes_read_as_hyphen [5%nat] [6%nat] H5 H6))).
Defined.

(** ** DiceExpression: what the parser hands on *)

Lemma isdigit_val (c : ascii) : isdigit c = true -> 0 <= digit_val c <= 9.
Proof.
  unfold isdigit, digit_val. intros H. apply andb_prop in H as [H1 H2].
  apply N.leb_le in H1, H2. lia.
Qed.

Lemma int_digits_nonneg (s : string) : forall acc b z,
  0 <= acc -> int_digits acc b s = Some z -> 0 <= z.
Proof.
  induction s as [|c s IH]; intros acc b z Hacc; cbn [int_digits].
  - destruct b; [|discriminate]. intros E. inversion E. lia.
  - destruct (isdigit c) eqn:Hc.
    + apply IH. pose proof (isdigit_val c Hc). lia.
    + destruct (Ascii.eqb c "_" && b); [apply IH; assumption|discriminate].
Qed.

Lemma safe_int_digits_nonneg (sd : string) :
  all_chars isdigit sd = true -> 0 <= safe_int sd 0.
Proof.
  intros Hall. unfold safe_int, PyStr.int.
  rewrite (strip_id _ (no_blank_digits sd Hall)).
  destruct sd as [|c sd]; [cbn; lia|].
  cbn [all_chars] in Hall. apply andb_prop in Hall as [Hc _].
  destruct (digit_is_plain c Hc) as (_ & Hp & Hm & _).
  unfold take_sign. rewrite Hp, Hm. cbn [orb].
  destruct (int_digits 0 false (String c sd)) as [n|] eqn:E; [|lia].
  change (String.eqb EmptyString "-") with false. cbv iota.
  apply (int_digits_nonneg _ _ _ _ (Z.le_refl 0) E).
Qed.

Lemma match_dice_at_sides (s c sd : string) (n : nat) :
  match_dice_at s = Some (c, sd, n) -> all_chars isdigit sd = true.
Proof.
  unfold match_dice_at.
  destruct (take_sign s) as [sg s1]. destruct (span_digits s1) as [ds s2].
  destruct s2 as [|d s3]; [discriminate|].
  destruct (Ascii.eqb_spec d "d") as [->|Hd].
  - pose proof (span_digits_digits s3) as Hsd.
    destruct (span_digits s3) as [sd' r]. cbn [fst] in Hsd.
    destruct (is_empty sd'); [discriminate|].
    intros E. inversion E. now subst.
  - destruct d as [[] [] [] [] [] [] [] []]; first [discriminate | congruence].
Qed.

Lemma findall_dice_sides (s : string) : forall k,
  Forall (fun p => all_chars isdigit (snd p) = true) (findall_dice_from k s).
Proof.
  induction s as [|c s IH]; intros k; cbn [findall_dice_from]; [constructor|].
  destruct k as [|k]; [|apply IH].
  destruct (match_dice_at (String c s)) as [[[cs sd] n]|] eqn:E; [|apply IH].
  constructor; [|apply IH]. apply (match_dice_at_sides _ _ _ _ E).
Qed.

(** The sides of every parsed term are a natural number. *)
Lemma parsed_sides_nonneg (expr : string) :
  Forall (fun d => 0 <= snd d) (snd (fst (parse_damage_expression expr))).
Proof.
  unfold parse_damage_expression. cbv zeta.
  destruct (is_empty _); [constructor|]. cbn [fst snd].
  match goal with |- Forall _ (map _ (findall_dice ?s)) =>
    pose proof (findall_dice_sides s 0) as H; fold (findall_dice s) in H;
    induction H as [|[cs sd] l Hsd _ IH]
  end; cbn [map]; constructor; [|assumption].
  cbn [snd] in *. now apply safe_int_digits_nonneg.
Qed.

Lemma qsum_le {A : Type} (f g : A -> Q) (l : list A) :
  Forall (fun a => f a <= g a)%Q l -> (qsum (map f l) <= qsum (map g l))%Q.
Proof.
  induction 1 as [|a l Ha _ IH]; cbn; [apply Qle_refl|].
  now apply Qplus_le_compat.
Qed.

(** X10. For an expression without a leading minus whose dice counts are
    none of them negative, the crunchy-crit average is at least the
    normal average. *)
Theorem crit_average_at_least_normal (expr : string) (dice : list (Z * Z))
    (modifier : Z) :
  parse_damage_expression expr = (1, dice, modifier) ->
  Forall (fun d => 0 <= fst d) dice ->
  (average_damage expr <= average_crunchy_crit_damage expr)%Q.
Proof.
  intros Hparse Hcounts.
  pose proof (parsed_sides_nonneg expr) as Hsides. rewrite Hparse in Hsides.
  cbn [fst snd] in Hsides.
  unfold average_damage, average_crunchy_crit_damage. rewrite Hparse.
  apply Q.max_le_compat_l. apply Qmult_le_l; [reflexivity|].
  apply Qplus_le_l. apply qsum_le.
  rewrite List.Forall_forall in Hcounts, Hsides. apply List.Forall_forall.
  intros [c s] Hin. specialize (Hcounts _ Hin). specialize (Hsides _ Hin).
  cbn [fst snd] in *. q_arith.
Qed.

Lemma crit_average_at_least_normal_witness :
  parse_damage_expression "2d6+3" = (1, [(2, 6)], 3)
  /\ Forall (fun d => 0 <= fst d) [(2, 6)]
  /\ (average_damage "2d6+3" <= average_crunchy_crit_damage "2d6+3")%Q.
Proof.
  assert (H1 : parse_damage_expression "2d6+3" = (1, [(2, 6)], 3)) by reflexivity.
  assert (H2 : Forall (fun d => 0 <= fst d) [(2, 6)]).
  { constructor; [cbn; lia|constructor]. }
  exact (conj H1 (conj H2 (crit_average_at_least_normal "2d6+3" [(2, 6)] 3 H1 H2))).
Defined.

(** ** DiceExpression: a text without a digit *)

Section DigitFree.

Lemma not_digit_tail (c : ascii) (s : string) :
  all_chars not_digit (String c s) = true ->
  isdigit c = false /\ all_chars not_digit s = true.
Proof.
  cbn [all_chars]. intros H. apply andb_prop in H as [Hc Hs].
  apply negb_true_iff in Hc. now split.
Qed.

Lemma span_digits_not_digit (s : string) :
  all_chars not_digit s = true -> span_digits s = (EmptyString, s).
Proof.
  destruct s as [|c s]; [reflexivity|]. intros H.
  apply not_digit_tail in H as [Hc _]. cbn [span_digits]. now rewrite Hc.
Qed.

Lemma take_sign_not_digit (s : string) :
  all_chars not_digit s = true -> all_chars not_digit (snd (take_sign s)) = true.
Proof.
  destruct s as [|c s]; [reflexivity|]. intros H. unfold take_sign.
  destruct (Ascii.eqb c "+" || Ascii.eqb c "-"); [|exact H].
  now apply not_digit_tail in H as [_ Hs].
Qed.

Lemma match_dice_at_not_digit (s : string) :
  all_chars not_digit s = true -> match_dice_at s = None.
Proof.
  intros H. unfold match_dice_at. apply take_sign_not_digit in H.
  destruct (take_sign s) as [sg s1]. cbn [snd] in H.
  rewrite (span_digits_not_digit _ H).
  destruct s1 as [|d s3]; [reflexivity|].
  apply not_digit_tail in H as [_ H3]. rewrite (span_digits_not_digit _ H3).
  destruct d as [[] [] [] [] [] [] [] []]; reflexivity.
Qed.

Lemma match_int_at_not_digit (s : string) :
  all_chars not_digit s = true -> match_int_at s = None.
Proof.
  intros H. unfold match_int_at. apply take_sign_not_digit in H.
  destruct (take_sign s) as [sg s1]. cbn [snd] in H.
  now rewrite (span_digits_not_digit _ H).
Qed.

Lemma findall_dice_not_digit (s : string) :
  all_chars not_digit s = true -> findall_dice s = [].
Proof.
  unfold findall_dice. induction s as [|c s IH]; [reflexivity|].
  intros H. cbn [findall_dice_from]. rewrite (match_dice_at_not_digit _ H).
  apply IH. now apply not_digit_tail in H.
Qed.

Lemma sub_dice_not_digit (s : string) :
  all_chars not_digit s = true -> sub_dice s = s.
Proof.
  unfold sub_dice. induction s as [|c s IH]; [reflexivity|].
  intros H. cbn [sub_dice_from]. rewrite (match_dice_at_not_digit _ H).
  f_equal. apply IH. now apply not_digit_tail in H.
Qed.

Lemma findall_int_not_digit (s : string) :
  all_chars not_digit s = true -> findall_int s = [].
Proof.
  unfold findall_int. induction s as [|c s IH]; [reflexivity|].
  intros H. cbn [findall_int_from]. rewrite (match_int_at_not_digit _ H).
  apply IH. now apply not_digit_tail in H.
Qed.

Lemma lstrip_not_digit (s : string) :
  all_chars not_digit s = true -> all_chars not_digit (lstrip s) = true.
Proof.
  induction s as [|c s IH]; [reflexivity|]. intros H. cbn [lstrip].
  destruct (isspace c); [|exact H]. apply IH. now apply not_digit_tail in H.
Qed.

Lemma rstrip_not_digit (s : string) :
  all_chars not_digit s = true -> all_chars not_digit (rstrip s) = true.
Proof.
  induction s as [|c s IH]; [reflexivity|]. intros H.
  pose proof H as H'. apply not_digit_tail in H' as [Hc Hs].
  specialize (IH Hs). cbn [rstrip].
  destruct (rstrip s) as [|c' r].
  - destruct (isspace c); [reflexivity|]. cbn [all_chars]. unfold not_digit at 1.
    now rewrite Hc.
  - cbn [all_chars] in *. unfold not_digit at 1. now rewrite Hc.
Qed.

Lemma lower_char_not_digit (c : ascii) : isdigit (lower_char c) = isdigit c.
Proof. destruct c as [[] [] [] [] [] [] [] []]; reflexivity. Qed.

Lemma lower_not_digit (s : string) :
  all_chars not_digit s = true -> all_chars not_digit (lower s) = true.
Proof.
  unfold lower. induction s as [|c s IH]; [reflexivity|]. intros H.
  apply not_digit_tail in H as [Hc Hs]. cbn [smap all_chars].
  unfold not_digit at 1. now rewrite lower_char_not_digit, Hc, (IH Hs).
Qed.

Lemma remove_char_not_digit (x : ascii) (s : string) :
  all_chars not_digit s = true -> all_chars not_digit (remove_char x s) = true.
Proof.
  induction s as [|c s IH]; [reflexivity|]. intros H.
  apply not_digit_tail in H as [Hc Hs]. cbn [remove_char].
  destruct (Ascii.eqb c x); [now apply IH|].
  cbn [all_chars]. unfold not_digit at 1. now rewrite Hc, (IH Hs).
Qed.

(** A text without a digit parses to no dice and no modifier. *)
Lemma parse_not_digit (expr : string) :
  all_chars not_digit expr = true ->
  exists sign, (sign = 1 \/ sign = -1)
               /\ parse_damage_expression expr = (sign, [], 0).
Proof.
  intros H. unfold parse_damage_expression. cbv zeta.
  assert (Hs : all_chars not_digit (remove_char " " (lower (strip expr))) = true).
  { apply remove_char_not_digit, lower_not_digit.
    unfold strip. now apply rstrip_not_digit, lstrip_not_digit. }
  generalize dependent (remove_char " " (lower (strip expr))). intros s Hs.
  destruct (is_empty s); [exists 1; now split; [left|]|].
  assert (Hd : all_chars not_digit
                 (if starts_with_char "-" s || starts_with_char "+" s
                  then drop1 s else s) = true).
  { destruct (starts_with_char "-" s || starts_with_char "+" s); [|exact Hs].
    destruct s as [|c s]; [reflexivity|]. now apply not_digit_tail in Hs. }
  rewrite (findall_dice_not_digit _ Hd), (sub_dice_not_digit _ Hd),
    (findall_int_not_digit _ Hd).
  destruct (starts_with_char "-" s); eexists; (split; [|reflexivity]); auto.
Qed.

End DigitFree.

(** X11. A damage text without any digit is not refused: it parses to no
    dice and no modifier, both averages are 0, and every sample of it is
    0 and reads nothing from the random tape. *)
Theorem digit_free_expression_is_worth_nothing (expr : string) :
  all_chars not_digit expr = true ->
  snd (fst (parse_damage_expression expr)) = []
  /\ snd (parse_damage_expression expr) = 0
  /\ (average_damage expr == 0)%Q
  /\ (average_crunchy_crit_damage expr == 0)%Q
  /\ (forall (size : nat) (g : rng),
        exists l, roll_damage expr size g = inr (l, g)
                  /\ length l = size /\ Forall (fun x => x == 0)%Q l)
  /\ (forall g : rng,
        exists x, roll_damage_crunchy_crit expr g = inr (x, g) /\ (x == 0)%Q).
Proof.
  intros H. destruct (parse_not_digit expr H) as (sign & Hsign & Hparse).
  unfold average_damage, average_crunchy_crit_damage, roll_damage,
    roll_damage_crunchy_crit.
  rewrite Hparse. cbn [fst snd map qsum foldr foldM].
  split; [reflexivity|]. split; [reflexivity|].
  destruct Hsign as [-> | ->].
  - split; [reflexivity|]. split; [reflexivity|]. split.
    + intros size g. eexists. split; [reflexivity|].
      unfold zeros. rewrite !map_replicate. split; [apply length_replicate|].
      apply Forall_replicate_intro. reflexivity.
    + intros g. eexists. split; reflexivity.
  - split; [reflexivity|]. split; [reflexivity|]. split.
    + intros size g. eexists. split; [reflexivity|].
      unfold zeros. rewrite !map_replicate. split; [apply length_replicate|].
      apply Forall_replicate_intro. reflexivity.
    + intros g. eexists. split; reflexivity.
Qed.

Lemma digit_free_expression_is_worth_nothing_witness :
  all_chars not_digit "fire breath" = true
  /\ (average_damage "fire breath" == 0)%Q
  /\ (average_crunchy_crit_damage "fire breath" == 0)%Q.
Proof.
  assert (H : all_chars not_digit "fire breath" = true) by reflexivity.
  destruct (digit_free_expression_is_worth_nothing "fire breath" H)
    as (_ & _ & Ha & Hc & _).
  exact (conj H (conj Ha Hc)).
Defined.

(** ** Sampled damage: every sample lies between the least and the
    greatest roll of the expression *)

(** A number that is the whole number [t] for some [t] of [lo .. hi]. *)
Lemma Forall_zip_with {A B C : Type} (P : A -> Prop) (R : B -> Prop) (T : C -> Prop)
    (f : A -> B -> C) (a : list A) (b : list B) :
  (forall x y, P x -> R y -> T (f x y)) ->
  Forall P a -> Forall R b -> Forall T (zip_with f a b).
Proof.
  intros Hf Ha. revert b. induction Ha as [|x a Hx _ IH]; intros b Hb; [constructor|].
  destruct Hb as [|y b Hy Hb]; [constructor|].
  cbn. constructor; [now apply Hf|now apply IH].
Qed.

Lemma column_sums_bounds (size : nat) (sides : Z) (rolls : list (list Z)) :
  Forall (fun row => length row = size /\ Forall (fun x => 1 <= x <= sides) row) rolls ->
  Forall (fun x => Z.of_nat (length rolls) <= x <= Z.of_nat (length rolls) * sides)
         (column_sums size rolls).
Proof.
  unfold column_sums. induction 1 as [|row rolls [_ Hrow] _ IH]; cbn [foldr length].
  - apply Forall_replicate_intro. lia.
  - eapply Forall_zip_with; [|exact Hrow|exact IH].
    intros x y Hx Hy. cbv beta in *. nia.
Qed.

Lemma zsum_bounds (sides : Z) (rolls : list Z) :
  Forall (fun x => 1 <= x <= sides) rolls ->
  Z.of_nat (length rolls) <= zsum rolls <= Z.of_nat (length rolls) * sides.
Proof.
  unfold zsum. induction 1 as [|x rolls Hx _ IH]; cbn [foldr length]; nia.
Qed.

Lemma term_bounds_rolled (count sides x : Z) :
  (count =? 0) || (sides <=? 0) = false ->
  Z.abs count <= x <= Z.abs count * sides ->
  term_min (count, sides) <= Z.sgn count * x <= term_max (count, sides).
Proof.
  intros Hskip Hx. unfold term_min, term_max, rolled. cbn [fst snd].
  rewrite Hskip. cbn [negb].
  apply orb_false_elim in Hskip as [Hc Hs].
  apply Z.eqb_neq in Hc. apply Z.leb_gt in Hs.
  destruct (Z.ltb_spec 0 count); nia.
Qed.

Lemma term_bounds_skipped (d : Z * Z) :
  (fst d =? 0) || (snd d <=? 0) = true -> term_min d = 0 /\ term_max d = 0.
Proof. intros H. unfold term_min, term_max, rolled. now rewrite H. Qed.

Lemma crit_term_bounds_rolled (count sides r : Z) :
  (sides <=? 0) || (count =? 0) = false ->
  Z.abs count <= r <= Z.abs count * sides ->
  crit_term_min (count, sides)
  <= copysign (Z.abs count * sides + r) count
  <= crit_term_max (count, sides).
Proof.
  intros Hskip Hr. unfold crit_term_min, crit_term_max, rolled, copysign.
  cbn [fst snd]. rewrite orb_comm in Hskip. rewrite Hskip. cbn [negb].
  apply orb_false_elim in Hskip as [Hc Hs].
  apply Z.eqb_neq in Hc. apply Z.leb_gt in Hs.
  destruct (Z.ltb_spec 0 count), (Z.ltb_spec count 0); nia.
Qed.

Lemma crit_term_bounds_skipped (d : Z * Z) :
  (snd d <=? 0) || (fst d =? 0) = true -> crit_term_min d = 0 /\ crit_term_max d = 0.
Proof.
  intros H. unfold crit_term_min, crit_term_max, rolled.
  rewrite orb_comm in H. now rewrite H.
Qed.

(** The loop over the dice terms of [roll_damage]. *)
Lemma roll_damage_loop_bounds (size : nat) (dice : list (Z * Z)) :
  forall (total : list Q) (lo hi : Z),
    length total = size ->
    Forall (fun x => exists t, lo <= t <= hi /\ (x == inject_Z t)%Q) total ->
    returns
      (foldM (fun total_roll '(count, sides) =>
                if (count =? 0) || (sides <=? 0) then ret total_roll
                else
                  let num_rolls := Z.abs count in
                  rolls <- replicateM (Z.to_nat num_rolls)
                             (replicateM size (randint 1 sides)) ;;
                  ret (vadd total_roll
                         (map (fun x => inject_Z (Z.sgn count * x))
                              (column_sums size rolls))))
             dice total)
      (fun l => length l = size
                /\ Forall (fun x => exists t,
                             lo + dice_min dice <= t <= hi + dice_max dice
                             /\ (x == inject_Z t)%Q) l).
Proof.
  induction dice as [|[count sides] dice IH]; intros total lo hi Hlen Hall;
    cbn [foldM].
  - apply returns_ret. split; [assumption|].
    eapply Forall_impl; [exact Hall|]. intros x (t & Ht & E).
    exists t. unfold dice_min, dice_max. cbn. split; [lia|assumption].
  - unfold dice_min, dice_max in *. cbn [map zsum foldr].
    fold (zsum (map term_min dice)). fold (zsum (map term_max dice)).
    destruct ((count =? 0) || (sides <=? 0)) eqn:Hskip.
    + destruct (term_bounds_skipped (count, sides) Hskip) as [-> ->].
      apply (returns_bind _ _ (fun l => l = total)); [now apply returns_ret|].
      intros l ->.
      eapply returns_mono; [apply (IH total lo hi Hlen Hall)|].
      intros l [Hl Hf]. split; [assumption|].
      eapply Forall_impl; [exact Hf|]. intros x (t & Ht & E). exists t.
      split; [lia|assumption].
    + pose proof Hskip as Hskip'.
      apply orb_false_elim in Hskip' as [_ Hs]. apply Z.leb_gt in Hs.
      apply (returns_bind _ _
               (fun l => length l = size
                         /\ Forall (fun x => exists t,
                                      lo + term_min (count, sides) <= t
                                      <= hi + term_max (count, sides)
                                      /\ (x == inject_Z t)%Q) l)).
      * eapply returns_bind.
        { apply returns_replicateM, returns_replicateM, (returns_randint 1 sides).
          lia. }
        intros rolls [Hn Hrows]. apply returns_ret.
        pose proof (column_sums_bounds size sides rolls Hrows) as Hcols.
        assert (Hclen : length (column_sums size rolls) = size).
        { apply column_sums_length. eapply Forall_impl; [exact Hrows|].
          intros row Hrow. apply Hrow. }
        rewrite Hn in Hcols. rewrite Z2Nat.id in Hcols by lia.
        split; [unfold vadd; rewrite length_zip_with, length_map; lia|].
        unfold vadd.
        eapply (Forall_zip_with _
                  (fun q => exists y, Z.abs count <= y <= Z.abs count * sides
                                      /\ q = inject_Z (Z.sgn count * y)));
          [|exact Hall|].
        -- intros x q (t & Ht & E) (y & Hy & ->).
           pose proof (term_bounds_rolled count sides y Hskip Hy) as Hb.
           exists (t + Z.sgn count * y). split; [lia|].
           rewrite E, inject_Z_plus. reflexivity.
        -- apply Forall_map. eapply Forall_impl; [exact Hcols|].
           intros y Hy. exists y. now split.
      * intros total' [Hlen' Hall'].
        eapply returns_mono; [apply (IH total' _ _ Hlen' Hall')|].
        intros l [Hl Hf]. split; [assumption|].
        eapply Forall_impl; [exact Hf|]. intros x (t & Ht & E). exists t.
        split; [lia|assumption].
Qed.

Lemma roll_value_of_total (sign t modifier : Z) (x : Q) :
  (x == inject_Z t)%Q ->
  (Qmax 0 ((x + inject_Z modifier) * inject_Z sign) == roll_value sign t modifier)%Q.
Proof.
  intros E. unfold roll_value. apply Q.max_compat; [reflexivity|].
  rewrite E, <- inject_Z_plus, <- inject_Z_mult. now rewrite Z.mul_comm.
Qed.

(** X12. Every sample of [roll_damage] is the value of a dice total that
    lies between the least and the greatest the expression can roll (the
    skipped terms counting for nothing): the total, plus the modifier,
    times the sign, clamped at zero. *)
Theorem roll_damage_within_dice_bounds (expr : string) (size : nat) (g : rng) :
  let '(sign, dice, modifier) := parse_damage_expression expr in
  exists (l : list Q) (g' : rng),
    roll_damage expr size g = inr (l, g')
    /\ length l = size
    /\ Forall (fun x => exists t, dice_min dice <= t <= dice_max dice
                                  /\ (x == roll_value sign t modifier)%Q) l.
Proof.
  assert (H : returns (roll_damage expr size)
                (fun l =>
                   let '(sign, dice, modifier) := parse_damage_expression expr in
                   length l = size
                   /\ Forall (fun x => exists t, dice_min dice <= t <= dice_max dice
                                /\ (x == roll_value sign t modifier)%Q) l)).
  { unfold roll_damage.
    destruct (parse_damage_expression expr) as [[sign dice] modifier].
    eapply returns_bind.
    - apply (roll_damage_loop_bounds size dice (zeros size) 0 0).
      + apply length_replicate.
      + apply Forall_replicate_intro. exists 0. split; [lia|reflexivity].
    - intros total [Hlen Hall]. apply returns_ret.
      split; [now rewrite !length_map|].
      rewrite !Forall_map. eapply Forall_impl; [exact Hall|].
      intros x (t & Ht & E). exists t. split; [lia|].
      now apply roll_value_of_total. }
  destruct (H g) as (l & g' & E & Hl).
  destruct (parse_damage_expression expr) as [[sign dice] modifier].
  exists l, g'. split; [exact E|exact Hl].
Qed.

(** The loop over the dice terms of [roll_damage_crunchy_crit]. *)
Lemma crit_loop_bounds (dice : list (Z * Z)) :
  forall (total : Q) (t0 : Z),
    (total == inject_Z t0)%Q ->
    returns
      (foldM (fun total '(count, sides) =>
                if (sides <=? 0) || (count =? 0) then ret total
                else
                  let n := Z.abs count in
                  let max_part := n * sides in
                  rolls <- replicateM (Z.to_nat n) (randint 1 sides) ;;
                  let roll_part := zsum rolls in
                  ret (total + inject_Z (copysign (max_part + roll_part) count))%Q)
             dice total)
      (fun x => exists t, t0 + crit_dice_min dice <= t <= t0 + crit_dice_max dice
                          /\ (x == inject_Z t)%Q).
Proof.
  induction dice as [|[count sides] dice IH]; intros total t0 Ht0; cbn [foldM].
  - apply returns_ret. exists t0. unfold crit_dice_min, crit_dice_max. cbn.
    split; [lia|assumption].
  - unfold crit_dice_min, crit_dice_max in *. cbn [map zsum foldr].
    fold (zsum (map crit_term_min dice)). fold (zsum (map crit_term_max dice)).
    destruct ((sides <=? 0) || (count =? 0)) eqn:Hskip.
    + destruct (crit_term_bounds_skipped (count, sides) Hskip) as [-> ->].
      apply (returns_bind _ _ (fun x => x = total)); [now apply returns_ret|].
      intros x ->.
      eapply returns_mono; [apply (IH total t0 Ht0)|].
      intros x (t & Ht & E). exists t. split; [lia|assumption].
    + pose proof Hskip as Hskip'.
      apply orb_false_elim in Hskip' as [Hs _]. apply Z.leb_gt in Hs.
      apply (returns_bind _ _
               (fun x => exists t,
                   t0 + crit_term_min (count, sides) <= t
                   <= t0 + crit_term_max (count, sides)
                   /\ (x == inject_Z t)%Q)).
      * eapply returns_bind.
        { apply returns_replicateM, (returns_randint 1 sides). lia. }
        intros rolls [Hn Hrolls]. apply returns_ret.
        pose proof (zsum_bounds sides rolls Hrolls) as Hsum.
        rewrite Hn in Hsum. rewrite Z2Nat.id in Hsum by lia.
        pose proof (crit_term_bounds_rolled count sides (zsum rolls) Hskip Hsum) as Hb.
        cbv zeta.
        exists (t0 + copysign (Z.abs count * sides + zsum rolls) count).
        split; [lia|]. rewrite Ht0, inject_Z_plus. reflexivity.
      * intros total' (t1 & Ht1 & E1).
        eapply returns_mono; [apply (IH total' t1 E1)|].
        intros x (t & Ht & E). exists t. split; [lia|assumption].
Qed.

Lemma crit_min_above_normal_max (dice : list (Z * Z)) :
  Forall (fun d => 0 <= fst d) dice -> dice_max dice <= crit_dice_min dice.
Proof.
  unfold dice_max, crit_dice_min.
  induction 1 as [|[c s] dice Hc _ IH]; cbn [map zsum foldr]; [lia|].
  fold (zsum (map term_max dice)). fold (zsum (map crit_term_min dice)).
  cbn [fst] in Hc.
  assert (term_max (c, s) <= crit_term_min (c, s)); [|lia].
  unfold term_max, crit_term_min, rolled. cbn [fst snd].
  destruct ((c =? 0) || (s <=? 0)) eqn:Hskip; cbn [negb]; [lia|].
  apply orb_false_elim in Hskip as [Hc0 Hs].
  apply Z.eqb_neq in Hc0. apply Z.leb_gt in Hs.
  destruct (Z.ltb_spec 0 c); nia.
Qed.

(** X13. Every sample of [roll_damage_crunchy_crit] is the value of a
    dice total between the least and the greatest crit total of the
    expression (every rolled die once at its maximum and once rolled);
    for an expression without a leading minus and without a negative dice
    count it is therefore at least the greatest value a normal roll can
    reach. *)
Theorem crunchy_crit_within_dice_bounds (expr : string) (g : rng) :
  let '(sign, dice, modifier) := parse_damage_expression expr in
  exists (x : Q) (g' : rng),
    roll_damage_crunchy_crit expr g = inr (x, g')
    /\ (exists t, crit_dice_min dice <= t <= crit_dice_max dice
                  /\ (x == roll_value sign t modifier)%Q)
    /\ (sign = 1 -> Forall (fun d => 0 <= fst d) dice ->
        (roll_value sign (dice_max dice) modifier <= x)%Q).
Proof.
  assert (H : returns (roll_damage_crunchy_crit expr)
                (fun x =>
                   let '(sign, dice, modifier) := parse_damage_expression expr in
                   exists t, crit_dice_min dice <= t <= crit_dice_max dice
                             /\ (x == roll_value sign t modifier)%Q)).
  { unfold roll_damage_crunchy_crit.
    destruct (parse_damage_expression expr) as [[sign dice] modifier].
    eapply returns_bind.
    - apply (crit_loop_bounds dice 0%Q 0). reflexivity.
    - intros total (t & Ht & E). apply returns_ret. exists t. split; [lia|].
      now apply roll_value_of_total. }
  destruct (H g) as (x & g' & E & Hx).
  destruct (parse_damage_expression expr) as [[sign dice] modifier].
  exists x, g'. split; [exact E|]. split; [exact Hx|].
  intros -> Hcounts. destruct Hx as (t & Ht & Et). rewrite Et.
  pose proof (crit_min_above_normal_max dice Hcounts) as Hle.
  unfold roll_value. apply Q.max_le_compat_l.
  rewrite <- Zle_Qle. lia.
Qed.

(** ** SingleTargetSimulator: rounds add up *)

Lemma foldM_app {S X : Type} (body : S -> X -> M S) (l1 l2 : list X) (st : S) (g : rng) :
  foldM body (l1 ++ l2) st g = bind (foldM body l1 st) (foldM body l2) g.
Proof.
  revert st g. induction l1 as [|x l1 IH]; intros st g; [reflexivity|].
  cbn [app foldM]. unfold bind.
  destruct (body st x g) as [e|[st' g']]; [reflexivity|].
  rewrite IH. reflexivity.
Qed.

(** The round loop does not read the number of rounds. *)
Lemma round_step_ignores_rounds (o : Options) (rounds : Z) :
  SingleTarget.round_step (with_mc_rounds o rounds) = SingleTarget.round_step o.
Proof. reflexivity. Qed.

Lemma vadd_grows (a b : list Q) :
  length a = length b -> Forall (fun x => 0 <= x)%Q b -> Forall2 Qle a (vadd a b).
Proof.
  revert b. induction a as [|x a IH]; intros [|y b] Hlen Hb; try discriminate;
    [constructor|].
  inversion Hb; subst. cbn. constructor; [|apply IH; [now inversion Hlen|assumption]].
  rewrite <- (Qplus_0_r x) at 1. now apply Qplus_le_r.
Qed.

(** One round: the totals keep their shape and none of them shrinks. *)
Lemma returns_round_step_grows (opts : Options) (trials : nat) (ac : Z)
    (save_bonuses : gmap string Z) (thp_avg : Q) (attacks : list Attack)
    (st : list Q * list Z) (k : nat) :
  totals_shape trials st ->
  returns (SingleTarget.round_step opts trials ac save_bonuses thp_avg attacks st k)
          (fun st' => totals_shape trials st' /\ Forall2 Qle (fst st) (fst st')).
Proof.
  intros (Htot & Hpos & Hrid). unfold SingleTarget.round_step.
  destruct st as [total_damage rider_remaining]. cbn [fst snd] in Htot, Hpos, Hrid.
  cbv zeta.
  apply (returns_bind _ _ (round_shape trials)).
  - apply returns_foldM.
    + intros s atk _ Hs. apply returns_attack_step; [| |assumption].
      * destruct (String.eqb _ _);
          [rewrite masked_update_length|]; apply length_replicate.
      * destruct (String.eqb (rider_mode opts) RIDER_ADV);
          [rewrite masked_update_length|]; apply length_replicate.
    + split; apply length_replicate.
  - intros [round_damage triggered_rider] [Hrd Htr]. cbn [fst snd] in Hrd, Htr.
    apply returns_ret. cbn [fst snd]. split; [repeat split; cbn [fst snd]|].
    + unfold vadd. rewrite length_zip_with, length_map. lia.
    + apply vadd_nonneg; [assumption|apply clamped_nonneg].
    + now rewrite length_map, masked_update_length, length_map.
    + apply vadd_grows; [rewrite length_map; lia|apply clamped_nonneg].
Qed.

(** X14. On one and the same random tape, a run of the single-target
    simulator with one round more returns, trial by trial, totals that
    are at least those of the shorter run. *)
Theorem one_more_round_never_lowers_a_total (pc_row : PartyRow)
    (attacks : list Attack) (opts : Options) (g : rng) :
  0 <= mc_trials opts -> 0 <= mc_rounds opts ->
  exists (totals totals' : list Q) (g1 g2 : rng),
    _run_mc_sim pc_row attacks opts g = inr (totals, g1)
    /\ _run_mc_sim pc_row attacks (with_mc_rounds opts (mc_rounds opts + 1)) g
       = inr (totals', g2)
    /\ Forall2 Qle totals totals'.
Proof.
  intros Htrials Hrounds. unfold _run_mc_sim. cbv zeta.
  change (mc_trials (with_mc_rounds opts (mc_rounds opts + 1))) with (mc_trials opts).
  change (mc_rounds (with_mc_rounds opts (mc_rounds opts + 1)))
    with (mc_rounds opts + 1).
  change (thp_expr (with_mc_rounds opts (mc_rounds opts + 1))) with (thp_expr opts).
  rewrite round_step_ignores_rounds.
  destruct (Z.ltb_spec (mc_trials opts) 0); [lia|].
  set (trials := Z.to_nat (mc_trials opts)).
  set (body := SingleTarget.round_step opts trials _ _ _ attacks).
  replace (Z.to_nat (mc_rounds opts + 1)) with (S (Z.to_nat (mc_rounds opts))) by lia.
  rewrite seq_S.
  assert (H0 : totals_shape trials (zeros trials, replicate trials 0)).
  { repeat split; cbn [fst snd]; try apply length_replicate.
    apply Forall_replicate_intro. discriminate. }
  assert (Hloop : returns (foldM body (seq 0 (Z.to_nat (mc_rounds opts)))
                             (zeros trials, replicate trials 0))
                    (totals_shape trials)).
  { apply returns_foldM; [|exact H0]. intros s k _ Hs. now apply returns_round_step. }
  destruct (Hloop g) as (st & g1 & E1 & Hst).
  assert (Hstep : forall st k,
             totals_shape trials st ->
             returns (body st k)
               (fun st' => totals_shape trials st' /\ Forall2 Qle (fst st) (fst st'))).
  { intros st0 k Hst0. now apply returns_round_step_grows. }
  destruct (Hstep st (0 + Z.to_nat (mc_rounds opts))%nat Hst g1)
    as (st' & g2 & E2 & _ & Hgrow).
  exists (fst st), (fst st'), g1, g2.
  split; [unfold bind; now rewrite E1|]. split; [|exact Hgrow].
  unfold bind at 1. rewrite foldM_app. unfold bind at 1. rewrite E1.
  cbn [foldM]. unfold bind at 1. rewrite E2. reflexivity.
Qed.

Lemma one_more_round_never_lowers_a_total_witness :
  0 <= mc_trials DEFAULT_OPTIONS /\ 0 <= mc_rounds DEFAULT_OPTIONS
  /\ exists (totals totals' : list Q) (g1 g2 : rng),
       _run_mc_sim (member "Fighter" 18 40 2) [bite; fire_breath 15]
         DEFAULT_OPTIONS (const_rng 7) = inr (totals, g1)
       /\ _run_mc_sim (member "Fighter" 18 40 2) [bite; fire_breath 15]
            (with_mc_rounds DEFAULT_OPTIONS (mc_rounds DEFAULT_OPTIONS + 1))
            (const_rng 7) = inr (totals', g2)
       /\ Forall2 Qle totals totals'.
Proof.
  assert (H1 : 0 <= mc_trials DEFAULT_OPTIONS) by (cbn; lia).
  assert (H2 : 0 <= mc_rounds DEFAULT_OPTIONS) by (cbn; lia).
  refine (conj H1 (conj H2 _)).
  exact (one_more_round_never_lowers_a_total (member "Fighter" 18 40 2)
           [bite; fire_breath 15] DEFAULT_OPTIONS (const_rng 7) H1 H2).
Defined.

(** ** SingleTargetSimulator: a boss without a usable attack *)

Lemma attacks_all_skipped (opts : Options) (trials : nat)
    (save_bonuses : gmap string Z) (current_ac : list Z)
    (current_mode : list string) (attacks : list Attack) :
  Forall (fun a => uses_per_round a <= 0) attacks ->
  forall (st : list Q * list bool) (g : rng),
    foldM (attack_step opts trials save_bonuses current_ac current_mode) attacks st g
    = inr (st, g).
Proof.
  induction 1 as [|a attacks Ha _ IH]; intros st g; [reflexivity|].
  cbn [foldM]. unfold bind, attack_step at 1.
  destruct (Z.leb_spec (uses_per_round a) 0); [|lia]. apply IH.
Qed.

Lemma idle_rounds (opts : Options) (trials : nat) (ac : Z)
    (save_bonuses : gmap string Z) (thp_avg : Q) (attacks : list Attack)
    (g : rng) (rounds : list nat) :
  (0 <= thp_avg)%Q -> Forall (fun a => uses_per_round a <= 0) attacks ->
  forall st : list Q * list Z,
    length (fst st) = trials -> Forall (fun x => x == 0)%Q (fst st) ->
    exists st',
      foldM (SingleTarget.round_step opts trials ac save_bonuses thp_avg attacks)
            rounds st g = inr (st', g)
      /\ length (fst st') = trials /\ Forall (fun x => x == 0)%Q (fst st').
Proof.
  intros Hthp Hidle. induction rounds as [|k rounds IH]; intros [total rider] Hlen Hzero.
  - exists (total, rider). now split.
  - cbn [foldM]. unfold bind at 1, SingleTarget.round_step at 1. cbv zeta.
    unfold bind at 1. rewrite (attacks_all_skipped _ _ _ _ _ _ Hidle).
    cbn [fst snd] in *. apply IH; cbn [fst].
    + unfold vadd, zeros. rewrite length_zip_with, length_map, length_replicate. lia.
    + unfold vadd, zeros. rewrite map_replicate.
      assert (E : (Qmax 0 (0 - thp_avg) == 0)%Q).
      { apply Q.max_l. apply Qplus_le_l with thp_avg. ring_simplify. exact Hthp. }
      apply (Forall_zip_with (fun x => x == 0)%Q (fun y => y == 0)%Q
               (fun z => z == 0)%Q);
        [|exact Hzero|apply Forall_replicate_intro; exact E].
      intros x y Hx Hy. rewrite Hx, Hy. reflexivity.
Qed.

(** X15. When no attack of the list has a use per round, the
    single-target simulator returns a total of 0 for every trial and
    reads nothing from the random tape. *)
Theorem no_usable_attack_deals_nothing (pc_row : PartyRow) (attacks : list Attack)
    (opts : Options) (g : rng) :
  0 <= mc_trials opts ->
  Forall (fun a => uses_per_round a <= 0) attacks ->
  exists totals : list Q,
    _run_mc_sim pc_row attacks opts g = inr (totals, g)
    /\ length totals = Z.to_nat (mc_trials opts)
    /\ Forall (fun x => x == 0)%Q totals.
Proof.
  intros Htrials Hidle. unfold _run_mc_sim. cbv zeta.
  destruct (Z.ltb_spec (mc_trials opts) 0); [lia|].
  destruct (idle_rounds opts (Z.to_nat (mc_trials opts)) (get_int pc_row "AC" 10)
              (list_to_map (map (fun k => (k, get_int pc_row k 0)) SAVE_KEYS))
              (average_damage (thp_expr opts)) attacks g
              (seq 0 (Z.to_nat (mc_rounds opts)))
              (average_damage_nonneg _) Hidle
              (zeros (Z.to_nat (mc_trials opts)),
               replicate (Z.to_nat (mc_trials opts)) 0))
    as (st' & E & Hlen & Hzero).
  - apply length_replicate.
  - apply Forall_replicate_intro. reflexivity.
  - exists (fst st'). unfold bind. rewrite E. now split.
Qed.

Lemma no_usable_attack_deals_nothing_witness :
  0 <= mc_trials DEFAULT_OPTIONS
  /\ Forall (fun a => uses_per_round a <= 0) (@nil Attack)
  /\ exists totals : list Q,
       _run_mc_sim (member "Fighter" 18 40 2) [] DEFAULT_OPTIONS (const_rng 7)
       = inr (totals, const_rng 7)
       /\ length totals = Z.to_nat (mc_trials DEFAULT_OPTIONS)
       /\ Forall (fun x => x == 0)%Q totals.
Proof.
  assert (H1 : 0 <= mc_trials DEFAULT_OPTIONS) by (cbn; lia).
  assert (H2 : Forall (fun a => uses_per_round a <= 0) (@nil Attack)) by constructor.
  refine (conj H1 (conj H2 _)).
  exact (no_usable_attack_deals_nothing (member "Fighter" 18 40 2) []
           DEFAULT_OPTIONS (const_rng 7) H1 H2).
Defined.

(** ** EncounterSimulator: when it returns nothing *)

(** X16. On a well-formed configuration the encounter simulator returns;
    it returns nothing exactly when there is nothing to simulate (no
    party member, or no enabled attack together with neither lair action
    nor recharge power, or no damage row for the party), and then it
    reads nothing from the random tape. *)
Theorem encounter_refuses_exactly_empty_inputs (app : AppState) (g : rng) :
  well_formed app ->
  exists (r : option Metrics) (g' : rng),
    _run_encounter_mc app g = inr (r, g')
    /\ (r = None <-> nothing_to_simulate app = true)
    /\ (nothing_to_simulate app = true -> g' = g).
Proof.
  intros (Htrials & Hlair & Hrech & Hatk).
  unfold _run_encounter_mc, nothing_to_simulate. cbv zeta.
  destruct (is_nil (party_table app));
    [exists None, g; repeat split; reflexivity|].
  cbn [orb].
  match goal with |- context [if ?c then ret None else _] => destruct c end;
    [exists None, g; repeat split; reflexivity|].
  cbn [orb].
  destruct (is_nil (_eff_party_dprs app (enc_use_nova (options app))));
    [exists None, g; repeat split; reflexivity|].
  destruct (enc_trials (options app) <? 0) eqn:Hneg;
    [apply Z.ltb_lt in Hneg; lia|].
  set (n := Z.to_nat (enc_trials (options app))).
  set (P := length (map Name (party_table app))).
  assert (HP : length (party_table app) = P) by (unfold P; now rewrite length_map).
  match goal with |- context [bind ?m ?k] =>
    assert (Hloop : returns m (enc_shape n P))
  end.
  { apply returns_forM_break.
    - intros st rnd _ Hst. apply returns_encounter_round_step; try assumption.
      + now rewrite length_map.
      + now rewrite length_map.
      + split; [now rewrite length_map|]. apply List.Forall_forall.
        intros row Hrow. apply in_map_iff in Hrow as (pc & <- & _).
        now rewrite length_map.
    - split; [apply shape2_replicate; now rewrite length_map|].
      split; [apply shape2_replicate, length_replicate|].
      split; [apply shape2_replicate, length_replicate|].
      apply length_replicate. }
  destruct (Hloop g) as (st & g' & E & _).
  eexists _, g'. split; [unfold bind; rewrite E; reflexivity|].
  split; [split; discriminate|discriminate].
Qed.

Lemma encounter_refuses_exactly_empty_inputs_witness :
  well_formed skirmish
  /\ exists (r : option Metrics) (g' : rng),
       _run_encounter_mc skirmish mixed_rng = inr (r, g')
       /\ (r = None <-> nothing_to_simulate skirmish = true)
       /\ (nothing_to_simulate skirmish = true -> g' = mixed_rng).
Proof.
  exact (conj well_formed_skirmish
           (encounter_refuses_exactly_empty_inputs skirmish mixed_rng
              well_formed_skirmish)).
Defined.

(** ** EncounterSimulator: damage is never undone *)

Lemma scatter_add_length (v : list Q) : forall (mask : list bool) (draws : list Q),
  length (scatter_add v mask draws) = length v.
Proof.
  induction v as [|x v IH]; intros [|[] mask] draws; cbn [scatter_add];
    try reflexivity.
  - destruct draws; cbn [length]; now rewrite IH.
  - cbn [length]. now rewrite IH.
Qed.

Lemma masked_subtraction_le (boss : list Q) : forall (dmg : list Q) (mask : list bool),
  length boss = length mask -> length dmg = length mask ->
  Forall (fun d => 0 <= d)%Q dmg ->
  Forall2 Qle
    (zip_with (fun '(hp, d) (m : bool) => if m then (hp - d)%Q else hp)
       (zip boss dmg) mask)
    boss.
Proof.
  induction boss as [|hp boss IH]; intros [|d dmg] [|m mask] Hb Hd Hpos;
    try discriminate; [constructor|].
  inversion Hpos; subst. cbn. constructor.
  - destruct m; [|apply Qle_refl].
    apply Qplus_le_l with d. ring_simplify.
    rewrite <- (Qplus_0_r hp) at 1. now apply Qplus_le_r.
  - apply IH; [now inversion Hb|now inversion Hd|assumption].
Qed.

(** X17. The party's turn never raises the boss's hit points in any
    trial (regeneration can cancel the party's damage, not exceed it) and
    leaves the party's own arrays as they were. *)
Theorem party_phase_never_heals_the_boss (P : nat) (eff_means : list Q)
    (dpr_cv resist regen : Q) (rnd : Z) (mask : list bool) (st : EncState) :
  length eff_means = P -> length (boss_hp_t st) = length mask ->
  returns (party_phase P eff_means dpr_cv resist regen rnd mask st)
          (fun st' => Forall2 Qle (boss_hp_t st') (boss_hp_t st)
                      /\ pcs_hp st' = pcs_hp st /\ pcs_alive st' = pcs_alive st).
Proof.
  intros Heff Hboss. unfold party_phase. cbv zeta.
  apply (returns_bind _ _ (fun dmg => length dmg = length mask)).
  - apply returns_foldM; [|apply length_replicate]. intros dmg j Hj Hdmg.
    destruct (negb (any _)); [now apply returns_ret|].
    apply in_seq in Hj.
    eapply returns_bind; [apply returns_at_index; lia|]. intros means _.
    eapply returns_bind; [apply returns_replicateM, returns_gamma_rng|].
    intros draws _. apply returns_ret. now rewrite scatter_add_length.
  - intros dmg Hdmg. apply returns_ret. cbn [boss_hp_t pcs_hp pcs_alive].
    split; [|split; reflexivity].
    apply masked_subtraction_le; [assumption|now rewrite length_map|].
    apply Forall_map. apply Forall_forall. intros d _. apply Q.le_max_l.
Qed.

Lemma party_phase_never_heals_the_boss_witness :
  length [15%Q; 12%Q] = 2%nat
  /\ length (boss_hp_t skirmish_round) = length [true]
  /\ returns (party_phase 2 [15%Q; 12%Q] 1 1 50 1 [true] skirmish_round)
       (fun st' => Forall2 Qle (boss_hp_t st') (boss_hp_t skirmish_round)
                   /\ pcs_hp st' = pcs_hp skirmish_round
                   /\ pcs_alive st' = pcs_alive skirmish_round).
Proof.
  assert (H1 : length [15%Q; 12%Q] = 2%nat) by reflexivity.
  assert (H2 : length (boss_hp_t skirmish_round) = length [true]) by reflexivity.
  exact (conj H1 (conj H2
           (party_phase_never_heals_the_boss 2 [15%Q; 12%Q] 1 1 50 1 [true]
              skirmish_round H1 H2))).
Defined.

Lemma Forall2_insert_l {A B : Type} (R : A -> B -> Prop) (x : A) (i : nat)
    (l : list A) (k : list B) :
  (forall y, R x y) -> Forall2 R l k -> Forall2 R (<[i := x]> l) k.
Proof.
  intros Hx H. revert i. induction H as [|a b l k Hab Hlk IH]; intros [|i]; simpl.
  - constructor.
  - constructor.
  - constructor; [apply Hx|assumption].
  - constructor; [assumption|apply IH].
Qed.

Lemma Forall2_diag {A : Type} (R : A -> A -> Prop) (l : list A) :
  (forall x, R x x) -> Forall2 R l l.
Proof. intros H. induction l; constructor; auto. Qed.

Lemma returns_and_ensures {A : Type} (m : M A) (P Q : A -> Prop) :
  returns m P -> ensures m Q -> returns m (fun a => P a /\ Q a).
Proof.
  intros Hr He g. destruct (Hr g) as (a & g' & E & Ha).
  exists a, g'. split; [assumption|]. split; [assumption|].
  exact (He g a g' E).
Qed.

Section NoBetter.
Variables (hp0 : list (list Q)) (alive0 : list (list bool)).

Let no_better (b : BossSt) : Prop :=
  party_no_better (b_hp b) hp0 (b_alive b) alive0.

Lemma ensures_apply_damage (t idx : nat) (dealt : Q) (st : BossSt) :
  (0 <= dealt)%Q -> no_better st ->
  ensures (apply_damage t idx dealt st) no_better.
Proof.
  intros Hdealt [Hhp Halive]. unfold apply_damage. cbv zeta.
  eapply ensures_bind; [apply ensures_any|]. intros h _.
  eapply ensures_bind; [apply ensures_any|]. intros a _.
  apply ensures_ret. split; cbn [b_hp b_alive].
  - apply Forall2_alter_l; [assumption|]. intros row row0 _ _ Hrow.
    apply Forall2_alter_l; [assumption|]. intros x y _ _ Hxy.
    apply Qle_trans with x; [|assumption].
    apply Qplus_le_l with dealt. ring_simplify.
    rewrite <- (Qplus_0_r x) at 1. now apply Qplus_le_r.
  - destruct (Qle_bool h 0 && a); [|assumption].
    apply Forall2_alter_l; [assumption|]. intros row row0 _ _ Hrow.
    apply Forall2_insert_l; [|assumption]. intros y. discriminate.
Qed.

Lemma ensures_use_step (o : Options) (thp_avg : Q) (pc_saves : list (list Z))
    (save_index : gmap string nat) (current_ac : list (list Z))
    (current_mode : list (list string)) (round_pool : list (option (list nat)))
    (atk : Attack) (st : BossSt) (t : nat) :
  no_better st ->
  ensures (use_step o thp_avg pc_saves save_index current_ac current_mode
             round_pool atk st t)
          no_better.
Proof.
  intros Hst. unfold use_step.
  eapply ensures_bind; [apply ensures_any|]. intros pool _.
  destruct pool as [pool|]; [|now apply ensures_ret].
  destruct (length pool =? 0)%nat; [now apply ensures_ret|].
  eapply ensures_bind; [apply ensures_any|]. intros alive_t _. cbv zeta.
  match goal with |- ensures (if ?c then _ else _) _ => destruct c end;
    [now apply ensures_ret|].
  eapply ensures_bind; [apply ensures_any|]. intros target _.
  eapply ensures_bind; [apply ensures_any|]. intros a _.
  destruct (negb a); [now apply ensures_ret|].
  eapply ensures_bind; [apply ensures_any|]. intros r _.
  apply ensures_apply_damage; [apply Q.le_max_l|exact Hst].
Qed.

Lemma ensures_area_damage (thp_avg avg : Q) (k : Z) (st : BossSt) (t : nat) :
  no_better st -> ensures (area_damage thp_avg avg k st t) no_better.
Proof.
  intros Hst. unfold area_damage.
  eapply ensures_bind; [apply ensures_any|]. intros alive_t _. cbv zeta.
  destruct (length (where_ alive_t) =? 0)%nat; [now apply ensures_ret|].
  destruct (Z.min k (Z.of_nat (length (where_ alive_t))) <? 0);
    [apply ensures_raise|].
  eapply ensures_bind; [apply ensures_any|]. intros targets _.
  apply ensures_foldM; [|assumption]. intros b idx _ Hb.
  eapply ensures_bind; [apply ensures_any|]. intros dealt _. cbv zeta.
  apply ensures_apply_damage; [apply Q.le_max_l|exact Hb].
Qed.

End NoBetter.

Lemma ensures_boss_phase_no_better (o : Options) (P : nat) (attacks : list Attack)
    (thp_avg : Q) (spread : Z) (pc_AC : list Z) (pc_saves : list (list Z))
    (save_index : gmap string nat) (rnd : Z) (st : EncState) :
  ensures (boss_phase o P attacks thp_avg spread pc_AC pc_saves save_index rnd st)
          (fun st' => party_no_better (pcs_hp st') (pcs_hp st)
                        (pcs_alive st') (pcs_alive st)
                      /\ boss_hp_t st' = boss_hp_t st /\ ttk st' = ttk st).
Proof.
  unfold boss_phase. cbv zeta.
  set (inv := fun b : BossSt =>
                party_no_better (b_hp b) (pcs_hp st) (b_alive b) (pcs_alive st)).
  eapply ensures_bind; [apply ensures_any|]. intros round_pool _.
  apply (ensures_bind _ _ inv).
  { apply ensures_foldM.
    - intros b atk _ Hb. destruct (uses_per_round atk <=? 0);
        [now apply ensures_ret|].
      apply ensures_foldM; [|assumption]. intros b1 _ _ Hb1.
      apply ensures_foldM; [|assumption]. intros b2 t _ Hb2.
      now apply ensures_use_step.
    - split; cbn [b_hp b_alive].
      + apply Forall2_diag. intros row. apply Forall2_diag. apply Qle_refl.
      + apply Forall2_diag. intros row. apply Forall2_diag. intros x Hx. exact Hx. }
  intros b1 Hb1.
  apply (ensures_bind _ _ inv).
  { match goal with |- ensures (if ?c then _ else _) _ => destruct c end;
      [|now apply ensures_ret].
    apply ensures_foldM; [|assumption]. intros b t _ Hb.
    now apply ensures_area_damage. }
  intros b2 Hb2.
  apply (ensures_bind _ _ inv).
  { destruct (rech_enabled o); [|now apply ensures_ret]. cbv zeta.
    apply ensures_foldM; [|assumption]. intros b t _ Hb.
    eapply ensures_bind; [apply ensures_any|]. intros u _.
    destruct (negb _); [|now apply ensures_ret].
    now apply ensures_area_damage. }
  intros b3 Hb3. apply ensures_ret. cbn [pcs_hp pcs_alive boss_hp_t ttk].
  split; [exact Hb3|]. split; reflexivity.
Qed.

(** X18. On shapes that fit, the boss's turn returns, and in no trial
    does it raise a party member's hit points or bring a fallen member
    back up; the boss's hit points and the time-to-kill array are left as
    they were. *)
Theorem boss_phase_never_undoes_damage (o : Options) (P : nat)
    (attacks : list Attack) (thp_avg : Q) (spread : Z) (pc_AC : list Z)
    (pc_saves : list (list Z)) (rnd : Z) (st : EncState) (n : nat) :
  Forall (fun atk => kind atk = "save"%string ->
                     In (upper (save_stat atk)) SAVE_KEYS) attacks ->
  (lair_enabled o = true -> 0 <= lair_targets o) ->
  (rech_enabled o = true -> 0 <= rech_targets o) ->
  length pc_AC = P -> shape2 P (length SAVE_KEYS) pc_saves ->
  enc_shape n P st ->
  returns (boss_phase o P attacks thp_avg spread pc_AC pc_saves
             (list_to_map (zip SAVE_KEYS (seq 0 (length SAVE_KEYS)))) rnd st)
          (fun st' => party_no_better (pcs_hp st') (pcs_hp st)
                        (pcs_alive st') (pcs_alive st)
                      /\ boss_hp_t st' = boss_hp_t st /\ ttk st' = ttk st).
Proof.
  intros Hatk Hlair Hrech Hac Hsaves Hst.
  eapply returns_mono.
  - apply returns_and_ensures.
    + apply (returns_boss_phase o P attacks thp_avg spread pc_AC pc_saves rnd st n);
        assumption.
    + apply ensures_boss_phase_no_better.
  - intros st' [_ H]. exact H.
Qed.

Lemma boss_phase_never_undoes_damage_witness :
  let o := options skirmish in
  let attacks := [bite; fire_breath 15] in
  let pc_saves := [[0; 2; 0; 0; 0; 0]; [0; 5; 0; 0; 0; 0]] in
  Forall (fun atk => kind atk = "save"%string ->
                     In (upper (save_stat atk)) SAVE_KEYS) attacks
  /\ (lair_enabled o = true -> 0 <= lair_targets o)
  /\ (rech_enabled o = true -> 0 <= rech_targets o)
  /\ length [18; 16] = 2%nat
  /\ shape2 2 (length SAVE_KEYS) pc_saves
  /\ enc_shape 1 2 skirmish_round
  /\ returns (boss_phase o 2 attacks 0 2 [18; 16] pc_saves
                (list_to_map (zip SAVE_KEYS (seq 0 (length SAVE_KEYS)))) 1
                skirmish_round)
       (fun st' => party_no_better (pcs_hp st') (pcs_hp skirmish_round)
                     (pcs_alive st') (pcs_alive skirmish_round)
                   /\ boss_hp_t st' = boss_hp_t skirmish_round
                   /\ ttk st' = ttk skirmish_round).
Proof.
  cbv zeta.
  assert (H1 : Forall (fun atk => kind atk = "save"%string ->
                                  In (upper (save_stat atk)) SAVE_KEYS)
                 [bite; fire_breath 15]).
  { repeat constructor; cbn; intros H; first [discriminate H | tauto]. }
  assert (H2 : lair_enabled (options skirmish) = true ->
               0 <= lair_targets (options skirmish)) by (cbn; intros _; lia).
  assert (H3 : rech_enabled (options skirmish) = true ->
               0 <= rech_targets (options skirmish)) by (cbn; intros _; lia).
  assert (H4 : length [18; 16] = 2%nat) by reflexivity.
  assert (H5 : shape2 2 (length SAVE_KEYS)
                 [[0; 2; 0; 0; 0; 0]; [0; 5; 0; 0; 0; 0]]).
  { split; [reflexivity|]. repeat constructor. }
  assert (H6 : enc_shape 1 2 skirmish_round).
  { repeat split; repeat constructor. }
  exact (conj H1 (conj H2 (conj H3 (conj H4 (conj H5 (conj H6
           (boss_phase_never_undoes_damage (options skirmish) 2
              [bite; fire_breath 15] 0 2 [18; 16]
              [[0; 2; 0; 0; 0; 0]; [0; 5; 0; 0; 0; 0]] 1 skirmish_round 1
              H1 H2 H3 H4 H5 H6))))))).
Defined.

(** ** DeterministicEstimator *)

Import Deterministic.

Lemma parse_recharge_bounds (text : string) : (0 <= parse_recharge text <= 1)%Q.
Proof.
  unfold parse_recharge. cbv zeta.
  destruct (is_empty _); [split; discriminate|].
  destruct (contains_char "-" _).
  - destruct (split_first "-" _) as [lo_s hi_s].
    destruct (PyStr.int lo_s) as [lo|]; [|split; discriminate].
    destruct (PyStr.int hi_s) as [hi|]; [|split; discriminate].
    cbv beta iota.
    assert (H : 1 <= Z.max 1 (Z.min 6 (Z.max lo hi))
                     - Z.max 1 (Z.min 6 (Z.min lo hi)) + 1 <= 6) by lia.
    generalize dependent (Z.max 1 (Z.min 6 (Z.max lo hi))
                          - Z.max 1 (Z.min 6 (Z.min lo hi)) + 1).
    intros k Hk. split; q_arith.
  - destruct (PyStr.int _) as [k|]; [|split; discriminate].
    assert (H : 1 <= 7 - Z.max 2 (Z.min 6 k) <= 5) by lia.
    generalize dependent (7 - Z.max 2 (Z.min 6 k)).
    intros j Hj. split; q_arith.
Qed.

Lemma Qmult_le_l_nonneg (x y z : Q) :
  (0 <= z)%Q -> (x <= y)%Q -> (z * x <= z * y)%Q.
Proof.
  intros Hz Hxy. rewrite (Qmult_comm z x), (Qmult_comm z y).
  now apply Qmult_le_compat_r.
Qed.

Lemma Qle_0_div (a b : Q) : (0 <= a)%Q -> (0 < b)%Q -> (0 <= a / b)%Q.
Proof.
  intros Ha Hb. apply Qle_shift_div_l; [assumption|]. now rewrite Qmult_0_l.
Qed.


Lemma cadence_positive (n : Z) : (0 < inject_Z (Z.max 1 n))%Q.
Proof. rewrite <- (Zlt_Qlt 0). lia. Qed.

Lemma cadence_at_least_1 (n : Z) : (1 <= inject_Z (Z.max 1 n))%Q.
Proof. rewrite <- (Zle_Qle 1). lia. Qed.

Lemma p_hit_bounds (targets size : Z) :
  0 <= targets -> 0 < size ->
  (0 <= Qmin 1 (inject_Z targets / inject_Z size) <= 1)%Q.
Proof.
  intros Ht Hs. split; [|apply Q.le_min_l].
  apply Q.min_glb; [discriminate|].
  apply Qle_0_div; [now rewrite <- (Zle_Qle 0)|now rewrite <- (Zlt_Qlt 0)].
Qed.

(** X19. With a lair average, a recharge average and target counts that
    are not negative, the per-target DPR of the lair action lies between
    0 and the lair average divided by its cadence, and that of the
    recharge power between 0 and the recharge chance times its average;
    neither exceeds its configured average. *)
Theorem additive_dpr_within_configured_averages (o : Options) (party_size : Z) :
  (0 <= lair_avg o)%Q -> 0 <= lair_targets o ->
  (0 <= rech_avg o)%Q -> 0 <= rech_targets o ->
  (0 <= lair_per_target_dpr o party_size)%Q
  /\ (lair_per_target_dpr o party_size
      <= lair_avg o / inject_Z (Z.max 1 (lair_every_n o)))%Q
  /\ (lair_avg o / inject_Z (Z.max 1 (lair_every_n o)) <= lair_avg o)%Q
  /\ (0 <= recharge_per_target_dpr o party_size)%Q
  /\ (recharge_per_target_dpr o party_size
      <= parse_recharge (recharge_text o) * rech_avg o)%Q
  /\ (parse_recharge (recharge_text o) * rech_avg o <= rech_avg o)%Q.
Proof.
  intros Hla Hlt Hra Hrt.
  pose proof (cadence_positive (lair_every_n o)) as Hc.
  pose proof (cadence_at_least_1 (lair_every_n o)) as Hc1.
  destruct (parse_recharge_bounds (recharge_text o)) as [Hp0 Hp1].
  assert (Hcap : (lair_avg o / inject_Z (Z.max 1 (lair_every_n o)) <= lair_avg o)%Q).
  { apply Qle_shift_div_r; [assumption|].
    rewrite <- (Qmult_1_r (lair_avg o)) at 1.
    apply Qmult_le_l_nonneg; assumption. }
  assert (Hrcap : (parse_recharge (recharge_text o) * rech_avg o <= rech_avg o)%Q).
  { rewrite <- (Qmult_1_l (rech_avg o)) at 2. now apply Qmult_le_compat_r. }
  assert (Hl0 : (0 <= lair_avg o / inject_Z (Z.max 1 (lair_every_n o)))%Q)
    by now apply Qle_0_div.
  assert (Hr0 : (0 <= parse_recharge (recharge_text o) * rech_avg o)%Q)
    by now apply Qmult_le_0_compat.
  unfold lair_per_target_dpr, recharge_per_target_dpr. cbv zeta.
  split; [|split; [|split; [exact Hcap|split; [|split; [|exact Hrcap]]]]].
  - destruct (negb (lair_enabled o) || (party_size <=? 0)) eqn:E; [discriminate|].
    apply orb_false_elim in E as [_ Hs]. apply Z.leb_gt in Hs.
    destruct (p_hit_bounds _ _ Hlt Hs) as [H0 _].
    apply Qle_0_div; [now apply Qmult_le_0_compat|assumption].
  - destruct (negb (lair_enabled o) || (party_size <=? 0)) eqn:E; [exact Hl0|].
    apply orb_false_elim in E as [_ Hs]. apply Z.leb_gt in Hs.
    destruct (p_hit_bounds _ _ Hlt Hs) as [_ H1].
    unfold Qdiv. apply Qmult_le_compat_r;
      [|apply Qlt_le_weak, Qinv_lt_0_compat; assumption].
    rewrite <- (Qmult_1_r (lair_avg o)) at 2.
    now apply Qmult_le_l_nonneg.
  - destruct (negb (rech_enabled o) || (party_size <=? 0)) eqn:E; [discriminate|].
    apply orb_false_elim in E as [_ Hs]. apply Z.leb_gt in Hs.
    destruct (p_hit_bounds _ _ Hrt Hs) as [H0 _].
    now apply Qmult_le_0_compat.
  - destruct (negb (rech_enabled o) || (party_size <=? 0)) eqn:E; [exact Hr0|].
    apply orb_false_elim in E as [_ Hs]. apply Z.leb_gt in Hs.
    destruct (p_hit_bounds _ _ Hrt Hs) as [_ H1].
    rewrite <- (Qmult_1_r (parse_recharge (recharge_text o) * rech_avg o)) at 2.
    now apply Qmult_le_l_nonneg.
Qed.

Lemma additive_dpr_within_configured_averages_witness :
  let o := options skirmish in
  (0 <= lair_avg o)%Q /\ 0 <= lair_targets o
  /\ (0 <= rech_avg o)%Q /\ 0 <= rech_targets o
  /\ (0 <= lair_per_target_dpr o 2)%Q
  /\ (lair_per_target_dpr o 2 <= lair_avg o / inject_Z (Z.max 1 (lair_every_n o)))%Q
  /\ (lair_avg o / inject_Z (Z.max 1 (lair_every_n o)) <= lair_avg o)%Q
  /\ (0 <= recharge_per_target_dpr o 2)%Q
  /\ (recharge_per_target_dpr o 2 <= parse_recharge (recharge_text o) * rech_avg o)%Q
  /\ (parse_recharge (recharge_text o) * rech_avg o <= rech_avg o)%Q.
Proof.
  cbv zeta.
  assert (H1 : (0 <= lair_avg (options skirmish))%Q) by discriminate.
  assert (H2 : 0 <= lair_targets (options skirmish)) by (cbn; lia).
  assert (H3 : (0 <= rech_avg (options skirmish))%Q) by discriminate.
  assert (H4 : 0 <= rech_targets (options skirmish)) by (cbn; lia).
  exact (conj H1 (conj H2 (conj H3 (conj H4
           (additive_dpr_within_configured_averages (options skirmish) 2
              H1 H2 H3 H4))))).
Defined.

(** ** DeterministicEstimator: armour class and expected damage per round *)

Lemma hit_probs_nonneg (ac ab : Z) (mode : string) :
  (0 <= fst (fst (hit_probs ac ab mode)))%Q
  /\ (0 <= snd (fst (hit_probs ac ab mode)))%Q.
Proof.
  rewrite hit_probs_threshold.
  pose proof (hit_threshold_range ac ab) as Hc.
  generalize dependent (hit_threshold ac ab). intros c Hc.
  destruct (hit_probs_mode_cases mode) as [->|[->|(_ & _ & E)]].
  - destruct (hit_table_normal c Hc) as (E1 & E2 & _). cbv zeta in *.
    rewrite E1, E2. split; [q_arith|discriminate].
  - destruct (hit_table_adv c Hc) as (E1 & E2 & _). cbv zeta in *.
    rewrite E1, E2. split; [q_arith|discriminate].
  - rewrite E. destruct (hit_table_dis c Hc) as (E1 & E2 & _). cbv zeta in *.
    rewrite E1, E2. split; [q_arith|discriminate].
Qed.

Lemma expected_attack_damage_nonneg (ac ab : Z) (dmg mode : string) :
  (0 <= expected_attack_damage ac ab dmg mode)%Q.
Proof.
  rewrite expected_attack_damage_table.
  destruct (hit_probs_nonneg ac ab mode) as [Hn Hc].
  replace 0%Q with (0 + 0)%Q by reflexivity.
  apply Qplus_le_compat; apply Qmult_le_0_compat;
    auto using average_damage_nonneg, average_crit_nonneg.
Qed.

Lemma expected_attack_damage_le (ac ab ac' ab' : Z) (dmg mode : string) :
  ac - ab <= ac' - ab' ->
  (expected_attack_damage ac' ab' dmg mode <= expected_attack_damage ac ab dmg mode)%Q.
Proof.
  intros Hle. rewrite !expected_attack_damage_table.
  rewrite (hit_probs_threshold ac ab), (hit_probs_threshold ac' ab').
  destruct (hit_table_monotone mode _ _ (hit_threshold_range ac ab)
              (hit_threshold_range ac' ab') (hit_threshold_mono _ _ _ _ Hle))
    as [Hn Hc].
  apply Qplus_le_compat.
  - apply Qmult_le_compat_r; [assumption|apply average_damage_nonneg].
  - rewrite Hc. apply Qle_refl.
Qed.

Lemma expected_save_half_damage_nonneg (dc bonus : Z) (dmg : string) :
  (0 <= expected_save_half_damage dc bonus dmg)%Q.
Proof.
  unfold expected_save_half_damage.
  apply Qmult_le_0_compat; [|apply average_damage_nonneg].
  destruct (p_save_fail_bounds dc bonus) as [Hlo _].
  replace 0%Q with (0 + 0)%Q by reflexivity.
  apply Qplus_le_compat; [discriminate|].
  apply Qmult_le_0_compat; [discriminate|].
  apply Qle_trans with (1 # 20)%Q; [discriminate|assumption].
Qed.

Lemma expected_save_half_damage_le (dc bonus bonus' : Z) (dmg : string) :
  bonus <= bonus' ->
  (expected_save_half_damage dc bonus' dmg <= expected_save_half_damage dc bonus dmg)%Q.
Proof.
  intros Hle. unfold expected_save_half_damage.
  apply Qmult_le_compat_r; [|apply average_damage_nonneg].
  apply Qplus_le_r, Qmult_le_l; [reflexivity|].
  apply p_save_fail_mono. lia.
Qed.

(** The row [pc_row] with another armour class. *)
Lemma get_int_with_ac (pc_row : PartyRow) (ac' : Z) (k : string) (d : Z) :
  get_int {| Name := Name pc_row; ints := <["AC"%string := ac']> (ints pc_row) |} k d
  = if String.eqb k "AC" then ac' else get_int pc_row k d.
Proof.
  unfold get_int. cbn [ints].
  destruct (String.eqb_spec k "AC") as [->|Hk].
  - now rewrite lookup_insert_eq.
  - now rewrite lookup_insert_ne by congruence.
Qed.

(** X20. Raising a party member's armour class, all else equal, never
    raises the boss's expected damage per round against that member, and
    that expected damage is never negative. *)
Theorem higher_ac_never_raises_boss_dpr (pc_row : PartyRow) (ac' : Z)
    (mode : string) (attacks : list Attack) :
  get_int pc_row "AC" 10 <= ac' ->
  let armoured :=
    {| Name := Name pc_row; ints := <["AC"%string := ac']> (ints pc_row) |} in
  (0 <= per_round_dpr_vs_pc armoured mode attacks)%Q
  /\ (per_round_dpr_vs_pc armoured mode attacks
      <= per_round_dpr_vs_pc pc_row mode attacks)%Q.
Proof.
  intros Hac. cbv zeta. unfold per_round_dpr_vs_pc. cbv zeta.
  rewrite get_int_with_ac. change (String.eqb "AC" "AC") with true. cbv iota.
  assert (H : forall acc' acc : Q,
             (0 <= acc')%Q -> (acc' <= acc)%Q ->
             (0 <= fold_left
                     (fun total_dpr atk =>
                        if uses_per_round atk <=? 0 then total_dpr
                        else
                          (total_dpr
                           + (if String.eqb (kind atk) "save"
                              then expected_save_half_damage (dc atk)
                                     (get_save_bonus
                                        {| Name := Name pc_row;
                                           ints := <["AC"%string := ac']> (ints pc_row) |}
                                        (save_stat atk)) (damage_expr atk)
                              else expected_attack_damage ac' (attack_bonus atk)
                                     (damage_expr atk) mode)
                             * inject_Z (uses_per_round atk))%Q)
                     attacks acc')%Q
             /\ (fold_left
                   (fun total_dpr atk =>
                      if uses_per_round atk <=? 0 then total_dpr
                      else
                        (total_dpr
                         + (if String.eqb (kind atk) "save"
                            then expected_save_half_damage (dc atk)
                                   (get_save_bonus
                                      {| Name := Name pc_row;
                                         ints := <["AC"%string := ac']> (ints pc_row) |}
                                      (save_stat atk)) (damage_expr atk)
                            else expected_attack_damage ac' (attack_bonus atk)
                                   (damage_expr atk) mode)
                           * inject_Z (uses_per_round atk))%Q)
                   attacks acc'
                 <= fold_left
                      (fun total_dpr atk =>
                         if uses_per_round atk <=? 0 then total_dpr
                         else
                           (total_dpr
                            + (if String.eqb (kind atk) "save"
                               then expected_save_half_damage (dc atk)
                                      (get_save_bonus pc_row (save_stat atk))
                                      (damage_expr atk)
                               else expected_attack_damage (get_int pc_row "AC" 10)
                                      (attack_bonus atk) (damage_expr atk) mode)
                              * inject_Z (uses_per_round atk))%Q)
                      attacks acc)%Q).
  { induction attacks as [|atk attacks IH]; intros acc' acc H0 Hle;
      cbn [fold_left]; [now split|].
    destruct (Z.leb_spec (uses_per_round atk) 0) as [|Huses]; [now apply IH|].
    assert (Hu : (0 <= inject_Z (uses_per_round atk))%Q)
      by (rewrite <- (Zle_Qle 0); lia).
    destruct (String.eqb (kind atk) "save").
    - apply IH.
      + replace 0%Q with (0 + 0)%Q by reflexivity.
        apply Qplus_le_compat; [assumption|].
        apply Qmult_le_0_compat; [apply expected_save_half_damage_nonneg|assumption].
      + apply Qplus_le_compat; [assumption|].
        apply Qmult_le_compat_r; [|assumption].
        apply expected_save_half_damage_le.
        unfold get_save_bonus. rewrite get_int_with_ac.
        destruct (String.eqb_spec (upper (save_stat atk)) "AC") as [->|_]; [|lia].
        unfold get_int in *. destruct (ints pc_row !! "AC"%string); cbn in *; lia.
    - apply IH.
      + replace 0%Q with (0 + 0)%Q by reflexivity.
        apply Qplus_le_compat; [assumption|].
        apply Qmult_le_0_compat; [apply expected_attack_damage_nonneg|assumption].
      + apply Qplus_le_compat; [assumption|].
        apply Qmult_le_compat_r; [|assumption].
        apply expected_attack_damage_le. lia. }
  apply H; apply Qle_refl.
Qed.

Lemma higher_ac_never_raises_boss_dpr_witness :
  get_int (member "Rogue" 16 35 5) "AC" 10 <= 19
  /\ (0 <= per_round_dpr_vs_pc
             {| Name := Name (member "Rogue" 16 35 5);
                ints := <["AC"%string := 19%Z]> (ints (member "Rogue" 16 35 5)) |}
             "normal" [bite; fire_breath 15])%Q
  /\ (per_round_dpr_vs_pc
        {| Name := Name (member "Rogue" 16 35 5);
           ints := <["AC"%string := 19%Z]> (ints (member "Rogue" 16 35 5)) |}
        "normal" [bite; fire_breath 15]
      <= per_round_dpr_vs_pc (member "Rogue" 16 35 5) "normal"
           [bite; fire_breath 15])%Q.
Proof.
  assert (H : get_int (member "Rogue" 16 35 5) "AC" 10 <= 19)
    by (vm_compute; discriminate).
  exact (conj H (higher_ac_never_raises_boss_dpr (member "Rogue" 16 35 5) 19
                   "normal" [bite; fire_breath 15] H)).
Defined.

(** ** DeterministicEstimator: rounds to zero *)



(** ** Time-to-defeat *)




(** ** AutoTuner: where the tuned HP can lie *)

Lemma round_half_even_between (x : Q) (hi : Z) :
  (1 <= x)%Q -> (x <= inject_Z hi)%Q -> 1 <= round_half_even x <= hi.
Proof.
  intros Hlo Hhi. unfold round_half_even. cbv zeta.
  pose proof (Qfloor_le x) as Hf.
  assert (H1 : 1 <= Qfloor x).
  { change 1 with (Qfloor (inject_Z 1)) at 1. rewrite Qfloor_Z at 1.
    rewrite <- (Qfloor_Z 1). now apply Qfloor_resp_le. }
  assert (H2 : Qfloor x <= hi).
  { rewrite <- (Qfloor_Z hi). now apply Qfloor_resp_le. }
  assert (Hhalf : (x - inject_Z (Qfloor x) ?= 1 # 2)%Q <> Lt -> Qfloor x + 1 <= hi).
  { intros Hc.
    assert (Hge : (1 # 2 <= x - inject_Z (Qfloor x))%Q).
    { apply Qnot_lt_le. intros Hlt. apply Hc. exact Hlt. }
    assert (Hx : (inject_Z (Qfloor x) + (1 # 2) <= inject_Z hi)%Q).
    { apply Qle_trans with (inject_Z (Qfloor x) + (x - inject_Z (Qfloor x)))%Q;
        [apply Qplus_le_r; exact Hge|].
      assert (Ex : (inject_Z (Qfloor x) + (x - inject_Z (Qfloor x)) == x)%Q) by ring.
      rewrite Ex. exact Hhi. }
    revert Hx. generalize (Qfloor x). intros f Hx.
    unfold Qle, Qplus, inject_Z in Hx. cbn in Hx. lia. }
  destruct (x - inject_Z (Qfloor x) ?= 1 # 2)%Q eqn:E.
  - destruct (Z.even (Qfloor x)); [lia|].
    assert (Qfloor x + 1 <= hi) by (apply Hhalf; discriminate). lia.
  - lia.
  - assert (Qfloor x + 1 <= hi) by (apply Hhalf; discriminate). lia.
Qed.

Lemma escalate_high_bounds (fuel : nat) (target : Q) (quick : Z) :
  forall (a : AppState) (high : Q) (med_high : emed),
    (0 <= high)%Q ->
    ensures (escalate fuel target quick a high med_high)
            (fun r => (high <= snd (fst r))%Q
                      /\ (snd (fst r) <= high * inject_Z (2 ^ Z.of_nat fuel))%Q).
Proof.
  induction fuel as [|fuel IH]; intros a high med_high Hhigh; cbn [escalate].
  - apply ensures_ret. cbn [fst snd]. split; [apply Qle_refl|].
    change (inject_Z (2 ^ Z.of_nat 0)) with 1%Q. rewrite Qmult_1_r. apply Qle_refl.
  - destruct (elt med_high target).
    + eapply ensures_bind; [apply ensures_any|]. intros r _.
      eapply ensures_mono.
      * apply IH. rewrite <- (Qmult_0_l 2). apply Qmult_le_compat_r;
          [assumption|discriminate].
      * intros [[a' h'] m'] [Hlo Hup]. cbn [fst snd] in *. split.
        -- apply Qle_trans with (high * 2)%Q; [|assumption].
           rewrite <- (Qmult_1_r high) at 1.
           apply Qmult_le_l_nonneg; [assumption|discriminate].
        -- apply Qle_trans with (high * 2 * inject_Z (2 ^ Z.of_nat fuel))%Q;
             [assumption|].
           replace (2 ^ Z.of_nat (S fuel)) with (2 * 2 ^ Z.of_nat fuel)
             by (rewrite Nat2Z.inj_succ, Z.pow_succ_r by lia; reflexivity).
           rewrite inject_Z_mult, Qmult_assoc. apply Qle_refl.
    + apply ensures_ret. cbn [fst snd]. split; [apply Qle_refl|].
      rewrite <- (Qmult_1_r high) at 1. apply Qmult_le_l_nonneg; [assumption|].
      rewrite <- (Zle_Qle 1). pose proof (Z.pow_pos_nonneg 2 (Z.of_nat (S fuel))). lia.
Qed.

Lemma bracket_search_bounds (app : AppState) :
  ensures (bracket_search app)
    (fun b => br_low b = 1%Q
              /\ (1 <= br_high b)%Q
              /\ (br_high b
                  <= inject_Z (4096 * Z.max 10 (boss_hp (options app))))%Q).
Proof.
  unfold bracket_search. cbv zeta.
  assert (Hmax : (Qmax 10 (inject_Z (boss_hp (options app)))
                  == inject_Z (Z.max 10 (boss_hp (options app))))%Q).
  { destruct (Z.max_spec 10 (boss_hp (options app))) as [[Hlt ->]|[Hle ->]].
    - apply Q.max_r. rewrite <- (Zle_Qle 10). lia.
    - apply Q.max_l. rewrite <- (Zle_Qle _ 10). lia. }
  assert (H10 : (10 <= Qmax 10 (inject_Z (boss_hp (options app))))%Q)
    by apply Q.le_max_l.
  eapply ensures_bind; [apply ensures_any|]. intros r1 _.
  eapply ensures_bind; [apply ensures_any|]. intros r2 _.
  eapply ensures_bind.
  { apply escalate_high_bounds.
    apply Qle_trans with 10%Q; [discriminate|exact H10]. }
  intros [[a high] med_high] [Hlo Hup]. cbn [fst snd] in Hlo, Hup.
  assert (Hb : (1 <= high)%Q
               /\ (high <= inject_Z (4096 * Z.max 10 (boss_hp (options app))))%Q).
  { split.
    - apply Qle_trans with 10%Q; [discriminate|].
      now apply Qle_trans with (Qmax 10 (inject_Z (boss_hp (options app)))).
    - rewrite Hmax in Hup. rewrite inject_Z_mult, Qmult_comm. exact Hup. }
  destruct (egt _ _).
  - eapply ensures_bind; [apply ensures_any|]. intros r4 _.
    apply ensures_ret. cbn [br_low br_high]. now split.
  - apply ensures_ret. cbn [br_low br_high]. now split.
Qed.

Lemma bisection_bounds (n : nat) (target : Q) (quick : Z) :
  forall (a : AppState) (low high : Q),
    (low <= high)%Q ->
    ensures (bisection n target quick a low high)
            (fun r => (low <= snd r)%Q /\ (snd r <= high)%Q).
Proof.
  induction n as [|n IH]; intros a low high Hle; cbn [bisection].
  - apply ensures_ret. cbn [snd]. split; [assumption|apply Qle_refl].
  - cbv zeta. eapply ensures_bind; [apply ensures_any|]. intros r _.
    assert (Hmid : (low <= (1 # 2) * (low + high))%Q
                   /\ ((1 # 2) * (low + high) <= high)%Q).
    { split.
      - apply Qplus_le_l with (- (1 # 2) * low)%Q. ring_simplify.
        apply Qmult_le_l; [reflexivity|assumption].
      - apply Qplus_le_l with (- (1 # 2) * high)%Q. ring_simplify.
        apply Qmult_le_l; [reflexivity|assumption]. }
    destruct Hmid as [Hlm Hmh].
    destruct (ege _ _); destruct (eclose _ _ _).
    + apply ensures_ret. cbn [snd]. now split.
    + eapply ensures_mono; [apply IH; assumption|].
      intros [[a' l'] h'] [H1 H2]. cbn [snd] in *. split; [assumption|].
      now apply Qle_trans with ((1 # 2) * (low + high))%Q.
    + apply ensures_ret. cbn [snd]. split; [assumption|apply Qle_refl].
    + eapply ensures_mono; [apply IH; assumption|].
      intros [[a' l'] h'] [H1 H2]. cbn [snd] in *. split; [|assumption].
      now apply Qle_trans with ((1 # 2) * (low + high))%Q.
Qed.

(** X23. Whenever the auto-tuner reports a tuned boss HP, that HP is at
    least 1 and at most 4096 times the larger of 10 and the boss HP it
    started from. *)
Theorem tuned_hp_is_bounded (app app' : AppState) (g g' : rng) (hp : Z)
    (med : emed) (tpk : Q) (cap_not_met : bool) :
  _on_auto_tune app g = inr ((Tuned hp med tpk cap_not_met, app'), g') ->
  1 <= hp <= 4096 * Z.max 10 (boss_hp (options app)).
Proof.
  assert (H : ensures (_on_auto_tune app)
                (fun r => match fst r with
                          | Tuned h _ _ _ =>
                              1 <= h <= 4096 * Z.max 10 (boss_hp (options app))
                          | _ => True
                          end)).
  { unfold _on_auto_tune. cbv zeta.
    eapply ensures_bind; [apply bracket_search_bounds|].
    intros b (Hlow & Hlo & Hup).
    destruct (negb (bracketed b _)); [now apply ensures_ret|].
    eapply ensures_bind.
    { apply bisection_bounds. rewrite Hlow. exact Hlo. }
    intros [[a low] high] [H1 H2]. cbn [snd] in H1, H2.
    unfold final_simulation. cbv zeta.
    eapply ensures_bind; [apply ensures_any|]. intros metrics _.
    apply ensures_ret. unfold final_report.
    destruct metrics as [m|]; cbn [fst]; [|exact I].
    apply round_half_even_between.
    - rewrite Hlow in H1. exact H1.
    - now apply Qle_trans with (br_high b). }
  intros E. exact (H g _ g' E).
Qed.

Lemma tuned_hp_is_bounded_witness :
  exists (hp : Z) (med : emed) (tpk : Q) (c : bool) (app' : AppState) (g' : rng),
    _on_auto_tune (duel 12 1 20) (const_rng 0) = inr ((Tuned hp med tpk c, app'), g')
    /\ 1 <= hp <= 4096 * Z.max 10 (boss_hp (options (duel 12 1 20))).
Proof.
  pose proof duel_trace as [_ H].
  remember (_on_auto_tune (duel 12 1 20) (const_rng 0)) as r eqn:E.
  destruct r as [e|[[[| |h med tpk c] app'] g']];
    [destruct H|destruct H|destruct H|].
  symmetry in E.
  exists h, med, tpk, c, app', g'. split; [reflexivity|].
  exact (tuned_hp_is_bounded (duel 12 1 20) app' (const_rng 0) g' h med tpk c E).
Defined.

(** ** Profiles: saving and loading *)

Section ProfileRoundTrip.

Lemma table_keys_are_not_options (k : string) :
  In k ["party_table"; "attacks_table"; "party_dpr_table"; "party_nova_table"]%string ->
  Profile.DEFAULT_OPTIONS !! k = None.
Proof.
  intros H. cbn in H.
  destruct H as [<-|[<-|[<-|[<-|[]]]]]; vm_compute; reflexivity.
Qed.

Lemma tables_lookup (s : Profile.AppState) :
  let tables : gmap string Profile.Value :=
    list_to_map
      [("party_table", Profile.party_table s);
       ("attacks_table", Profile.attacks_table s);
       ("party_dpr_table", Profile.party_dpr_table s);
       ("party_nova_table", Profile.party_nova_table s)]%string in
  tables !! "party_table"%string = Some (Profile.party_table s)
  /\ tables !! "attacks_table"%string = Some (Profile.attacks_table s)
  /\ tables !! "party_dpr_table"%string = Some (Profile.party_dpr_table s)
  /\ tables !! "party_nova_table"%string = Some (Profile.party_nova_table s)
  /\ forall k, is_Some (tables !! k) ->
               In k ["party_table"; "attacks_table"; "party_dpr_table";
                     "party_nova_table"]%string.
Proof.
  cbv zeta. unfold list_to_map. cbn [foldr fold_right fst snd].
  do 4 (split; [reflexivity|]).
  intros k [v Hv].
  destruct (String.eqb_spec k "party_table") as [->|H1]; [cbn; auto|].
  destruct (String.eqb_spec k "attacks_table") as [->|H2]; [cbn; auto|].
  destruct (String.eqb_spec k "party_dpr_table") as [->|H3]; [cbn; auto|].
  destruct (String.eqb_spec k "party_nova_table") as [->|H4]; [cbn; auto|].
  rewrite !lookup_insert_ne in Hv by congruence.
  rewrite lookup_empty in Hv. discriminate.
Qed.

(** A table of a complete state is found again in its dictionary. *)
Lemma saved_table (s : Profile.AppState) (k : string) (v : Profile.Value) :
  (forall k, is_Some (Profile.options s !! k)
             <-> is_Some (Profile.DEFAULT_OPTIONS !! k)) ->
  In k ["party_table"; "attacks_table"; "party_dpr_table"; "party_nova_table"]%string ->
  (list_to_map
     [("party_table", Profile.party_table s);
      ("attacks_table", Profile.attacks_table s);
      ("party_dpr_table", Profile.party_dpr_table s);
      ("party_nova_table", Profile.party_nova_table s)]%string
   : gmap string Profile.Value) !! k = Some v ->
  Profile.to_profile_dict s !! k = Some v.
Proof.
  intros Hkeys Hk Hv. unfold Profile.to_profile_dict.
  apply lookup_union_Some_raw. right. split; [|exact Hv].
  pose proof (table_keys_are_not_options k Hk) as Hnone.
  destruct (Profile.options s !! k) eqn:E; [|reflexivity].
  destruct (proj1 (Hkeys k) (ex_intro _ _ E)) as [w Hw]. congruence.
Qed.

Lemma saved_option (s : Profile.AppState) (k : string) (v : Profile.Value) :
  Profile.options s !! k = Some v -> Profile.to_profile_dict s !! k = Some v.
Proof.
  intros H. unfold Profile.to_profile_dict. apply lookup_union_Some_raw. now left.
Qed.

Lemma get_or_truthy (d : gmap string Profile.Value) (k : string)
    (v fallback : Profile.Value) :
  d !! k = Some v -> Profile.truthy v = true -> Profile.get_or d k fallback = v.
Proof. intros Hk Hv. unfold Profile.get_or. now rewrite Hk, Hv. Qed.


Lemma loaded_options (d : gmap string Profile.Value) (k : string) :
  (map_imap (fun k v => Some (default v (d !! k))) Profile.DEFAULT_OPTIONS
   : gmap string Profile.Value) !! k
  = match Profile.DEFAULT_OPTIONS !! k with
    | Some v => Some (default v (d !! k))
    | None => None
    end.
Proof.
  rewrite map_lookup_imap. now destruct (Profile.DEFAULT_OPTIONS !! k).
Qed.

Lemma round_trip (s : Profile.AppState) :
  complete_state s ->
  Profile.from_profile_dict (Some (Profile.to_profile_dict s)) = s.
Proof.
  intros (Hp & Ha & Hd & Hn & Hkeys).
  destruct (tables_lookup s) as (Tp & Ta & Td & Tn & _). cbv zeta in *.
  unfold Profile.from_profile_dict. cbv zeta.
  rewrite (get_or_truthy _ "party_table" (Profile.party_table s))
    by (try apply saved_table; cbn; auto).
  rewrite (get_or_truthy _ "attacks_table" (Profile.attacks_table s))
    by (try apply saved_table; cbn; auto).
  rewrite (get_or_truthy _ "party_dpr_table" (Profile.party_dpr_table s))
    by (try apply saved_table; cbn; auto).
  rewrite (get_or_truthy _ "party_nova_table" (Profile.party_nova_table s))
    by (try apply saved_table; cbn; auto).
  destruct s as [p a dp nv o]. cbn [Profile.options] in *. f_equal.
  apply map_eq. intros k. rewrite loaded_options.
  destruct (Profile.DEFAULT_OPTIONS !! k) as [v|] eqn:E.
  - destruct (proj2 (Hkeys k) (ex_intro _ v E)) as [w Hw].
    rewrite (saved_option _ k w) by exact Hw. now rewrite Hw.
  - destruct (o !! k) as [w|] eqn:Ew; [|reflexivity].
    destruct (proj1 (Hkeys k) (ex_intro _ w Ew)) as [v Hv]. congruence.
Qed.


End ProfileRoundTrip.

(** X24. Saving a state to its profile dictionary and loading it back
    gives the same state, provided none of its four tables is empty and
    its options carry exactly the keys of the default options. *)
Theorem profile_round_trip (s : Profile.AppState) :
  complete_state s ->
  Profile.from_profile_dict (Some (Profile.to_profile_dict s)) = s.
Proof. apply round_trip. Qed.

Lemma profile_round_trip_witness :
  complete_state saved_state
  /\ Profile.from_profile_dict (Some (Profile.to_profile_dict saved_state))
     = saved_state.
Proof.
  assert (H : complete_state saved_state).
  { repeat split; try reflexivity.
    - intros [v Hv]. cbn [saved_state Profile.options] in Hv.
      destruct (String.eqb_spec k "boss_hp") as [->|Hk];
        [vm_compute; now eexists|].
      rewrite lookup_insert_ne in Hv by congruence. exact (ex_intro _ v Hv).
    - intros [v Hv]. cbn [saved_state Profile.options].
      destruct (String.eqb_spec k "boss_hp") as [->|Hk].
      + rewrite lookup_insert_eq. now eexists.
      + rewrite lookup_insert_ne by congruence. exact (ex_intro _ v Hv). }
  exact (conj H (profile_round_trip saved_state H)).
Defined.


(** ** The attack table *)

Section Normalisation.

Lemma lower_char_idem (c : ascii) : lower_char (lower_char c) = lower_char c.
Proof. destruct c as [[] [] [] [] [] [] [] []]; reflexivity. Qed.

Lemma upper_char_idem (c : ascii) : upper_char (upper_char c) = upper_char c.
Proof. destruct c as [[] [] [] [] [] [] [] []]; reflexivity. Qed.

Lemma lower_char_space (c : ascii) : isspace (lower_char c) = isspace c.
Proof. destruct c as [[] [] [] [] [] [] [] []]; reflexivity. Qed.

Lemma smap_idem (f : ascii -> ascii) (s : string) :
  (forall c, f (f c) = f c) -> smap f (smap f s) = smap f s.
Proof. intros Hf. induction s as [|c s IH]; cbn [smap]; [reflexivity|]. now rewrite Hf, IH. Qed.

Lemma lstrip_smap (f : ascii -> ascii) (s : string) :
  (forall c, isspace (f c) = isspace c) -> lstrip (smap f s) = smap f (lstrip s).
Proof.
  intros Hf. induction s as [|c s IH]; cbn [smap lstrip]; [reflexivity|].
  rewrite Hf. now destruct (isspace c).
Qed.

Lemma rstrip_smap (f : ascii -> ascii) (s : string) :
  (forall c, isspace (f c) = isspace c) -> rstrip (smap f s) = smap f (rstrip s).
Proof.
  intros Hf. induction s as [|c s IH]; cbn [smap rstrip]; [reflexivity|].
  rewrite IH, Hf. destruct (rstrip s); cbn [smap]; [|reflexivity].
  now destruct (isspace c).
Qed.

Lemma strip_smap (f : ascii -> ascii) (s : string) :
  (forall c, isspace (f c) = isspace c) -> strip (smap f s) = smap f (strip s).
Proof. intros Hf. unfold strip. now rewrite lstrip_smap, rstrip_smap. Qed.

Lemma rstrip_idem (s : string) : rstrip (rstrip s) = rstrip s.
Proof.
  induction s as [|c s IH]; [reflexivity|]. cbn [rstrip].
  destruct (rstrip s) as [|c' r] eqn:E.
  - destruct (isspace c) eqn:Hc; [reflexivity|]. cbn [rstrip]. now rewrite Hc.
  - change (rstrip (String c (String c' r)))
      with (match rstrip (String c' r) with
            | EmptyString => if isspace c then EmptyString else String c EmptyString
            | String a r0 => String c (String a r0)
            end).
    now rewrite IH.
Qed.

Lemma lstrip_head (s : string) :
  lstrip s = EmptyString \/ exists c r, lstrip s = String c r /\ isspace c = false.
Proof.
  induction s as [|c s IH]; [now left|]. cbn [lstrip].
  destruct (isspace c) eqn:Hc; [exact IH|]. right. now exists c, s.
Qed.

Lemma rstrip_keeps_head (c : ascii) (s : string) :
  isspace c = false -> exists r, rstrip (String c s) = String c r.
Proof.
  intros Hc. cbn [rstrip]. destruct (rstrip s); [rewrite Hc|]; now eexists.
Qed.

Lemma strip_idem (s : string) : strip (strip s) = strip s.
Proof.
  unfold strip. destruct (lstrip_head s) as [->|(c & r & -> & Hc)]; [reflexivity|].
  destruct (rstrip_keeps_head c r Hc) as [r' E]. rewrite E.
  cbn [lstrip]. rewrite Hc, <- E. apply rstrip_idem.
Qed.

Lemma kind_normal_form (k : string) :
  lower (strip (lower (strip k))) = lower (strip k).
Proof.
  unfold lower. rewrite (strip_smap lower_char) by apply lower_char_space.
  rewrite strip_idem. apply smap_idem, lower_char_idem.
Qed.

End Normalisation.

(** X26. The attacks handed to the calculations are the enabled rows of
    the table, in order: none of them is disabled or has a negative
    number of uses, there are no more of them than rows, and normalising
    them a second time changes nothing. *)
Theorem enabled_attacks_are_normalised (tbl : list Attack) :
  let attacks := attacks_enabled_from_table tbl in
  Forall (fun a => enabled a = true /\ 0 <= uses_per_round a) attacks
  /\ (length attacks <= length tbl)%nat
  /\ map name attacks = map name (List.filter enabled tbl)
  /\ attacks_enabled_from_table attacks = attacks.
Proof.
  cbv zeta. unfold attacks_enabled_from_table.
  split; [|split; [|split]].
  - apply Forall_map. apply List.Forall_forall. intros row Hrow.
    apply filter_In in Hrow as [_ Hen]. cbn [enabled uses_per_round]. split; [exact Hen|lia].
  - rewrite length_map. apply filter_length_le.
  - rewrite map_map. reflexivity.
  - induction tbl as [|row tbl IH]; [reflexivity|]. cbn [List.filter].
    destruct (enabled row) eqn:Hen; [|exact IH].
    cbn [map List.filter enabled]. rewrite Hen. cbn [map]. rewrite IH.
    f_equal. cbn [name kind attack_bonus dc save_stat damage_expr uses_per_round
                   is_melee enabled].
    rewrite kind_normal_form. unfold upper at 1.
    rewrite (smap_idem upper_char) by apply upper_char_idem.
    fold (upper (save_stat row)).
    replace (Z.max 0 (Z.max 0 (uses_per_round row)))
      with (Z.max 0 (uses_per_round row)) by lia.
    reflexivity.
Qed.

(** ** EncounterSimulator: the count of fallen members *)

Lemma ensures_and {A : Type} (m : M A) (P Q : A -> Prop) :
  ensures m P -> ensures m Q -> ensures m (fun a => P a /\ Q a).
Proof. intros HP HQ g a g' E. split; [exact (HP g a g' E)|exact (HQ g a g' E)]. Qed.

Lemma ensures_boss_goes_first (init_mode : string) (n : nat) :
  ensures (boss_goes_first init_mode n) (fun flags => length flags = n).
Proof.
  unfold boss_goes_first.
  destruct (String.eqb init_mode "boss_first");
    [apply ensures_ret, length_replicate|].
  destruct (String.eqb init_mode "party_first");
    [apply ensures_ret, length_replicate|].
  eapply ensures_bind.
  - apply returns_ensures, returns_replicateM, returns_random_unit.
  - intros r [Hr _]. apply ensures_ret. now rewrite length_map.
Qed.

Lemma fallen_counts (P : nat) (alive : list (list bool)) :
  Forall (fun row => length row = P) alive ->
  Forall (fallen_count P)
    (map (fun row => Z.of_nat (count_true (map negb row))) alive).
Proof.
  intros H. apply Forall_map. eapply Forall_impl; [exact H|].
  intros row Hrow. cbv beta in *. unfold fallen_count.
  pose proof (count_true_le (map negb row)) as Hle.
  rewrite length_map in Hle. lia.
Qed.

Lemma ensures_party_phase_tally (P : nat) (eff_means : list Q)
    (dpr_cv resist regen : Q) (rnd : Z) (mask : list bool) (st : EncState) (n : nat) :
  enc_shape n P st -> tally_shape n P st -> length mask = n ->
  ensures (party_phase P eff_means dpr_cv resist regen rnd mask st)
          (tally_shape n P).
Proof.
  intros (_ & [Halen Harows] & _ & Httk) (Hboss & Hdlen & Hdown) Hmask.
  unfold party_phase. cbv zeta.
  apply (ensures_bind _ _ (fun dmg => length dmg = n)).
  - apply ensures_foldM; [|rewrite Hmask; apply length_replicate].
    intros dmg j _ Hdmg.
    destruct (negb (any _)); [now apply ensures_ret|].
    eapply ensures_bind; [apply ensures_any|]. intros means _.
    eapply ensures_bind; [apply ensures_any|]. intros draws _.
    apply ensures_ret. now rewrite scatter_add_length.
  - intros dmg Hdmg. apply ensures_ret. unfold tally_shape.
    cbn [boss_hp_t pcs_down_at_victory].
    assert (Hol : length (ongoing_of (ttk st)) = n)
      by (unfold ongoing_of; now rewrite length_map).
    split; [|split].
    + rewrite !length_zip_with, length_map. lia.
    + rewrite !length_zip_with, !length_map, !length_zip_with, length_map. lia.
    + eapply (Forall_zip_with
                (fun p => fallen_count P (fst p) /\ fallen_count P (snd p))
                (fun _ => True)).
      * intros [old new] m [Ho Hn] _. cbn [fst snd] in *. now destruct m.
      * eapply Forall_zip_with; [|exact Hdown|apply (fallen_counts P _ Harows)].
        intros x y Hx Hy. now split.
      * apply Forall_forall. intros x _. exact I.
Qed.

Lemma ensures_boss_phase_tally (o : Options) (P : nat) (attacks : list Attack)
    (thp_avg : Q) (spread_targets : Z) (pc_AC : list Z) (pc_saves : list (list Z))
    (save_index : gmap string nat) (rnd : Z) (st : EncState) (n : nat) :
  tally_shape n P st ->
  ensures (boss_phase o P attacks thp_avg spread_targets pc_AC pc_saves
             save_index rnd st)
          (tally_shape n P).
Proof.
  intros Hst. unfold boss_phase. cbv zeta.
  eapply ensures_bind; [apply ensures_any|]. intros round_pool _.
  eapply ensures_bind; [apply ensures_any|]. intros b1 _.
  eapply ensures_bind; [apply ensures_any|]. intros b2 _.
  eapply ensures_bind; [apply ensures_any|]. intros b3 _.
  apply ensures_ret. exact Hst.
Qed.

Lemma ensures_round_step_tally (o : Options) (n P : nat) (attacks : list Attack)
    (eff_means : list Q) (dpr_cv resist regen thp_avg : Q) (spread : Z)
    (init_mode : string) (pc_AC : list Z) (pc_saves : list (list Z))
    (st : EncState) (rnd : Z) :
  let save_index : gmap string nat :=
    list_to_map (zip SAVE_KEYS (seq 0 (length SAVE_KEYS))) in
  Forall (fun atk => kind atk = "save"%string ->
                     In (upper (save_stat atk)) SAVE_KEYS) attacks ->
  (lair_enabled o = true -> 0 <= lair_targets o) ->
  (rech_enabled o = true -> 0 <= rech_targets o) ->
  length eff_means = P -> length pc_AC = P ->
  shape2 P (length SAVE_KEYS) pc_saves ->
  enc_shape n P st /\ tally_shape n P st ->
  ensures (round_step o n P attacks eff_means dpr_cv resist regen thp_avg spread
             init_mode pc_AC pc_saves save_index st rnd)
          (fun r => match r with
                    | Some st' => enc_shape n P st' /\ tally_shape n P st'
                    | None => True
                    end).
Proof.
  intros save_index Hatk Hlair Hrech Heff Hac Hsaves [Hst Htally].
  unfold round_step. cbv zeta.
  destruct (negb (any (ongoing_of (ttk st)))); [now apply ensures_ret|].
  eapply ensures_bind; [apply ensures_boss_goes_first|]. intros flags Hflags.
  assert (Hmask : forall (s : EncState) (fl : list bool),
             enc_shape n P s -> length fl = n ->
             length (zip_with andb (ongoing_of (ttk s)) fl) = n).
  { intros s fl (_ & _ & _ & Httk) Hfl. unfold ongoing_of.
    rewrite length_zip_with, length_map. lia. }
  assert (Hparty : forall (s : EncState) (mask : list bool),
             enc_shape n P s /\ tally_shape n P s -> length mask = n ->
             ensures (if any mask
                      then party_phase P eff_means dpr_cv resist regen rnd mask s
                      else ret s)
                     (fun s' => enc_shape n P s' /\ tally_shape n P s')).
  { intros s mask [Hs Ht] Hm. destruct (any mask); [|now apply ensures_ret].
    apply ensures_and.
    - now apply returns_ensures, returns_party_phase.
    - now apply ensures_party_phase_tally. }
  eapply ensures_bind.
  { apply Hparty; [now split|]. apply Hmask; [assumption|now rewrite length_map]. }
  intros st1 [Hst1 Ht1].
  apply (ensures_bind _ _ (fun s' => enc_shape n P s' /\ tally_shape n P s')).
  { destruct (any (ongoing_of (ttk st1))); [|now apply ensures_ret].
    apply ensures_and.
    - now apply returns_ensures, returns_boss_phase.
    - now apply ensures_boss_phase_tally. }
  intros st2 [Hst2 Ht2].
  eapply ensures_bind.
  { apply Hparty; [now split|]. now apply Hmask. }
  intros st3 H3. now apply ensures_ret.
Qed.

Lemma finished_trials_length (ttk : list (option Z)) : forall downs : list Z,
  length downs = length ttk ->
  length (map snd (List.filter (fun x => negb (fst x)) (zip (ongoing_of ttk) downs)))
  = length (finite ttk).
Proof.
  unfold finite. induction ttk as [|[r|] ttk IH]; intros [|d downs] Hlen;
    try discriminate; [reflexivity| |]; cbn.
  - f_equal. apply IH. now inversion Hlen.
  - apply IH. now inversion Hlen.
Qed.

Lemma finished_trials_Forall (P : Z -> Prop) (flags : list bool) :
  forall downs : list Z,
    Forall P downs ->
    Forall P (map snd (List.filter (fun x => negb (fst x)) (zip flags downs))).
Proof.
  induction flags as [|f flags IH]; intros downs H; [constructor|].
  destruct H as [|d downs Hd H]; [constructor|]. cbn.
  destruct f; cbn; [now apply IH|]. constructor; [assumption|now apply IH].
Qed.

(** X27. On a well-formed configuration, the metrics of a run hold one
    time-to-kill per trial and one count of fallen party members per
    trial in which the boss fell, each count between 0 and the size of
    the party. *)
Theorem fallen_counts_match_finished_trials (app : AppState) (g g' : rng)
    (m : Metrics) :
  well_formed app ->
  _run_encounter_mc app g = inr (Some m, g') ->
  length (m_ttk m) = Z.to_nat (enc_trials (options app))
  /\ length (m_pcs_down_at_victory m) = length (finite (m_ttk m))
  /\ Forall (fun x => 0 <= x <= Z.of_nat (length (party_table app)))
            (m_pcs_down_at_victory m).
Proof.
  intros (Htrials & Hlair & Hrech & Hatk).
  assert (H : ensures (_run_encounter_mc app)
                (fun r => match r with
                          | None => True
                          | Some m =>
                              length (m_ttk m) = Z.to_nat (enc_trials (options app))
                              /\ length (m_pcs_down_at_victory m)
                                 = length (finite (m_ttk m))
                              /\ Forall (fallen_count (length (party_table app)))
                                        (m_pcs_down_at_victory m)
                          end)).
  { unfold _run_encounter_mc. cbv zeta.
    destruct (is_nil (party_table app)); [now apply ensures_ret|].
    match goal with |- ensures (if ?c then _ else _) _ => destruct c end;
      [now apply ensures_ret|].
    destruct (is_nil (_eff_party_dprs app (enc_use_nova (options app))));
      [now apply ensures_ret|].
    destruct (enc_trials (options app) <? 0); [apply ensures_raise|].
    set (n := Z.to_nat (enc_trials (options app))).
    set (P := length (map Name (party_table app))).
    assert (HP : length (party_table app) = P) by (unfold P; now rewrite length_map).
    rewrite HP.
    apply (ensures_bind _ _ (fun st => enc_shape n P st /\ tally_shape n P st)).
    - apply ensures_forM_break.
      + intros st rnd _ Hst. apply ensures_round_step_tally; try assumption.
        * now rewrite length_map.
        * now rewrite length_map.
        * split; [now rewrite length_map|]. apply List.Forall_forall.
          intros row Hrow. apply in_map_iff in Hrow as (pc & <- & _).
          now rewrite length_map.
      + split.
        * split; [apply shape2_replicate; now rewrite length_map|].
          split; [apply shape2_replicate, length_replicate|].
          split; [apply shape2_replicate, length_replicate|].
          apply length_replicate.
        * split; [apply length_replicate|]. split; [apply length_replicate|].
          apply Forall_replicate_intro. unfold fallen_count. lia.
    - intros st [(_ & _ & _ & Httk) (_ & Hdlen & Hdown)]. apply ensures_ret.
      cbn [m_ttk m_pcs_down_at_victory].
      split; [exact Httk|]. split.
      + apply finished_trials_length. congruence.
      + now apply finished_trials_Forall. }
  intros E. exact (H g (Some m) g' E).
Qed.

Lemma fallen_counts_match_finished_trials_witness :
  well_formed skirmish
  /\ exists (m : Metrics) (g' : rng),
       _run_encounter_mc skirmish mixed_rng = inr (Some m, g')
       /\ length (m_ttk m) = Z.to_nat (enc_trials (options skirmish))
       /\ length (m_pcs_down_at_victory m) = length (finite (m_ttk m))
       /\ Forall (fun x => 0 <= x <= Z.of_nat (length (party_table skirmish)))
                 (m_pcs_down_at_victory m).
Proof.
  refine (conj well_formed_skirmish _).
  pose proof skirmish_returns as H.
  remember (_run_encounter_mc skirmish mixed_rng) as r eqn:Hrun.
  destruct r as [e|[[m|] g']]; [destruct H| |destruct H].
  symmetry in Hrun.
  exists m, g'. split; [reflexivity|].
  exact (fallen_counts_match_finished_trials skirmish mixed_rng g' m
           well_formed_skirmish Hrun).
Defined.
